(** * Instance parsing, distance matrices and tour reconstruction

    A shallow embedding of the routing fragment of the repository:

    - [VRPDataReader] (instances/tai150a/experiments/exp001/utils.py):
      the benchmark-file reader, its comment patterns and its distance matrix;
    - [TSPDataExtractor] and [load_tsp_instance]
      (instances/tsp/src/tsp_utils.py): sub-instances and TSP files;
    - [MIPTSPSolver._extract_tour] and [MIPTSPSolver._handle_subtours]
      (instances/tsp/src/tsp_mip.py): reading a tour off a 0/1 assignment.

    Conventions.  Python integers are [Z].  A Python [float] is modelled by the
    exact rational it denotes ([Q]) and [np.sqrt] by the exact square root, so
    that the rounding rules are the only source of integrality; where the
    arithmetic on floats raises instead of returning is a parameter
    ([Builtins]), and floats read from text that are not finite are outside
    the model.  A [dict] is a [gmap], a [set] a [gset], a numpy matrix a list
    of rows.  Text is a [string] whose characters are the
    code points below 256; a file is the list of its lines, as [readlines]
    returns them.  A raised exception is a value of [error]. *)

From Stdlib Require Import ZArith QArith Reals Qreals Lia Lra String Ascii.
From stdpp Require Import base option list gmap strings pretty.

Local Close Scope R_scope.
Local Open Scope Z_scope.

(** * Part I: the embedding *)

(** ** Exceptions *)

(** [InvalidOperation] is [decimal.InvalidOperation]. *)
Inductive error : Type :=
  | KeyError (key : Z)
  | IndexError
  | ValueError
  | TypeError
  | OverflowError
  | InvalidOperation.

Inductive result (A : Type) : Type :=
  | Ok (a : A)
  | Raise (e : error).
Arguments Ok {A} a.
Arguments Raise {A} e.

#[export] Instance result_ret : MRet result := @Ok.
#[export] Instance result_bind : MBind result := λ A B k r,
  match r with
  | Ok a => k a
  | Raise e => Raise e
  end.

(** [for x in xs: body], the loop state threaded through, an exception ending
    the loop. *)
Fixpoint for_each {A S : Type} (xs : list A) (body : A → S → result S) (s : S)
  : result S :=
  match xs with
  | [] => Ok s
  | x :: xs' => s' ← body x s; for_each xs' body s'
  end.

(** [range(a, b)], [range(b)] and [enumerate(xs)]. *)
Definition range (a b : Z) : list Z := seqZ a (b - a).
Definition range0 (b : Z) : list Z := range 0 b.
Definition enumerate {A : Type} (xs : list A) : list (Z * A) :=
  zip (range0 (Z.of_nat (length xs))) xs.

(** [d[key]] on a dictionary with integer keys, and [xs[i]] on a list, for an
    index that is not negative. *)
Definition getitem {V : Type} (d : gmap Z V) (key : Z) : result V :=
  match d !! key with
  | Some v => Ok v
  | None => Raise (KeyError key)
  end.

Definition list_item {A : Type} (xs : list A) (i : nat) : result A :=
  match xs !! i with
  | Some x => Ok x
  | None => Raise IndexError
  end.

(** A value that must not be [None] where a number is expected. *)
Definition number {A : Type} (o : option A) : result A :=
  match o with
  | Some a => Ok a
  | None => Raise TypeError
  end.

(** ** Text *)

(** [str.isspace], which [strip] and [split] go by, and the pattern class
    [\s], on the code points below 256. *)
Definition isspace (c : ascii) : bool :=
  let n := N_of_ascii c in
  ((9 <=? n) && (n <=? 13) || (28 <=? n) && (n <=? 32)
   || (n =? 133) || (n =? 160))%N.

(** The pattern class [\d], on the code points below 256. *)
Definition isdecimal (c : ascii) : bool :=
  let n := N_of_ascii c in ((48 <=? n) && (n <=? 57))%N.

(** The pattern class [[\d.]]. *)
Definition isdecimal_or_dot (c : ascii) : bool :=
  isdecimal c || bool_decide (c = "."%char).

(** [s.lstrip()] and [s.rstrip()]. *)
Fixpoint lstrip (s : string) : string :=
  match s with
  | EmptyString => EmptyString
  | String c s' => if isspace c then lstrip s' else s
  end.

Fixpoint rstrip (s : string) : string :=
  match s with
  | EmptyString => EmptyString
  | String c s' =>
      match rstrip s' with
      | EmptyString => if isspace c then EmptyString else String c EmptyString
      | r => String c r
      end
  end.

(** [s.strip()] *)
Definition strip (s : string) : string := rstrip (lstrip s).

(** [s.startswith(prefix)] *)
Fixpoint startswith (prefix s : string) : bool :=
  match prefix, s with
  | EmptyString, _ => true
  | String a prefix', String b s' => bool_decide (a = b) && startswith prefix' s'
  | String _ _, EmptyString => false
  end.

(** [s.split(sep)] for a one-character separator. *)
Fixpoint split (sep : ascii) (s : string) : list string :=
  match s with
  | EmptyString => [EmptyString]
  | String c s' =>
      if bool_decide (c = sep) then EmptyString :: split sep s'
      else match split sep s' with
           | piece :: pieces => String c piece :: pieces
           | [] => [String c EmptyString]
           end
  end.

(** [s.split(sep, 1)] *)
Fixpoint split_once (sep : ascii) (s : string) : list string :=
  match s with
  | EmptyString => [EmptyString]
  | String c s' =>
      if bool_decide (c = sep) then [EmptyString; s']
      else match split_once sep s' with
           | piece :: pieces => String c piece :: pieces
           | [] => [String c EmptyString]
           end
  end.

(** [s.split()]: the maximal runs of characters that are not white space;
    [word] is the run being read. *)
Fixpoint split_whitespace_from (word s : string) : list string :=
  match s with
  | EmptyString => if bool_decide (word = EmptyString) then [] else [word]
  | String c s' =>
      if isspace c then
        if bool_decide (word = EmptyString) then split_whitespace_from EmptyString s'
        else word :: split_whitespace_from EmptyString s'
      else split_whitespace_from (word +:+ String c EmptyString) s'
  end.

(** [s.split()] *)
Definition split_whitespace (s : string) : list string :=
  split_whitespace_from EmptyString s.

(** The built-in conversions [int(text)] and [float(text)] are taken as they
    are: [None] stands for the [ValueError] they raise on text they do not
    accept.

    So is the arithmetic on floats where it raises.  Computing the distance
    between two points and rounding it can raise: [** 2] raises
    [OverflowError] when the square of a difference is too large for a float,
    [quantize] raises [decimal.InvalidOperation] when the distance has more
    digits than the decimal context holds, [round] raises [OverflowError] on
    a distance that is not finite.  Which points these are depends on the
    floats of the platform: [py_quantize_raises c1 c2] is the exception that
    lines 96 and 98 of utils.py raise for the points [c1] and [c2], and
    [py_round_raises c1 c2] the one that lines 178 and 179 of tsp_utils.py
    raise, [None] when they raise none. *)
Class Builtins : Type := {
  py_int : string → option Z;
  py_float : string → option Q;
  py_quantize_raises : Q * Q → Q * Q → option error;
  py_round_raises : Q * Q → Q * Q → option error
}.

(** [int(s)] and [float(s)]. *)
Definition int `{Builtins} (s : string) : result Z :=
  match py_int s with
  | Some z => Ok z
  | None => Raise ValueError
  end.

Definition float `{Builtins} (s : string) : result Q :=
  match py_float s with
  | Some q => Ok q
  | None => Raise ValueError
  end.

(** *** The two comment patterns

    Both have the shape [literal \s* (class+)], with a class that holds no
    white space: the white space and the group are then the longest runs. *)

(** The longest prefix of [s] whose characters satisfy [p], and what follows. *)
Fixpoint span (p : ascii → bool) (s : string) : string * string :=
  match s with
  | EmptyString => (EmptyString, EmptyString)
  | String c s' =>
      if p c then let '(run, rest) := span p s' in (String c run, rest)
      else (EmptyString, s)
  end.

(** [s] without the prefix [literal], when it starts with it. *)
Fixpoint after_prefix (literal s : string) : option string :=
  match literal, s with
  | EmptyString, _ => Some s
  | String a literal', String b s' =>
      if bool_decide (a = b) then after_prefix literal' s' else None
  | String _ _, EmptyString => None
  end.

(** The group of a match that begins at the first character of [s]. *)
Definition match_here (literal : string) (class : ascii → bool) (s : string)
  : option string :=
  match after_prefix literal s with
  | None => None
  | Some rest =>
      let '(_, rest) := span isspace rest in
      let '(group, _) := span class rest in
      if bool_decide (group = EmptyString) then None else Some group
  end.

(** [re.search(literal \s* (class+), s)]: the group of the leftmost match. *)
Fixpoint re_search (literal : string) (class : ascii → bool) (s : string)
  : option string :=
  match match_here literal class s with
  | Some group => Some group
  | None =>
      match s with
      | EmptyString => None
      | String _ s' => re_search literal class s'
      end
  end.

(** ** Rounding a square root to an integer

    A distance is [np.sqrt] of a sum of squares.  It is kept as its radicand,
    which is rational, and each rounding rule is decided on the radicand. *)

Record root : Type := Root { radicand : Q }.

Definition np_sqrt (s : Q) : root := Root s.

(** [int(Decimal(str(d)).quantize(Decimal('1'), rounding=ROUND_HALF_UP))]:
    the integer [r] with [r - 1/2 <= d < r + 1/2].  For [d = sqrt (p/q)] this is
    [floor ((sqrt (4 p q) + q) / (2 q))].  This is the value when nothing is
    raised; [vrp_rounded_distance] below has the exceptions. *)
Definition round_half_up (d : root) : Z :=
  let p := Qnum (radicand d) in
  let q := Z.pos (Qden (radicand d)) in
  (Z.sqrt (4 * p * q) + q) / (2 * q).

(** [d] lies exactly half way between [r - 1] and [r]. *)
Definition is_tie_below (d : root) (r : Z) : bool :=
  Qeq_bool (4 * radicand d) (inject_Z ((2 * r - 1) ^ 2)).

(** Python's built-in [round(d)]: to the nearest integer, a tie to the even
    neighbour.  Again the value when nothing is raised. *)
Definition py_round (d : root) : Z :=
  let r := round_half_up d in
  if is_tie_below d r && Z.odd r then r - 1 else r.

(** The statement of rounding [sqrt s] half-up to [r], free of square roots:
    [r - 1/2 <= sqrt s < r + 1/2]. *)
Definition is_half_up (s : Q) (r : Z) : Prop :=
  0 ≤ r ∧ (r = 0 ∨ (inject_Z ((2 * r - 1) ^ 2) <= 4 * s)%Q)
  ∧ (4 * s < inject_Z ((2 * r + 1) ^ 2))%Q.

(** The statement of rounding [sqrt s] half-even to [r]:
    [r - 1/2 <= sqrt s <= r + 1/2], an end point only for an even [r]. *)
Definition is_half_even (s : Q) (r : Z) : Prop :=
  0 ≤ r
  ∧ (r = 0 ∨ (inject_Z ((2 * r - 1) ^ 2) <= 4 * s)%Q)
  ∧ (4 * s <= inject_Z ((2 * r + 1) ^ 2))%Q
  ∧ (Z.odd r = true →
     ¬ (4 * s == inject_Z ((2 * r - 1) ^ 2))%Q
     ∧ ¬ (4 * s == inject_Z ((2 * r + 1) ^ 2))%Q).

(** ** numpy matrices *)

Abbreviation matrix := (list (list Z)).

(** [np.zeros((rows, cols))] *)
Definition np_zeros (rows cols : Z) : result matrix :=
  if decide (rows < 0 ∨ cols < 0) then Raise ValueError
  else Ok (replicate (Z.to_nat rows) (replicate (Z.to_nat cols) 0)).

(** An index into an axis of length [len]; a negative index counts from the
    end. *)
Definition np_index (len : nat) (i : Z) : result nat :=
  if decide (0 ≤ i < Z.of_nat len) then Ok (Z.to_nat i)
  else if decide (- Z.of_nat len ≤ i < 0) then Ok (Z.to_nat (i + Z.of_nat len))
  else Raise IndexError.

(** [m[i][j]] *)
Definition np_get (m : matrix) (i j : Z) : result Z :=
  r ← np_index (length m) i;
  row ← list_item m r;
  c ← np_index (length row) j;
  list_item row c.

(** [m[i][j] = v] *)
Definition np_set (m : matrix) (i j : Z) (v : Z) : result matrix :=
  r ← np_index (length m) i;
  row ← list_item m r;
  c ← np_index (length row) j;
  Ok (<[r := <[c := v]> row]> m).

(** The entry in row [i], column [j], when there is one. *)
Definition entry (m : matrix) (i j : Z) : option Z :=
  if decide (0 ≤ i ∧ 0 ≤ j) then m !! Z.to_nat i ≫= (.!! Z.to_nat j) else None.

(** [m] has [n] rows of [n] entries. *)
Definition square (n : Z) (m : matrix) : Prop :=
  0 ≤ n ∧ length m = Z.to_nat n ∧ Forall (λ row, length row = Z.to_nat n) m.

(** [sqrt((x2 - x1)**2 + (y2 - y1)**2)] of utils.py (line 96). *)
Definition vrp_distance (c1 c2 : Q * Q) : root :=
  let '(x1, y1) := c1 in
  let '(x2, y2) := c2 in
  np_sqrt ((x2 - x1) ^ 2 + (y2 - y1) ^ 2)%Q.

(** [sqrt((coord_i[0] - coord_j[0])**2 + (coord_i[1] - coord_j[1])**2)] of
    tsp_utils.py (line 178). *)
Definition tsp_distance (coord_i coord_j : Q * Q) : root :=
  np_sqrt ((coord_i.1 - coord_j.1) ^ 2 + (coord_i.2 - coord_j.2) ^ 2)%Q.

(** Lines 96 and 98 of utils.py, [distance = np.sqrt(...)] and
    [int(Decimal(str(distance)).quantize(Decimal('1'),
    rounding=ROUND_HALF_UP))]: the exception they raise, or the distance
    rounded half-up. *)
Definition vrp_rounded_distance `{Builtins} (c1 c2 : Q * Q) : result Z :=
  match py_quantize_raises c1 c2 with
  | Some e => Raise e
  | None => Ok (round_half_up (vrp_distance c1 c2))
  end.

(** Lines 178 and 179 of tsp_utils.py, [distance = np.sqrt(...)] and
    [round(distance)]: the exception they raise, or the distance rounded by
    [round]. *)
Definition tsp_rounded_distance `{Builtins} (coord_i coord_j : Q * Q)
  : result Z :=
  match py_round_raises coord_i coord_j with
  | Some e => Raise e
  | None => Ok (py_round (tsp_distance coord_i coord_j))
  end.

(** ** The benchmark-file reader (utils.py) *)

(** The dictionary returned by [VRPDataReader.get_data]. *)
Module VRPData.

Record t : Type := Make {
  name : option string;
  comment : option string;
  dimension : option Z;
  capacity : option Z;
  edge_weight_type : option string;
  node_coords : gmap Z (Q * Q);
  demands : gmap Z Z;
  num_vehicles : Z;
  optimal_value : option Q
}.

End VRPData.

Module VRPDataReader.

(** The attributes set by [__init__] and filled in by [parse]. *)
Record t : Type := Make {
  name : option string;
  comment : option string;
  dimension : option Z;
  capacity : option Z;
  edge_weight_type : option string;
  node_coords : gmap Z (Q * Q);
  demands : gmap Z Z
}.

(** [__init__]: the reader before [parse]. *)
Definition __init__ : t :=
  {| name := None; comment := None; dimension := None; capacity := None;
     edge_weight_type := None; node_coords := ∅; demands := ∅ |}.

(** The assignments of [parse] to one attribute. *)
Definition set_name (v : string) (self : t) : t :=
  Make (Some v) (comment self) (dimension self) (capacity self)
       (edge_weight_type self) (node_coords self) (demands self).
Definition set_comment (v : string) (self : t) : t :=
  Make (name self) (Some v) (dimension self) (capacity self)
       (edge_weight_type self) (node_coords self) (demands self).
Definition set_dimension (v : Z) (self : t) : t :=
  Make (name self) (comment self) (Some v) (capacity self)
       (edge_weight_type self) (node_coords self) (demands self).
Definition set_capacity (v : Z) (self : t) : t :=
  Make (name self) (comment self) (dimension self) (Some v)
       (edge_weight_type self) (node_coords self) (demands self).
Definition set_edge_weight_type (v : string) (self : t) : t :=
  Make (name self) (comment self) (dimension self) (capacity self)
       (Some v) (node_coords self) (demands self).
Definition set_node_coord (node_id : Z) (c : Q * Q) (self : t) : t :=
  Make (name self) (comment self) (dimension self) (capacity self)
       (edge_weight_type self) (<[node_id := c]> (node_coords self))
       (demands self).
Definition set_demand (node_id demand : Z) (self : t) : t :=
  Make (name self) (comment self) (dimension self) (capacity self)
       (edge_weight_type self) (node_coords self)
       (<[node_id := demand]> (demands self)).

(** The local variable [section] of [parse]. *)
Inductive section : Type := COORDS | DEMAND.

Section with_builtins.
Context `{Builtins}.

(** [if self.comment: match = re.search(...); if match: return
    int(match.group(1))], and 4 otherwise.  An empty comment is false. *)
Definition _extract_num_vehicles (self : t) : result Z :=
  match comment self with
  | Some (String _ _ as comment) =>
      match re_search "No of trucks:" isdecimal comment with
      | Some group => int group
      | None => Ok 4
      end
  | _ => Ok 4
  end.

(** Likewise [float(match.group(1))], and [None] otherwise. *)
Definition _extract_optimal_value (self : t) : result (option Q) :=
  match comment self with
  | Some (String _ _ as comment) =>
      match re_search "Optimal value:" isdecimal_or_dot comment with
      | Some group => v ← float group; Ok (Some v)
      | None => Ok None
      end
  | _ => Ok None
  end.

(** [get_data]: the attributes and the two values read off the comment. *)
Definition get_data (self : t) : result VRPData.t :=
  num_vehicles ← _extract_num_vehicles self;
  optimal_value ← _extract_optimal_value self;
  Ok {| VRPData.name := name self;
        VRPData.comment := comment self;
        VRPData.dimension := dimension self;
        VRPData.capacity := capacity self;
        VRPData.edge_weight_type := edge_weight_type self;
        VRPData.node_coords := node_coords self;
        VRPData.demands := demands self;
        VRPData.num_vehicles := num_vehicles;
        VRPData.optimal_value := optimal_value |}.

(** One turn of the loop of [parse] over the lines of the file. *)
Definition parse_line (line : string) (st : t * option section)
  : result (t * option section) :=
  let '(self, section) := st in
  let line := strip line in
  if bool_decide (line = "" ∨ line = "EOF") then Ok (self, section)
  else if startswith "NAME" line then
    v ← list_item (split ":" line) 1; Ok (set_name (strip v) self, section)
  else if startswith "COMMENT" line then
    v ← list_item (split_once ":" line) 1;
    Ok (set_comment (strip v) self, section)
  else if startswith "TYPE" line then Ok (self, section)
  else if startswith "DIMENSION" line then
    v ← list_item (split ":" line) 1;
    n ← int (strip v); Ok (set_dimension n self, section)
  else if startswith "EDGE_WEIGHT_TYPE" line then
    v ← list_item (split ":" line) 1;
    Ok (set_edge_weight_type (strip v) self, section)
  else if startswith "CAPACITY" line then
    v ← list_item (split ":" line) 1;
    n ← int (strip v); Ok (set_capacity n self, section)
  else if bool_decide (line = "NODE_COORD_SECTION") then Ok (self, Some COORDS)
  else if bool_decide (line = "DEMAND_SECTION") then Ok (self, Some DEMAND)
  else match section with
       | Some COORDS =>
           match split_whitespace line with
           | [p0; p1; p2] =>
               node_id ← int p0;
               x ← float p1;
               y ← float p2;
               Ok (set_node_coord node_id (x, y) self, section)
           | _ => Ok (self, section)
           end
       | Some DEMAND =>
           match split_whitespace line with
           | [p0; p1] =>
               node_id ← int p0;
               demand ← int p1;
               Ok (set_demand node_id demand self, section)
           | _ => Ok (self, section)
           end
       | None => Ok (self, section)
       end.

(** [parse]: the reader as the loop leaves it, and the dictionary returned. *)
Definition parse (lines : list string) : result (t * VRPData.t) :=
  '(self, _) ← for_each lines parse_line (__init__, None);
  data ← get_data self;
  Ok (self, data).

(** [compute_distance_matrix]: node ids run from 1, matrix indices from 0. *)
Definition compute_distance_matrix (self : t) : result matrix :=
  n ← number (dimension self);
  distance_matrix ← np_zeros n n;
  for_each (range 1 (n + 1)) (λ i,
    for_each (range 1 (n + 1)) (λ j distance_matrix,
      if decide (i ≠ j) then
        c1 ← getitem (node_coords self) i;
        c2 ← getitem (node_coords self) j;
        rounded ← vrp_rounded_distance c1 c2;
        np_set distance_matrix (i - 1) (j - 1) rounded
      else Ok distance_matrix))
    distance_matrix.

End with_builtins.

End VRPDataReader.

(** ** Sub-instances and TSP files (tsp_utils.py) *)

(** The dictionary built by [extract_tsp_subset] and by [load_tsp_instance];
    the last three keys are set by the former only. *)
Module TSPData.

Record t : Type := Make {
  name : string;
  dimension : Z;
  coordinates : gmap Z (Q * Q);
  distance_matrix : matrix;
  original_vrp_nodes : option (list Z);
  include_depot : option bool;
  source_vrp_file : option string
}.

End TSPData.

Module TSPDataExtractor.

(** The attributes set by [__init__]. *)
Record t : Type := Make {
  vrp_file : string;
  vrp_reader : VRPDataReader.t;
  vrp_data : VRPData.t;
  distance_matrix : matrix
}.

(** [__init__], on the lines of the file at [vrp_file]. *)
Definition __init__ `{Builtins} (vrp_file : string) (lines : list string)
  : result t :=
  '(reader, data) ← VRPDataReader.parse lines;
  distance_matrix ← VRPDataReader.compute_distance_matrix reader;
  Ok (Make vrp_file reader data distance_matrix).

(** The node ids chosen by [extract_tsp_subset], with the size after
    clamping. *)
Definition select_nodes (dimension num_nodes : Z) (include_depot : bool)
  : Z * list Z :=
  if include_depot then
    let num_nodes := if decide (num_nodes > dimension) then dimension
                     else num_nodes in
    (num_nodes, [1] ++ range 2 (num_nodes + 1))
  else
    let num_nodes := if decide (num_nodes > dimension - 1) then dimension - 1
                     else num_nodes in
    (num_nodes, range 2 (num_nodes + 2)).

(** [f"{name}_TSP{num_nodes}"] *)
Definition subset_name (name : option string) (num_nodes : Z) : string :=
  default "None" name +:+ "_TSP" +:+ pretty num_nodes.

(** [extract_tsp_subset]: the coordinates that exist are re-indexed, the
    matrix of the parent is sliced. *)
Definition extract_tsp_subset (self : t) (num_nodes : Z) (include_depot : bool)
  : result TSPData.t :=
  dimension ← number (VRPData.dimension (vrp_data self));
  let '(num_nodes, selected_nodes) :=
    select_nodes dimension num_nodes include_depot in
  let tsp_coords :=
    foldl (λ (tsp_coords : gmap Z (Q * Q)) '(i, node_id),
             match VRPData.node_coords (vrp_data self) !! node_id with
             | Some c => <[i := c]> tsp_coords
             | None => tsp_coords
             end)
          ∅ (enumerate selected_nodes) in
  let len := Z.of_nat (length selected_nodes) in
  tsp_distance_matrix ← np_zeros len len;
  tsp_distance_matrix ←
    for_each (enumerate selected_nodes) (λ '(i, node_i),
      for_each (enumerate selected_nodes) (λ '(j, node_j) tsp_distance_matrix,
        let vrp_i := node_i - 1 in
        let vrp_j := node_j - 1 in
        v ← np_get (distance_matrix self) vrp_i vrp_j;
        np_set tsp_distance_matrix i j v))
      tsp_distance_matrix;
  Ok {| TSPData.name := subset_name (VRPData.name (vrp_data self)) num_nodes;
        TSPData.dimension := len;
        TSPData.coordinates := tsp_coords;
        TSPData.distance_matrix := tsp_distance_matrix;
        TSPData.original_vrp_nodes := Some selected_nodes;
        TSPData.include_depot := Some include_depot;
        TSPData.source_vrp_file := Some (vrp_file self) |}.

End TSPDataExtractor.

(** The header and coordinate lines of [load_tsp_instance]: the loop over the
    lines, left at the first line that starts with [EOF]. *)
Fixpoint load_tsp_lines `{Builtins} (lines : list string) (name : string)
    (dimension : Z) (coordinates : gmap Z (Q * Q)) (reading_coords : bool)
  : result (string * Z * gmap Z (Q * Q)) :=
  match lines with
  | [] => Ok (name, dimension, coordinates)
  | line :: lines =>
      let line := strip line in
      if startswith "NAME" line then
        v ← list_item (split ":" line) 1;
        load_tsp_lines lines (strip v) dimension coordinates reading_coords
      else if startswith "DIMENSION" line then
        v ← list_item (split ":" line) 1;
        n ← int (strip v);
        load_tsp_lines lines name n coordinates reading_coords
      else if startswith "NODE_COORD_SECTION" line then
        load_tsp_lines lines name dimension coordinates true
      else if startswith "EOF" line then Ok (name, dimension, coordinates)
      else if reading_coords && negb (bool_decide (line = "")) then
        match split_whitespace line with
        | p0 :: p1 :: p2 :: _ =>
            id ← int p0;
            let node_id := id - 1 in
            x ← float p1;
            y ← float p2;
            load_tsp_lines lines name dimension (<[node_id := (x, y)]> coordinates)
                           reading_coords
        | _ => load_tsp_lines lines name dimension coordinates reading_coords
        end
      else load_tsp_lines lines name dimension coordinates reading_coords
  end.

(** The distance matrix of [load_tsp_instance] (lines 169 to 181). *)
Definition load_tsp_matrix `{Builtins} (n : Z) (coordinates : gmap Z (Q * Q))
  : result matrix :=
  distance_matrix ← np_zeros n n;
  for_each (range0 n) (λ i,
    for_each (range0 n) (λ j distance_matrix,
      if decide (i ≠ j) then
        coord_i ← getitem coordinates i;
        coord_j ← getitem coordinates j;
        rounded ← tsp_rounded_distance coord_i coord_j;
        np_set distance_matrix i j rounded
      else Ok distance_matrix))
    distance_matrix.

(** [load_tsp_instance], on the lines of the file. *)
Definition load_tsp_instance `{Builtins} (lines : list string)
  : result TSPData.t :=
  '(name, dimension, coordinates) ← load_tsp_lines lines "" 0 ∅ false;
  distance_matrix ← load_tsp_matrix dimension coordinates;
  Ok {| TSPData.name := name;
        TSPData.dimension := dimension;
        TSPData.coordinates := coordinates;
        TSPData.distance_matrix := distance_matrix;
        TSPData.original_vrp_nodes := None;
        TSPData.include_depot := None;
        TSPData.source_vrp_file := None |}.

(** ** Reading a tour off an assignment (tsp_mip.py) *)

Module MIPTSPSolver.

(** The attributes of the solver that the tour reconstruction reads. *)
Record t : Type := Make {
  distance_matrix : matrix;
  n : Z
}.

(** [__init__] *)
Definition __init__ (tsp_data : TSPData.t) : t :=
  Make (TSPData.distance_matrix tsp_data) (TSPData.dimension tsp_data).

(** The solution: the value the solver gave to each variable [x[(i, j)]]. *)
Abbreviation solution := (gmap (Z * Z) Q).

(** [(i, j) in x and pulp.value(x[(i, j)]) > 0.5] *)
Definition chosen (x : solution) (i j : Z) : bool :=
  match x !! (i, j) with
  | Some v => match (v ?= 1 # 2)%Q with Gt => true | _ => false end
  | None => false
  end.

(** The successor map [edges] built at the head of [_extract_tour]. *)
Definition solution_edges (self : t) (x : solution) : gmap Z Z :=
  foldl (λ edges i,
           foldl (λ (edges : gmap Z Z) j,
                    if decide (i ≠ j) then
                      if chosen x i j then <[i := j]> edges else edges
                    else edges)
                 edges (range0 (n self)))
        ∅ (range0 (n self)).

(** [min(unvisited)] on a set that is not empty. *)
Definition set_min (s : gset Z) : option Z :=
  match elements s with
  | [] => None
  | z :: zs => Some (foldr Z.min z zs)
  end.

(** The inner loop of [_handle_subtours]: [while current is not None and
    current in unvisited].  Each turn removes a node from [unvisited], whose
    size bounds the number of turns: [fuel] is that bound. *)
Fixpoint follow_cycle (edges : gmap Z Z) (start : Z) (fuel : nat)
    (current : option Z) (subtour : list Z) (unvisited : gset Z)
  : list Z * gset Z :=
  match fuel, current with
  | S fuel, Some c =>
      if decide (c ∈ unvisited) then
        let subtour := subtour ++ [c] in
        let unvisited := unvisited ∖ {[c]} in
        let current := edges !! c in
        if decide (current = Some start) then (subtour, unvisited)
        else match current with
             | Some c' =>
                 if decide (c' ∈ unvisited)
                 then follow_cycle edges start fuel current subtour unvisited
                 else (subtour, unvisited)
             | None => (subtour, unvisited)
             end
      else (subtour, unvisited)
  | _, _ => (subtour, unvisited)
  end.

(** The outer loop: [while unvisited].  Each turn removes its start node. *)
Fixpoint find_subtours (edges : gmap Z Z) (fuel : nat) (unvisited : gset Z)
    (subtours : list (list Z)) : list (list Z) :=
  match fuel with
  | O => subtours
  | S fuel =>
      match set_min unvisited with
      | None => subtours
      | Some least =>
          let start := if decide (0 ∈ unvisited) then 0 else least in
          let '(subtour, unvisited) :=
            follow_cycle edges start (size unvisited) (Some start) [] unvisited in
          find_subtours edges fuel unvisited
            (if decide (1 < length subtour)%nat then subtours ++ [subtour]
             else subtours)
      end
  end.

(** [max(subtours, key=len)]: the first of the longest. *)
Definition longest (first : list Z) (others : list (list Z)) : list Z :=
  foldl (λ best st, if decide (length best < length st)%nat then st else best)
        first others.

(** [xs.index(v)] for a [v] that occurs in [xs]. *)
Definition index_of (v : Z) (xs : list Z) : nat :=
  match list_find (λ x, x = v) xs with
  | Some (i, _) => i
  | None => 0
  end.

(** [_handle_subtours]: the subtours are collected, then one is chosen. *)
Definition _handle_subtours (self : t) (edges : gmap Z Z) : list Z :=
  let unvisited : gset Z := list_to_set (range0 (n self)) in
  let subtours := find_subtours edges (size unvisited) unvisited [] in
  let depot_subtour := list_find (λ subtour, 0 ∈ subtour) subtours in
  match depot_subtour with
  | Some (_, depot_subtour) =>
      let depot_idx := index_of 0 depot_subtour in
      let result := drop depot_idx depot_subtour ++ take depot_idx depot_subtour in
      result ++ [0]
  | None =>
      match subtours with
      | first :: others =>
          let largest := longest first others in
          largest ++ [default 0 (head largest)]
      | [] => []
      end
  end.

(** The loop [for step in range(self.n)] of [_extract_tour], with its two
    [break]s. *)
Fixpoint follow_path (edges : gmap Z Z) (steps : list Z) (current : Z)
    (tour : list Z) (visited : gset Z) : list Z * gset Z :=
  match steps with
  | [] => (tour, visited)
  | _ :: steps =>
      if decide (current ∈ visited) then (tour, visited)
      else
        let tour := tour ++ [current] in
        let visited := visited ∪ {[current]} in
        match edges !! current with
        | None => (tour, visited)
        | Some next => follow_path edges steps next tour visited
        end
  end.

(** [_extract_tour] *)
Definition _extract_tour (self : t) (x : solution) : list Z :=
  let edges := solution_edges self x in
  if decide (edges !! 0 = None) then []
  else
    let '(tour, visited) := follow_path edges (range0 (n self)) 0 [] ∅ in
    if decide (Z.of_nat (length tour) ≠ n self) then _handle_subtours self edges
    else tour ++ [0].

End MIPTSPSolver.

(** ** Plain decimal text

    An instance of the built-in conversions on the text the examples use: an
    optional sign, digits and, for [float], an optional fraction. *)

(** The value of a run of decimal digits, read after [acc]. *)
Definition digit_value (c : ascii) : Z := Z.of_N (N_of_ascii c) - 48.

Fixpoint digits_value (acc : Z) (s : string) : option Z :=
  match s with
  | EmptyString => Some acc
  | String c s' =>
      if isdecimal c then digits_value (10 * acc + digit_value c) s' else None
  end.

(** Digits, one at least; digits with a sign. *)
Definition unsigned_int (s : string) : option Z :=
  match s with
  | EmptyString => None
  | _ => digits_value 0 s
  end.

Definition decimal_int (s : string) : option Z :=
  match s with
  | String "-" s' => Z.opp <$> unsigned_int s'
  | _ => unsigned_int s
  end.

(** Digits with an optional fraction, and with a sign. *)
Definition unsigned_float (s : string) : option Q :=
  match split_once "." s with
  | [whole] => inject_Z <$> unsigned_int whole
  | [whole; fraction] =>
      w ← unsigned_int whole;
      f ← unsigned_int fraction;
      Some (inject_Z w + inject_Z f / inject_Z (10 ^ Z.of_nat (String.length fraction)))%Q
  | _ => None
  end.

Definition decimal_float (s : string) : option Q :=
  match s with
  | String "-" s' => Qopp <$> unsigned_float s'
  | _ => unsigned_float s
  end.

(** Float arithmetic in the same instance, on floats taken as the rationals
    they denote.  The largest float is [2^1024 - 2^971]; a value has no float
    from half a unit in the last place above it on. *)
Definition float_overflows (q : Q) : bool :=
  Qle_bool (inject_Z (2 ^ 1024 - 2 ^ 970)) q.

(** The decimal context holds 28 digits: [quantize] raises on a distance that
    rounds to an integer of more. *)
Definition quantize_raises (c1 c2 : Q * Q) : option error :=
  let '(x1, y1) := c1 in
  let '(x2, y2) := c2 in
  if float_overflows ((x2 - x1) ^ 2) || float_overflows ((y2 - y1) ^ 2)
  then Some OverflowError
  else if bool_decide (10 ^ 28 ≤ round_half_up (vrp_distance c1 c2))
  then Some InvalidOperation
  else None.

(** [round] raises on the infinite distance that a sum of squares without
    float leaves. *)
Definition round_raises (coord_i coord_j : Q * Q) : option error :=
  if float_overflows ((coord_i.1 - coord_j.1) ^ 2)
     || float_overflows ((coord_i.2 - coord_j.2) ^ 2)
     || float_overflows (radicand (tsp_distance coord_i coord_j))
  then Some OverflowError
  else None.

#[export] Instance decimal_builtins : Builtins :=
  {| py_int := decimal_int;
     py_float := decimal_float;
     py_quantize_raises := quantize_raises;
     py_round_raises := round_raises |}.

(** ** The double loop of the two distance matrices

    [VRPDataReader.compute_distance_matrix] and [load_tsp_matrix] run the same
    two nested loops; they differ in the node ids, in the index a node id is
    stored at and in the rounding.  The loop with these three as parameters
    serves to state what both have in common. *)
Definition fill_distances (ids : list Z) (index : Z → Z)
    (coords : gmap Z (Q * Q)) (rounded : Q * Q → Q * Q → result Z)
    (m : matrix)
  : result matrix :=
  for_each ids (λ i,
    for_each ids (λ j m,
      if decide (i ≠ j) then
        c1 ← getitem coords i;
        c2 ← getitem coords j;
        d ← rounded c1 c2;
        np_set m (index i) (index j) d
      else Ok m))
    m.

(** The invariant of the double loop on the cells [done] so far: the diagonal
    is zero and a cell that was written holds its rounded distance. *)
Definition filled (a n : Z) (coords : gmap Z (Q * Q))
    (rounded : Q * Q → Q * Q → result Z) (done : Z → Z → Prop) (m : matrix)
  : Prop :=
  square n m
  ∧ ∀ i j, a ≤ i < a + n → a ≤ j < a + n →
      (i = j → entry m (i - a) (j - a) = Some 0)
      ∧ (done i j → i ≠ j →
         ∃ c1 c2 d, coords !! i = Some c1 ∧ coords !! j = Some c2
                    ∧ rounded c1 c2 = Ok d
                    ∧ entry m (i - a) (j - a) = Some d).

(** The two places that build a distance matrix from coordinates: [m] is the
    matrix built for an instance of [n] nodes. *)
Inductive builds_distances `{Builtins} (n : Z) (m : matrix) : Prop :=
  | by_reader (self : VRPDataReader.t) :
      VRPDataReader.dimension self = Some n →
      VRPDataReader.compute_distance_matrix self = Ok m →
      builds_distances n m
  | by_loader (coordinates : gmap Z (Q * Q)) :
      load_tsp_matrix n coordinates = Ok m →
      builds_distances n m.

(** A reader whose file gave it a dimension and coordinates only. *)
Definition reader_of (dimension : Z) (node_coords : list (Z * (Q * Q)))
  : VRPDataReader.t :=
  {| VRPDataReader.name := None;
     VRPDataReader.comment := None;
     VRPDataReader.dimension := Some dimension;
     VRPDataReader.capacity := None;
     VRPDataReader.edge_weight_type := None;
     VRPDataReader.node_coords := list_to_map node_coords;
     VRPDataReader.demands := ∅ |}.

(** A TSP file of two nodes that lie 2.5 apart. *)
Definition tie_file : list string :=
  ["NAME : tie"; "TYPE : TSP"; "DIMENSION : 2"; "EDGE_WEIGHT_TYPE : EUC_2D";
   "NODE_COORD_SECTION"; "1 0 0"; "2 2.5 0"; "EOF"].

(** ** Notions used to state the properties *)

(** Every node index below the dimension has a coordinate entry. *)
Definition has_all_coordinates (data : TSPData.t) : Prop :=
  ∀ i, 0 ≤ i < TSPData.dimension data →
       is_Some (TSPData.coordinates data !! i).

(** The same for the dictionary of the reader, whose node ids run from 1. *)
Definition parsed_has_all_coordinates (data : VRPData.t) : Prop :=
  ∀ n i, VRPData.dimension data = Some n → 0 ≤ i < n →
         is_Some (VRPData.node_coords data !! (i + 1)).

(** The distance from node 1 to node [j], as the reader computes and rounds
    it (utils.py, lines 96 and 98), raises [e]. *)
Definition distance_raises `{Builtins} (node_coords : gmap Z (Q * Q)) (j : Z)
    (e : error) : Prop :=
  ∃ c1 c2, node_coords !! 1 = Some c1 ∧ node_coords !! j = Some c2
           ∧ py_quantize_raises c1 c2 = Some e.

(** The node ids of an instance of [dimension] nodes other than the depot,
    which is node 1, in ascending order. *)
Definition non_depot_ids (dimension : Z) : list Z := range 2 (dimension + 1).

(** The first [k] elements of a list, none when [k] is not positive. *)
Definition first_n {A : Type} (k : Z) (xs : list A) : list A :=
  take (Z.to_nat k) xs.

(** The subset of size [k] as the specification words it. *)
Definition specified_subset (dimension k : Z) (include_depot : bool) : list Z :=
  if include_depot then 1 :: first_n (k - 1) (non_depot_ids dimension)
  else first_n k (non_depot_ids dimension).

(** Files used as examples. *)
Definition empty_vrp_file : list string :=
  ["NAME : none"; "DIMENSION : 0"; "NODE_COORD_SECTION"; "EOF"].

Definition single_vrp_file : list string :=
  ["NAME : single"; "DIMENSION : 1"; "NODE_COORD_SECTION"; "EOF"].

Definition square_vrp_file : list string :=
  ["NAME : square";
   "COMMENT : (four corners, No of trucks: 2, Optimal value: 14)";
   "TYPE : CVRP"; "DIMENSION : 4"; "EDGE_WEIGHT_TYPE : EUC_2D"; "CAPACITY : 10";
   "NODE_COORD_SECTION"; "1 0 0"; "2 0 3"; "3 4 3"; "4 4 0";
   "DEMAND_SECTION"; "1 0"; "2 1"; "3 1"; "4 1"; "EOF"].

Definition gap_vrp_file : list string :=
  ["NAME : gap"; "DIMENSION : 3"; "NODE_COORD_SECTION"; "1 0 0"; "3 4 3"; "EOF"].

(** Node 2 lies 10^28 from node 1, and node 3 has no coordinate. *)
Definition far_vrp_file : list string :=
  ["NAME : far"; "DIMENSION : 3"; "NODE_COORD_SECTION"; "1 0 0";
   "2 10000000000000000000000000000 0"; "EOF"].

Definition single_tsp_file : list string :=
  ["NAME : single"; "TYPE : TSP"; "DIMENSION : 1"; "NODE_COORD_SECTION"; "EOF"].

(** The edge from [i] to [j] is used by the solution [x] of an instance of [n]
    nodes: the assignment has no entry on the diagonal. *)
Definition uses (n : Z) (x : MIPTSPSolver.solution) (i j : Z) : Prop :=
  0 ≤ j < n ∧ i ≠ j ∧ MIPTSPSolver.chosen x i j = true.

(** In the solution [x] the edges used lead from node 0 along [cycle] and
    back to node 0: [cycle] begins with node 0, holds distinct nodes, and the
    one edge used from each of its nodes leads to the next node of [cycle],
    the first one after the last. *)
Definition depot_cycle (n : Z) (x : MIPTSPSolver.solution) (cycle : list Z)
  : Prop :=
  NoDup cycle
  ∧ head cycle = Some 0
  ∧ (∀ i, i ∈ cycle → 0 ≤ i < n)
  ∧ ∀ (k : nat) (i j : Z),
      cycle !! k = Some i → cycle !! (S k `mod` length cycle)%nat = Some j →
      uses n x i j ∧ ∀ j', uses n x i j' → j' = j.

(** [x] encodes the single cycle that visits every node, in the order
    [cycle], from node 0 and back to it. *)
Definition encodes_cycle (n : Z) (x : MIPTSPSolver.solution) (cycle : list Z)
  : Prop :=
  cycle ≡ₚ range0 n ∧ depot_cycle n x cycle.

(** The subtours that [_handle_subtours] collects. *)
Definition subtours_found (self : MIPTSPSolver.t) (edges : gmap Z Z)
  : list (list Z) :=
  let unvisited : gset Z := list_to_set (range0 (MIPTSPSolver.n self)) in
  MIPTSPSolver.find_subtours edges (size unvisited) unvisited [].

(** [walk] follows the successor map from node to node. *)
Definition follows (edges : gmap Z Z) (walk : list Z) : Prop :=
  ∀ (k : nat) (a b : Z),
    walk !! k = Some a → walk !! S k = Some b → edges !! a = Some b.

(** The assignment 0 → 1 → 2 → 3 → 0 on four nodes, and the one made of the
    two cycles 0 → 1 → 0 and 2 → 3 → 2: a value for every ordered pair of
    distinct nodes. *)
Definition assignment (n : Z) (successor : list (Z * Z))
  : MIPTSPSolver.solution :=
  list_to_map
    (i ← range0 n; j ← range0 n;
     if decide (i = j) then []
     else [((i, j), if decide ((i, j) ∈ successor) then 1%Q else 0%Q)]).

Definition square_tour : MIPTSPSolver.solution :=
  assignment 4 [(0, 1); (1, 2); (2, 3); (3, 0)].

Definition two_cycles : MIPTSPSolver.solution :=
  assignment 4 [(0, 1); (1, 0); (2, 3); (3, 2)].

(** The assignment 0 → 1 → 2 → 1 with 3 → 0 on four nodes, whose edges from
    node 0 run into the cycle 1 → 2 → 1 and do not come back; and the single
    edge 0 → 1 on three nodes. *)
Definition tail_walk : MIPTSPSolver.solution :=
  assignment 4 [(0, 1); (1, 2); (2, 1); (3, 0)].

Definition single_edge : MIPTSPSolver.solution := assignment 3 [(0, 1)].

(** [cycle] is a cycle of the successor map: distinct nodes, each followed
    by its successor, the first one after the last. *)
Definition cycle_of (edges : gmap Z Z) (cycle : list Z) : Prop :=
  cycle ≠ [] ∧ NoDup cycle
  ∧ ∀ (k : nat) (i j : Z),
      cycle !! k = Some i → cycle !! (S k `mod` length cycle)%nat = Some j →
      edges !! i = Some j.

(** The TSP file of the four corners (0,0), (0,3), (4,3), (4,0). *)
Definition square_tsp_file : list string :=
  ["NAME : square"; "TYPE : TSP"; "DIMENSION : 4"; "EDGE_WEIGHT_TYPE : EUC_2D";
   "NODE_COORD_SECTION"; "1 0 0"; "2 0 3"; "3 4 3"; "4 4 0"; "EOF"].

(** Every character of [s] satisfies [p]. *)
Fixpoint all_of (p : ascii → bool) (s : string) : bool :=
  match s with
  | EmptyString => true
  | String c s' => p c && all_of p s'
  end.

(** [s] contains a token that matches [literal \s* (class+)]: the literal,
    white space or none, and one character of the class at least. *)
Definition has_token (literal : string) (class : ascii → bool) (s : string)
  : Prop :=
  ∃ before spaces group after,
    s = before +:+ literal +:+ spaces +:+ group +:+ after
    ∧ all_of isspace spaces = true
    ∧ group ≠ EmptyString
    ∧ all_of class group = true.

From Stdlib Require Lqa.

(** ** The model handed to the solver (tsp_mip.py, [MIPTSPSolver.solve]) *)

(** The part of PuLP that [solve] uses.  A variable is known to a solver by
    its name; an affine expression is the list of its terms; a problem is an
    objective and the constraints added to it. *)
Module pulp.

Inductive category : Type := Continuous | Integer | Binary.

Record LpVariable : Type := MakeVariable {
  name : string;
  lowBound : option Q;
  upBound : option Q;
  cat : category
}.

(** [LpVariable(name, lowBound, upBound, cat)]: a binary variable is an
    integer variable between 0 and 1. *)
Definition LpVariable_ (name : string) (lowBound upBound : option Q)
    (cat : category) : LpVariable :=
  match cat with
  | Binary => MakeVariable name (Some 0%Q) (Some 1%Q) Integer
  | _ => MakeVariable name lowBound upBound cat
  end.

Abbreviation LpAffineExpression := (list (Q * LpVariable)).

Inductive sense : Type := LE | EQ | GE.

Record LpConstraint : Type := MakeConstraint {
  expression : LpAffineExpression;
  relation : sense;
  bound : Q
}.

Record LpProblem : Type := MakeProblem {
  objective : LpAffineExpression;
  constraints : list LpConstraint
}.

(** [pulp.value(e)] once the solver has given the variable named [s] the
    value [v s]. *)
Definition value (v : string → Q) (e : LpAffineExpression) : Q :=
  foldr (λ '(c, var) total, c * v (name var) + total)%Q 0%Q e.

(** The assignment [v] satisfies a constraint, and keeps a variable within
    its bounds and its category. *)
Definition holds (v : string → Q) (c : LpConstraint) : Prop :=
  match relation c with
  | LE => (value v (expression c) <= bound c)%Q
  | EQ => (value v (expression c) == bound c)%Q
  | GE => (bound c <= value v (expression c))%Q
  end.

Definition within (v : string → Q) (var : LpVariable) : Prop :=
  (∀ low, lowBound var = Some low → (low <= v (name var))%Q)
  ∧ (∀ up, upBound var = Some up → (v (name var) <= up)%Q)
  ∧ (cat var = Integer → ∃ z : Z, (v (name var) == inject_Z z)%Q).

(** The variables of a problem are those of its objective and of its
    constraints. *)
Definition variables (p : LpProblem) : list LpVariable :=
  (snd <$> objective p) ++ (c ← constraints p; snd <$> expression c).

(** [v] is a feasible assignment of the problem. *)
Definition feasible (v : string → Q) (p : LpProblem) : Prop :=
  Forall (holds v) (constraints p) ∧ Forall (within v) (variables p).

End pulp.

(** The model that [solve] builds (lines 47 to 81), and what it makes of the
    assignment a solver stops with (lines 124 and 125).  The solvers
    themselves are outside the embedding. *)
Module solve.

Section model.
Context (self : MIPTSPSolver.t).

Local Abbreviation n := (MIPTSPSolver.n self).

(** [pulp.LpVariable(f"x_{i}_{j}", cat='Binary')] and
    [pulp.LpVariable(f"u_{i}", lowBound=1, upBound=self.n-1,
    cat='Continuous')]. *)
Definition x_variable (i j : Z) : pulp.LpVariable :=
  pulp.LpVariable_ ("x_" +:+ pretty i +:+ "_" +:+ pretty j) None None
    pulp.Binary.

Definition u_variable (i : Z) : pulp.LpVariable :=
  pulp.LpVariable_ ("u_" +:+ pretty i) (Some 1%Q) (Some (inject_Z (n - 1)))
    pulp.Continuous.

(** The dictionaries [x] and [u]. *)
Definition x : gmap (Z * Z) pulp.LpVariable :=
  foldl (λ x i,
           foldl (λ (x : gmap (Z * Z) pulp.LpVariable) j,
                    if decide (i ≠ j) then <[(i, j) := x_variable i j]> x
                    else x)
                 x (range0 n))
        ∅ (range0 n).

Definition u : gmap Z pulp.LpVariable :=
  foldl (λ (u : gmap Z pulp.LpVariable) i, <[i := u_variable i]> u)
        ∅ (range 1 n).

(** The objective: [lpSum(self.distance_matrix[i][j] * x[(i, j)] for i in
    range(self.n) for j in range(self.n) if i != j)].  The entry [x[(i, j)]]
    is [x_variable i j] for the pairs that the sums and the loops below go
    through, which are those [x] was filled for. *)
Definition objective : result pulp.LpAffineExpression :=
  for_each (range0 n) (λ i,
    for_each (range0 n) (λ j (terms : pulp.LpAffineExpression),
      if decide (i ≠ j) then
        d ← np_get (MIPTSPSolver.distance_matrix self) i j;
        Ok (terms ++ [(inject_Z d, x_variable i j)])
      else Ok terms))
    [].

(** Constraint 1, [lpSum(x[(i, j)] for j in range(self.n) if i != j) == 1]:
    city [i] is left once. *)
Definition left_once (i : Z) : pulp.LpConstraint :=
  pulp.MakeConstraint
    ((λ j, (1%Q, x_variable i j)) <$> filter (λ j, i ≠ j) (range0 n))
    pulp.EQ 1%Q.

(** Constraint 2, [lpSum(x[(i, j)] for i in range(self.n) if i != j) == 1]:
    city [j] is entered once. *)
Definition entered_once (j : Z) : pulp.LpConstraint :=
  pulp.MakeConstraint
    ((λ i, (1%Q, x_variable i j)) <$> filter (λ i, i ≠ j) (range0 n))
    pulp.EQ 1%Q.

(** Constraint 3, [u[i] - u[j] + self.n * x[(i, j)] <= self.n - 1]. *)
Definition ordered (i j : Z) : pulp.LpConstraint :=
  pulp.MakeConstraint
    [(1%Q, u_variable i); ((-1)%Q, u_variable j);
     (inject_Z n, x_variable i j)]
    pulp.LE (inject_Z (n - 1)).

(** The constraints in the order they are added. *)
Definition constraints : list pulp.LpConstraint :=
  (left_once <$> range0 n) ++ (entered_once <$> range0 n)
  ++ (i ← range 1 n; j ← range 1 n;
      if decide (i ≠ j) then [ordered i j] else []).

Definition model : result pulp.LpProblem :=
  objective ← objective;
  Ok (pulp.MakeProblem objective constraints).

(** The values of the entries of [x], as [_extract_tour] reads them with
    [pulp.value]. *)
Definition values (v : string → Q) : MIPTSPSolver.solution :=
  (λ var, v (pulp.name var)) <$> x.

(** [total_distance] and [tour] of [solve] for the assignment [v]. *)
Definition total_distance (v : string → Q) : result Q :=
  objective ← objective; Ok (pulp.value v objective).

Definition tour (v : string → Q) : list Z :=
  MIPTSPSolver._extract_tour self (values v).

End model.

End solve.

(** The entry [solution_quality] of the dictionary that [solve_tsp_with_mip]
    returns for a tour that is not empty (lines 291 to 295); [feasible] is
    [True] there. *)
Module solution_quality.

Record t : Type := Make {
  feasible : bool;
  all_cities_visited : bool;
  tour_is_cycle : bool
}.

End solution_quality.

Definition solution_quality (tsp_data : TSPData.t) (tour : list Z)
  : solution_quality.t :=
  {| solution_quality.feasible := true;
     solution_quality.all_cities_visited :=
       match tour with
       | [] => false
       | _ =>
           bool_decide
             (Z.of_nat (size (list_to_set (take (length tour - 1) tour)
                              : gset Z))
              = TSPData.dimension tsp_data)
       end;
     solution_quality.tour_is_cycle :=
       if decide (1 < length tour)%nat
       then bool_decide (head tour = last tour) else false |}.

(** ** Checking a tour (debug_mip_solutions.py) *)

Module debug_mip_solutions.

(** [float('inf')], or a total of matrix entries. *)
Inductive distance : Type :=
  | Finite (d : Z)
  | inf.

(** The loop of [calculate_tour_distance] over [range(len(tour) - 1)]; the
    [return] inside it ends it. *)
Fixpoint add_distances (distance_matrix : matrix) (tour : list Z)
    (indices : list Z) (total_distance : Z) : result distance :=
  match indices with
  | [] => Ok (Finite total_distance)
  | i :: indices =>
      from_node ← list_item tour (Z.to_nat i);
      to_node ← list_item tour (Z.to_nat (i + 1));
      if decide (from_node < Z.of_nat (length distance_matrix)
                 ∧ to_node < Z.of_nat (length distance_matrix)) then
        d ← np_get distance_matrix from_node to_node;
        add_distances distance_matrix tour indices (total_distance + d)
      else Ok inf
  end.

(** [calculate_tour_distance] *)
Definition calculate_tour_distance (tsp_data : TSPData.t) (tour : list Z)
  : result distance :=
  if decide (tour = [] ∨ (length tour < 3)%nat) then Ok inf
  else
    add_distances (TSPData.distance_matrix tsp_data) tour
      (range0 (Z.of_nat (length tour) - 1)) 0.

(** The message of [validate_tour], as the values its text is made of. *)
Inductive message : Type :=
  | Empty_tour
  | Tour_too_short (len : nat)
  | Not_closed (first last : option Z)
  | Missing_and_extra (missing extra : gset Z)
  | Valid_tour.

(** [validate_tour] *)
Definition validate_tour (tsp_data : TSPData.t) (tour : list Z)
  : bool * message :=
  let n := TSPData.dimension tsp_data in
  match tour with
  | [] => (false, Empty_tour)
  | _ =>
      if decide (length tour < 2)%nat then (false, Tour_too_short (length tour))
      else if decide (head tour ≠ last tour)
      then (false, Not_closed (head tour) (last tour))
      else
        let visited_nodes : gset Z :=
          list_to_set (take (length tour - 1) tour) in
        let expected_nodes : gset Z := list_to_set (range0 n) in
        if decide (visited_nodes ≠ expected_nodes)
        then (false, Missing_and_extra (expected_nodes ∖ visited_nodes)
                                       (visited_nodes ∖ expected_nodes))
        else (true, Valid_tour)
  end.

End debug_mip_solutions.

(** The total of the matrix entries along the consecutive pairs of a
    tour. *)
Fixpoint edge_total (m : matrix) (tour : list Z) : Z :=
  match tour with
  | a :: (b :: _) as rest => default 0 (entry m a b) + edge_total m rest
  | _ => 0
  end.

(** The assignment that encodes the round trip [cycle]: 1 for the variable
    of each of its edges, the place of a node in [cycle] for its order
    variable, 0 for every other name. *)
Definition cycle_assignment (self : MIPTSPSolver.t) (cycle : list Z)
  : string → Q :=
  let edges :=
    imap (λ k i,
            (pulp.name
               (solve.x_variable i
                  (default 0 (cycle !! (S k `mod` length cycle)%nat))),
             1%Q))
         cycle in
  let places :=
    imap (λ k i, (pulp.name (solve.u_variable self i), inject_Z (Z.of_nat k)))
         cycle in
  λ s, default 0%Q ((list_to_map (edges ++ places) : gmap string Q) !! s).

(** The instance of the four corners (0,0), (0,3), (4,3), (4,0), as
    [load_tsp_instance] returns it. *)
Definition square_instance : TSPData.t :=
  {| TSPData.name := "square";
     TSPData.dimension := 4;
     TSPData.coordinates :=
       list_to_map [(0, (0, 0)%Q); (1, (0, 3)%Q); (2, (4, 3)%Q);
                    (3, (4, 0)%Q)];
     TSPData.distance_matrix :=
       [[0; 3; 5; 4]; [3; 0; 4; 5]; [5; 4; 0; 3]; [4; 5; 3; 0]];
     TSPData.original_vrp_nodes := None;
     TSPData.include_depot := None;
     TSPData.source_vrp_file := None |}.

(** * Part II: properties *)

(** ** Exceptions and loops *)

Lemma bind_Ok {A B : Type} (r : result A) (k : A → result B) (b : B) :
  r ≫= k = Ok b ↔ ∃ a, r = Ok a ∧ k a = Ok b.
Proof.
  destruct r as [a|e]; simpl.
  - split; [eauto|]. by intros (a' & [= <-] & ?).
  - split; [done|]. by intros (? & ? & ?).
Qed.

Lemma for_each_app {A S : Type} (xs ys : list A) (body : A → S → result S)
    (s : S) :
  for_each (xs ++ ys) body s = for_each xs body s ≫= for_each ys body.
Proof.
  revert s. induction xs as [|x xs IH]; intros s; simpl; [done|].
  destruct (body x s) as [s'|e]; simpl; [apply IH|done].
Qed.

Lemma elem_of_range (a b x : Z) : x ∈ range a b ↔ a ≤ x < b.
Proof. unfold range. rewrite elem_of_seqZ. lia. Qed.

Lemma range_cons (a b : Z) : a < b → range a b = a :: range (a + 1) b.
Proof.
  intros Hab. unfold range.
  replace (b - a) with (Z.succ (b - (a + 1))) by lia.
  rewrite seqZ_cons by lia. f_equal. f_equal; lia.
Qed.

Lemma range_nil (a b : Z) : b ≤ a → range a b = [].
Proof. intros Hab. unfold range. apply seqZ_nil. lia. Qed.

Lemma range_split (a k b : Z) :
  a ≤ k ≤ b → range a b = range a k ++ range k b.
Proof.
  intros Hk. unfold range.
  replace (b - a) with ((k - a) + (b - k)) by lia.
  rewrite seqZ_app by lia. do 2 f_equal. lia.
Qed.

Lemma length_range (a b : Z) : length (range a b) = Z.to_nat (b - a).
Proof. unfold range. apply length_seqZ. Qed.

Lemma NoDup_range (a b : Z) : NoDup (range a b).
Proof. apply NoDup_seqZ. Qed.

(** ** Rounding *)

Lemma round_half_up_spec (s : Q) :
  (0 <= s)%Q → is_half_up s (round_half_up (np_sqrt s)).
Proof.
  destruct s as [p q]. unfold is_half_up, round_half_up, Qle, Qlt. simpl.
  intros Hp. assert (0 ≤ p) by lia.
  set (t := Z.sqrt (4 * p * Z.pos q)).
  set (r := (t + Z.pos q) / (2 * Z.pos q)).
  assert (Ht : t * t ≤ 4 * p * Z.pos q < (t + 1) * (t + 1)).
  { pose proof (Z.sqrt_spec (4 * p * Z.pos q)) as Hs.
    unfold Z.succ in Hs. apply Hs. nia. }
  assert (Ht0 : 0 ≤ t) by apply Z.sqrt_nonneg.
  assert (Hr : 2 * Z.pos q * r ≤ t + Z.pos q < 2 * Z.pos q * r + 2 * Z.pos q).
  { pose proof (Z.div_mod (t + Z.pos q) (2 * Z.pos q)) as Hd.
    pose proof (Z.mod_pos_bound (t + Z.pos q) (2 * Z.pos q)) as Hm.
    fold r in Hd. lia. }
  assert (Hr0 : 0 ≤ r) by (apply Z.div_pos; lia).
  split; [exact Hr0|]. split.
  - destruct (decide (r = 0)) as [?|Hne]; [by left|right].
    assert (Hlo : (2 * r - 1) * Z.pos q ≤ t) by lia.
    assert (((2 * r - 1) * Z.pos q) * ((2 * r - 1) * Z.pos q) ≤ t * t)
      by (apply Z.mul_le_mono_nonneg; nia).
    rewrite Z.mul_1_r. nia.
  - assert (Hhi : t + 1 ≤ (2 * r + 1) * Z.pos q) by lia.
    assert ((t + 1) * (t + 1) ≤ ((2 * r + 1) * Z.pos q) * ((2 * r + 1) * Z.pos q))
      by (apply Z.mul_le_mono_nonneg; nia).
    rewrite Z.mul_1_r. nia.
Qed.

Lemma is_half_up_le (s : Q) (r1 r2 : Z) :
  is_half_up s r1 → is_half_up s r2 → r2 ≤ r1.
Proof.
  destruct s as [p q]. unfold is_half_up, Qle, Qlt. simpl.
  rewrite !Z.mul_1_r. intros (H1 & _ & Hhi) (H2 & Hlo & _).
  destruct (decide (r2 ≤ r1)) as [|Hgt]; [done|exfalso].
  destruct Hlo as [->|Hlo]; [lia|].
  assert (Hq : 0 < Z.pos q) by lia.
  assert ((2 * r1 + 1) ^ 2 ≤ (2 * r2 - 1) ^ 2)
    by (apply Z.pow_le_mono_l; lia).
  nia.
Qed.

Lemma is_half_up_unique (s : Q) (r1 r2 : Z) :
  is_half_up s r1 → is_half_up s r2 → r1 = r2.
Proof.
  intros H1 H2. pose proof (is_half_up_le _ _ _ H1 H2).
  pose proof (is_half_up_le _ _ _ H2 H1). lia.
Qed.

#[export] Instance is_half_up_proper : Proper (Qeq ==> eq ==> iff) is_half_up.
Proof.
  intros s s' Hs r ? <-. unfold is_half_up. by rewrite Hs.
Qed.

Lemma round_half_up_Qeq (s s' : Q) :
  (0 <= s)%Q → (s == s')%Q →
  round_half_up (np_sqrt s) = round_half_up (np_sqrt s').
Proof.
  intros Hs Heq. apply (is_half_up_unique s).
  - by apply round_half_up_spec.
  - rewrite Heq. apply round_half_up_spec. by rewrite <- Heq.
Qed.

Lemma py_round_Qeq (s s' : Q) :
  (0 <= s)%Q → (s == s')%Q → py_round (np_sqrt s) = py_round (np_sqrt s').
Proof.
  intros Hs Heq. unfold py_round, is_tie_below.
  rewrite <- (round_half_up_Qeq s s' Hs Heq). simpl.
  set (r := round_half_up (np_sqrt s)).
  assert (Qeq_bool (4 * s) (inject_Z ((2 * r - 1) ^ 2))
          = Qeq_bool (4 * s') (inject_Z ((2 * r - 1) ^ 2))) as ->; [|done].
  apply eq_true_iff_eq. rewrite !Qeq_bool_iff. by rewrite Heq.
Qed.

(** [round] is rounding to the nearest integer, a tie to the even one. *)
Lemma py_round_spec (s : Q) :
  (0 <= s)%Q → is_half_even s (py_round (np_sqrt s)).
Proof.
  intros Hs. destruct (round_half_up_spec s Hs) as (Hr & Hlo & Hhi).
  unfold py_round, is_tie_below. simpl.
  set (r := round_half_up (np_sqrt s)) in *.
  destruct (Qeq_bool (4 * s) (inject_Z ((2 * r - 1) ^ 2))) eqn:Htie;
    [destruct (Z.odd r) eqn:Hodd|]; simpl.
  - apply Qeq_bool_iff in Htie.
    assert (Hr1 : 1 ≤ r) by (destruct (decide (r = 0)) as [->|]; [done|lia]).
    split; [lia|]. split; [|split].
    + destruct (decide (r - 1 = 0)) as [?|Hne]; [by left|right].
      rewrite Htie. rewrite <- Zle_Qle. apply Z.pow_le_mono_l. lia.
    + rewrite Htie. replace (2 * (r - 1) + 1) with (2 * r - 1) by lia.
      apply Qle_refl.
    + rewrite Z.odd_sub, Hodd. done.
  - split; [done|]. split; [done|]. split; [by apply Qlt_le_weak|].
    by rewrite Hodd.
  - split; [done|]. split; [done|]. split; [by apply Qlt_le_weak|].
    intros _. split.
    + intros Heq. apply Qeq_bool_iff in Heq. congruence.
    + intros Heq. rewrite Heq in Hhi. by apply Qlt_irrefl in Hhi.
Qed.

(** *** The two rules on the real line

    The statements on radicands above are the usual ones on the real square
    root. *)

Lemma Q2R_inject_Z (z : Z) : Q2R (inject_Z z) = IZR z.
Proof. unfold Q2R. simpl. lra. Qed.

Lemma square_le_inv (a b : R) : (0 <= a → 0 <= b → a * a <= b * b → a <= b)%R.
Proof.
  intros Ha Hb Hab. destruct (Rle_lt_dec a b) as [|Hlt]; [done|].
  assert (0 < (a - b) * (a + b))%R by (apply Rmult_lt_0_compat; lra). lra.
Qed.

Lemma square_lt_inv (a b : R) : (0 <= a → 0 <= b → a * a < b * b → a < b)%R.
Proof.
  intros Ha Hb Hab. destruct (Rlt_le_dec a b) as [|Hle]; [done|].
  assert (0 <= (a - b) * (a + b))%R by (apply Rmult_le_pos; lra). lra.
Qed.

Lemma square_le (a b : R) : (0 <= a → a <= b → a * a <= b * b)%R.
Proof. intros Ha Hab. apply Rmult_le_compat; lra. Qed.

Lemma square_lt (a b : R) : (0 <= a → a < b → a * a < b * b)%R.
Proof. intros Ha Hab. apply Rmult_le_0_lt_compat; lra. Qed.

(** Comparing four times the radicand with the square of an odd number. *)
Lemma odd_square_le (s : Q) (r : Z) :
  (0 <= s)%Q →
  (inject_Z ((2 * r - 1) ^ 2) <= 4 * s)%Q
  ↔ ((2 * IZR r - 1) * (2 * IZR r - 1)
     <= (2 * sqrt (Q2R s)) * (2 * sqrt (Q2R s)))%R.
Proof.
  intros Hs. apply Qle_Rle in Hs. rewrite RMicromega.Q2R_0 in Hs.
  pose proof (sqrt_sqrt (Q2R s) Hs) as Hyy. split.
  - intros H%Qle_Rle. rewrite Q2R_mult, !Q2R_inject_Z in H.
    rewrite Z.pow_2_r, mult_IZR, minus_IZR, mult_IZR in H. lra.
  - intros H. apply Rle_Qle. rewrite Q2R_mult, !Q2R_inject_Z.
    rewrite Z.pow_2_r, mult_IZR, minus_IZR, mult_IZR. lra.
Qed.

Lemma odd_square_ge (s : Q) (r : Z) :
  (0 <= s)%Q →
  (4 * s <= inject_Z ((2 * r + 1) ^ 2))%Q
  ↔ ((2 * sqrt (Q2R s)) * (2 * sqrt (Q2R s))
     <= (2 * IZR r + 1) * (2 * IZR r + 1))%R.
Proof.
  intros Hs. apply Qle_Rle in Hs. rewrite RMicromega.Q2R_0 in Hs.
  pose proof (sqrt_sqrt (Q2R s) Hs) as Hyy. split.
  - intros H%Qle_Rle. rewrite Q2R_mult, !Q2R_inject_Z in H.
    rewrite Z.pow_2_r, mult_IZR, plus_IZR, mult_IZR in H. lra.
  - intros H. apply Rle_Qle. rewrite Q2R_mult, !Q2R_inject_Z.
    rewrite Z.pow_2_r, mult_IZR, plus_IZR, mult_IZR. lra.
Qed.

Lemma odd_square_gt (s : Q) (r : Z) :
  (0 <= s)%Q →
  (4 * s < inject_Z ((2 * r + 1) ^ 2))%Q
  ↔ ((2 * sqrt (Q2R s)) * (2 * sqrt (Q2R s))
     < (2 * IZR r + 1) * (2 * IZR r + 1))%R.
Proof.
  intros Hs. apply Qle_Rle in Hs. rewrite RMicromega.Q2R_0 in Hs.
  pose proof (sqrt_sqrt (Q2R s) Hs) as Hyy. split.
  - intros H%Qlt_Rlt. rewrite Q2R_mult, !Q2R_inject_Z in H.
    rewrite Z.pow_2_r, mult_IZR, plus_IZR, mult_IZR in H. lra.
  - intros H. apply Rlt_Qlt. rewrite Q2R_mult, !Q2R_inject_Z.
    rewrite Z.pow_2_r, mult_IZR, plus_IZR, mult_IZR. lra.
Qed.

(** [is_half_up s r] says that [r] is [sqrt s] rounded half-up. *)
Lemma is_half_up_sqrt (s : Q) (r : Z) :
  (0 <= s)%Q →
  is_half_up s r ↔ (IZR r - 1 / 2 <= sqrt (Q2R s) < IZR r + 1 / 2)%R.
Proof.
  intros Hs. unfold is_half_up.
  rewrite (odd_square_le s r Hs), (odd_square_gt s r Hs).
  pose proof (sqrt_pos (Q2R s)) as Hy. set (y := sqrt (Q2R s)) in *.
  clearbody y. split.
  - intros (Hr & Hlow & Hhigh). pose proof (IZR_le _ _ Hr) as HrR. split.
    + destruct (decide (r = 0)) as [->|Hne]; [lra|].
      destruct Hlow as [->|Hlow]; [done|].
      assert (1 <= IZR r)%R by (apply IZR_le; lia).
      assert (2 * IZR r - 1 <= 2 * y)%R; [|lra].
      apply square_le_inv; lra.
    + assert (2 * y < 2 * IZR r + 1)%R; [|lra].
      apply square_lt_inv; lra.
  - intros [Hlow Hhigh].
    assert (Hr : 0 ≤ r).
    { destruct (decide (0 ≤ r)) as [|Hneg]; [done|].
      assert (IZR r <= -1)%R by (apply IZR_le; lia). lra. }
    split; [done|]. pose proof (IZR_le _ _ Hr) as HrR. split.
    + destruct (decide (r = 0)) as [->|Hne]; [by left|right].
      assert (1 <= IZR r)%R by (apply IZR_le; lia).
      apply square_le; lra.
    + apply square_lt; lra.
Qed.

Lemma odd_square_eq (s : Q) (r : Z) :
  (0 <= s)%Q →
  (4 * s == inject_Z ((2 * r - 1) ^ 2))%Q
  ↔ ((2 * sqrt (Q2R s)) * (2 * sqrt (Q2R s))
     = (2 * IZR r - 1) * (2 * IZR r - 1))%R.
Proof.
  intros Hs. apply Qle_Rle in Hs. rewrite RMicromega.Q2R_0 in Hs.
  pose proof (sqrt_sqrt (Q2R s) Hs) as Hyy. split.
  - intros H%Qeq_eqR. rewrite Q2R_mult, !Q2R_inject_Z in H.
    rewrite Z.pow_2_r, mult_IZR, minus_IZR, mult_IZR in H. lra.
  - intros H. apply eqR_Qeq. rewrite Q2R_mult, !Q2R_inject_Z.
    rewrite Z.pow_2_r, mult_IZR, minus_IZR, mult_IZR. lra.
Qed.

(** [is_half_even s r] says that [r] is [sqrt s] rounded to the nearest
    integer, a tie to the even one. *)
Lemma is_half_even_sqrt (s : Q) (r : Z) :
  (0 <= s)%Q →
  is_half_even s r
  ↔ (IZR r - 1 / 2 <= sqrt (Q2R s) <= IZR r + 1 / 2)%R
    ∧ (Z.odd r = true →
       sqrt (Q2R s) ≠ (IZR r - 1 / 2)%R ∧ sqrt (Q2R s) ≠ (IZR r + 1 / 2)%R).
Proof.
  intros Hs. unfold is_half_even.
  rewrite (odd_square_le s r Hs), (odd_square_ge s r Hs),
    (odd_square_eq s r Hs).
  replace ((2 * r + 1) ^ 2) with ((2 * (r + 1) - 1) ^ 2) by (f_equal; lia).
  rewrite (odd_square_eq s (r + 1) Hs), plus_IZR.
  pose proof (sqrt_pos (Q2R s)) as Hy. set (y := sqrt (Q2R s)) in *.
  clearbody y.
  assert (Hodd : Z.odd r = true → 0 ≤ r → (1 <= IZR r)%R).
  { intros Ho Hr. apply IZR_le. destruct (decide (r = 0)) as [->|]; [done|lia]. }
  split.
  - intros (Hr & Hlow & Hhigh & Hties).
    pose proof (IZR_le _ _ Hr) as HrR. split; [split|].
    + destruct (decide (r = 0)) as [->|Hne]; [lra|].
      destruct Hlow as [->|Hlow]; [done|].
      assert (1 <= IZR r)%R by (apply IZR_le; lia).
      assert (2 * IZR r - 1 <= 2 * y)%R; [|lra].
      apply square_le_inv; lra.
    + assert (2 * y <= 2 * IZR r + 1)%R; [|lra].
      apply square_le_inv; lra.
    + intros Ho. destruct (Hties Ho) as [Hbelow Habove].
      split; intros ->; [apply Hbelow|apply Habove]; lra.
  - intros [[Hlow Hhigh] Hties].
    assert (Hr : 0 ≤ r).
    { destruct (decide (0 ≤ r)) as [|Hneg]; [done|].
      assert (IZR r <= -1)%R by (apply IZR_le; lia).
      destruct (decide (r = -1)) as [->|]; [|assert (IZR r <= -2)%R
        by (apply IZR_le; lia); lra].
      destruct (Hties eq_refl) as [_ Habove]. destruct Habove. lra. }
    split; [done|]. pose proof (IZR_le _ _ Hr) as HrR. split; [|split].
    + destruct (decide (r = 0)) as [->|Hne]; [by left|right].
      assert (1 <= IZR r)%R by (apply IZR_le; lia).
      apply square_le; lra.
    + apply square_le; lra.
    + intros Ho. destruct (Hties Ho) as [Hbelow Habove].
      specialize (Hodd Ho Hr). split; intros Heq.
      * apply Hbelow.
        assert (2 * y <= 2 * IZR r - 1)%R
          by (apply square_le_inv; lra).
        assert (2 * IZR r - 1 <= 2 * y)%R
          by (apply square_le_inv; lra).
        lra.
      * apply Habove.
        assert (2 * y <= 2 * (IZR r + 1) - 1)%R
          by (apply square_le_inv; lra).
        assert (2 * (IZR r + 1) - 1 <= 2 * y)%R
          by (apply square_le_inv; lra).
        lra.
Qed.

Lemma sum_of_squares_nonneg (a b : Q) : (0 <= a ^ 2 + b ^ 2)%Q.
Proof.
  assert (Hsq : ∀ c : Q, (0 <= c ^ 2)%Q).
  { intros [c d]. unfold Qle. simpl. nia. }
  rewrite <- (Qplus_0_r 0). apply Qplus_le_compat; apply Hsq.
Qed.

Lemma vrp_distance_nonneg (c1 c2 : Q * Q) :
  (0 <= radicand (vrp_distance c1 c2))%Q.
Proof. destruct c1, c2. apply sum_of_squares_nonneg. Qed.

Lemma tsp_distance_nonneg (c1 c2 : Q * Q) :
  (0 <= radicand (tsp_distance c1 c2))%Q.
Proof. apply sum_of_squares_nonneg. Qed.

Lemma vrp_distance_sym (c1 c2 : Q * Q) :
  round_half_up (vrp_distance c1 c2) = round_half_up (vrp_distance c2 c1).
Proof.
  destruct c1 as [x1 y1], c2 as [x2 y2].
  apply round_half_up_Qeq; [apply sum_of_squares_nonneg|]. simpl. ring.
Qed.

Lemma tsp_distance_sym (c1 c2 : Q * Q) :
  py_round (tsp_distance c1 c2) = py_round (tsp_distance c2 c1).
Proof.
  apply py_round_Qeq; [apply sum_of_squares_nonneg|]. simpl. ring.
Qed.

(** ** Matrices *)

Lemma np_zeros_square (n : Z) (m : matrix) :
  np_zeros n n = Ok m → square n m ∧ ∀ i j, 0 ≤ i < n → 0 ≤ j < n → entry m i j = Some 0.
Proof.
  unfold np_zeros. case_decide as Hn; [done|]. intros [= <-].
  split.
  - split; [lia|]. split; [by rewrite length_replicate|].
    apply Forall_replicate. by rewrite length_replicate.
  - intros i j Hi Hj. unfold entry. rewrite decide_True by lia.
    rewrite lookup_replicate_2 by lia. simpl. by rewrite lookup_replicate_2 by lia.
Qed.

Lemma np_zeros_Ok (n : Z) : 0 ≤ n → ∃ m, np_zeros n n = Ok m.
Proof. intros Hn. unfold np_zeros. rewrite decide_False by lia. eauto. Qed.

Lemma np_index_in_range (len : nat) (i : Z) :
  0 ≤ i < Z.of_nat len → np_index len i = Ok (Z.to_nat i).
Proof. intros Hi. unfold np_index. by rewrite decide_True. Qed.

Lemma square_lookup (n : Z) (m : matrix) (i : Z) :
  square n m → 0 ≤ i < n →
  ∃ row, m !! Z.to_nat i = Some row ∧ length row = Z.to_nat n.
Proof.
  intros (Hn & Hlen & Hrows) Hi.
  destruct (lookup_lt_is_Some_2 m (Z.to_nat i)) as [row Hrow]; [lia|].
  exists row. split; [done|].
  by apply (Forall_lookup_1 _ _ _ _ Hrows Hrow).
Qed.

Lemma np_set_square (n : Z) (m : matrix) (i j v : Z) :
  square n m → 0 ≤ i < n → 0 ≤ j < n →
  ∃ m', np_set m i j v = Ok m' ∧ square n m'
        ∧ ∀ i' j', entry m' i' j'
                   = if decide (i' = i ∧ j' = j) then Some v else entry m i' j'.
Proof.
  intros Hsq Hi Hj.
  destruct (square_lookup n m i Hsq Hi) as (row & Hrow & Hlen).
  destruct Hsq as (Hn & Hm & Hrows).
  unfold np_set. rewrite np_index_in_range by lia. simpl.
  unfold list_item. rewrite Hrow. simpl.
  rewrite np_index_in_range by lia. simpl.
  eexists. split; [done|]. split.
  - split; [done|]. split; [by rewrite length_insert|].
    apply Forall_insert; [done|]. by rewrite length_insert.
  - intros i' j'. unfold entry.
    destruct (decide (0 ≤ i' ∧ 0 ≤ j')) as [[Hi' Hj']|Hneg].
    + destruct (decide (i' = i)) as [->|Hne].
      * rewrite list_lookup_insert_eq by lia. simpl.
        destruct (decide (j' = j)) as [->|Hne].
        -- rewrite decide_True by done. apply list_lookup_insert_eq. lia.
        -- rewrite decide_False by (intros [_ ?]; done).
           rewrite Hrow. simpl. apply list_lookup_insert_ne. lia.
      * rewrite decide_False by (intros [? _]; done).
        by rewrite list_lookup_insert_ne by lia.
    + rewrite decide_False; [done|]. intros [-> ->]. lia.
Qed.

Lemma np_get_square (n : Z) (m : matrix) (i j : Z) :
  square n m → 0 ≤ i < n → 0 ≤ j < n →
  ∃ v, np_get m i j = Ok v ∧ entry m i j = Some v.
Proof.
  intros Hsq Hi Hj.
  destruct (square_lookup n m i Hsq Hi) as (row & Hrow & Hlen).
  destruct Hsq as (Hn & Hm & Hrows).
  destruct (lookup_lt_is_Some_2 row (Z.to_nat j)) as [v Hv]; [lia|].
  exists v. unfold np_get, entry.
  rewrite np_index_in_range by lia. simpl.
  unfold list_item. rewrite Hrow. simpl.
  rewrite np_index_in_range by lia. simpl. rewrite Hv.
  by rewrite decide_True by lia.
Qed.

(** ** The double loop *)

Section fill.
Context (a n : Z) (coords : gmap Z (Q * Q)).
Context (rounded : Q * Q → Q * Q → result Z).

Local Abbreviation index := (λ i : Z, i - a).
Local Abbreviation cell := (λ (i j : Z) (m : matrix),
  if decide (i ≠ j) then
    c1 ← getitem coords i;
    c2 ← getitem coords j;
    d ← rounded c1 c2;
    np_set m (index i) (index j) d
  else Ok m).

Lemma filled_weaken (done done' : Z → Z → Prop) (m : matrix) :
  (∀ i j, done' i j → done i j) →
  filled a n coords rounded done m → filled a n coords rounded done' m.
Proof.
  intros Hsub [Hsq Hcells]. split; [done|].
  intros i j Hi Hj. destruct (Hcells i j Hi Hj) as [Hdiag Hoff].
  split; [done|]. intros Hd. apply Hoff. by apply Hsub.
Qed.

Lemma cell_filled (done : Z → Z → Prop) (i j : Z) (m m' : matrix) :
  a ≤ i < a + n → a ≤ j < a + n →
  filled a n coords rounded done m →
  cell i j m = Ok m' →
  filled a n coords rounded (λ i' j', done i' j' ∨ (i' = i ∧ j' = j)) m'.
Proof.
  intros Hi Hj Hfilled Hcell. simpl in Hcell.
  destruct (decide (i ≠ j)) as [Hne|Heq].
  - destruct Hfilled as [Hsq Hcells].
    unfold getitem in Hcell.
    destruct (coords !! i) as [c1|] eqn:Hc1; [|done].
    destruct (coords !! j) as [c2|] eqn:Hc2; [|done].
    simpl in Hcell.
    destruct (rounded c1 c2) as [d|] eqn:Hd; [|done]. simpl in Hcell.
    destruct (np_set_square n m (i - a) (j - a) d Hsq)
      as (m2 & Hset & Hsq2 & Hentry); [lia..|].
    rewrite Hset in Hcell. injection Hcell as <-.
    split; [done|]. intros i' j' Hi' Hj'.
    destruct (Hcells i' j' Hi' Hj') as [Hdiag Hoff].
    rewrite Hentry. split.
    + intros ->. rewrite decide_False by lia. by apply Hdiag.
    + intros [Hdone|[-> ->]] Hne'.
      * destruct (Hoff Hdone Hne') as (d1 & d2 & d' & Hd1 & Hd2 & Hd' & He).
        exists d1, d2, d'. do 3 (split; [done|]).
        case_decide as Hsame; [|done].
        assert (i' = i ∧ j' = j) as [-> ->] by lia.
        congruence.
      * exists c1, c2, d. by rewrite decide_True.
  - injection Hcell as <-. destruct Hfilled as [Hsq Hcells].
    split; [done|]. intros i' j' Hi' Hj'.
    destruct (Hcells i' j' Hi' Hj') as [Hdiag Hoff].
    split; [done|]. intros [Hd|[-> ->]] Hne'; [by apply Hoff|].
    by destruct Heq.
Qed.

Lemma row_filled (done : Z → Z → Prop) (i : Z) (js : list Z) (m m' : matrix) :
  a ≤ i < a + n → (∀ j, j ∈ js → a ≤ j < a + n) →
  filled a n coords rounded done m →
  for_each js (cell i) m = Ok m' →
  filled a n coords rounded (λ i' j', done i' j' ∨ (i' = i ∧ j' ∈ js)) m'.
Proof.
  intros Hi. revert done m.
  induction js as [|j js IH]; intros done m Hjs Hfilled Hloop.
  - injection Hloop as <-. apply (filled_weaken done); [|done].
    intros i' j' [?|[_ Hin]]; [done|]. by apply elem_of_nil in Hin.
  - cbn [for_each] in Hloop. apply bind_Ok in Hloop as (m1 & Hcell & Hloop).
    eapply cell_filled in Hcell; [| done | apply Hjs; left | done].
    eapply IH in Hloop; [| intros; apply Hjs; by right | exact Hcell].
    eapply filled_weaken; [|exact Hloop].
    intros i' j' [?|[-> Hin]]; [by left; left|].
    apply elem_of_cons in Hin as [->|Hin]; [left; right|right]; done.
Qed.

Lemma rows_filled (done : Z → Z → Prop) (rows js : list Z) (m m' : matrix) :
  (∀ i, i ∈ rows → a ≤ i < a + n) → (∀ j, j ∈ js → a ≤ j < a + n) →
  filled a n coords rounded done m →
  for_each rows (λ i, for_each js (cell i)) m = Ok m' →
  filled a n coords rounded (λ i' j', done i' j' ∨ (i' ∈ rows ∧ j' ∈ js)) m'.
Proof.
  intros Hrows Hjs. revert done m Hrows.
  induction rows as [|i rows IH]; intros done m Hrows Hfilled Hloop.
  - injection Hloop as <-. apply (filled_weaken done); [|done].
    intros i' j' [?|[Hin _]]; [done|]. by apply elem_of_nil in Hin.
  - cbn [for_each] in Hloop. apply bind_Ok in Hloop as (m1 & Hrow & Hloop).
    eapply row_filled in Hrow; [| apply Hrows; left | done | done].
    eapply IH in Hloop; [| intros; apply Hrows; by right | exact Hrow].
    eapply filled_weaken; [|exact Hloop].
    intros i' j' [?|[Hin ?]]; [by left; left|].
    apply elem_of_cons in Hin as [->|Hin]; [left; right|right]; done.
Qed.

(** What a distance matrix holds once the double loop has returned. *)
Lemma fill_distances_entries (m0 m : matrix) :
  np_zeros n n = Ok m0 →
  fill_distances (range a (a + n)) index coords rounded m0 = Ok m →
  square n m
  ∧ ∀ i j, a ≤ i < a + n → a ≤ j < a + n →
      (i = j → entry m (i - a) (j - a) = Some 0)
      ∧ (i ≠ j →
         ∃ c1 c2 d, coords !! i = Some c1 ∧ coords !! j = Some c2
                    ∧ rounded c1 c2 = Ok d
                    ∧ entry m (i - a) (j - a) = Some d).
Proof.
  intros Hzeros Hfill. apply np_zeros_square in Hzeros as [Hsq Hzero].
  eapply (rows_filled (λ _ _, False)) in Hfill.
  - destruct Hfill as [Hsq' Hcells]. split; [done|]. intros i j Hi Hj.
    destruct (Hcells i j Hi Hj) as [Hdiag Hoff]. split; [done|].
    apply Hoff. right. by rewrite !elem_of_range.
  - intros i. by rewrite elem_of_range.
  - intros i. by rewrite elem_of_range.
  - split; [done|]. intros i j Hi Hj. split; [|done].
    intros ->. apply Hzero; lia.
Qed.

(** The double loop returns when every coordinate it looks up is there and
    no distance raises. *)
Lemma row_total (i : Z) (js : list Z) (m : matrix) :
  a ≤ i < a + n → (∀ j, j ∈ js → a ≤ j < a + n) →
  (∀ j, j ∈ js → j ≠ i →
     ∃ c1 c2 d, coords !! i = Some c1 ∧ coords !! j = Some c2
                ∧ rounded c1 c2 = Ok d) →
  square n m →
  ∃ m', for_each js (cell i) m = Ok m' ∧ square n m'.
Proof.
  intros Hi. revert m. induction js as [|j js IH]; intros m Hjs Hcoords Hsq.
  - by exists m.
  - cbn [for_each].
    assert (∃ m1, cell i j m = Ok m1 ∧ square n m1) as (m1 & -> & Hsq1).
    { simpl. destruct (decide (i ≠ j)) as [Hne|_]; [|by exists m].
      destruct (Hcoords j) as (c1 & c2 & d & Hc1 & Hc2 & Hd); [by left|done|].
      unfold getitem. rewrite Hc1, Hc2. simpl. rewrite Hd. simpl.
      destruct (np_set_square n m (i - a) (j - a) d Hsq)
        as (m1 & Hset & Hsq1 & _); [|pose proof (Hjs j ltac:(by left))|]; [lia..|].
      by exists m1. }
    simpl. apply IH; [|intros; apply Hcoords; [by right|]|]; try done.
    intros; apply Hjs; by right.
Qed.

Lemma rows_total (rows js : list Z) (m : matrix) :
  (∀ i, i ∈ rows → a ≤ i < a + n) → (∀ j, j ∈ js → a ≤ j < a + n) →
  (∀ i j, i ∈ rows → j ∈ js → j ≠ i →
     ∃ c1 c2 d, coords !! i = Some c1 ∧ coords !! j = Some c2
                ∧ rounded c1 c2 = Ok d) →
  square n m →
  ∃ m', for_each rows (λ i, for_each js (cell i)) m = Ok m' ∧ square n m'.
Proof.
  intros Hrows Hjs. revert m Hrows.
  induction rows as [|i rows IH]; intros m Hrows Hcoords Hsq.
  - by exists m.
  - cbn [for_each].
    destruct (row_total i js m) as (m1 & -> & Hsq1);
      [apply Hrows; left | done | intros; apply Hcoords; [left|..]; done
      | done |].
    simpl. apply IH; [intros; apply Hrows; by right| |done].
    intros; apply Hcoords; [right|..]; done.
Qed.

Lemma fill_distances_total (m0 : matrix) :
  np_zeros n n = Ok m0 →
  (∀ i, a ≤ i < a + n → is_Some (coords !! i)) →
  (∀ i j c1 c2, coords !! i = Some c1 → coords !! j = Some c2 →
     ∃ d, rounded c1 c2 = Ok d) →
  ∃ m, fill_distances (range a (a + n)) index coords rounded m0 = Ok m.
Proof.
  intros Hzeros Hcoords Hrounded. apply np_zeros_square in Hzeros as [Hsq _].
  destruct (rows_total (range a (a + n)) (range a (a + n)) m0)
    as (m & Hm & _); [..|by exists m].
  - intros i. by rewrite elem_of_range.
  - intros i. by rewrite elem_of_range.
  - intros i j Hi%elem_of_range Hj%elem_of_range _.
    destruct (Hcoords i Hi) as [c1 Hc1]. destruct (Hcoords j Hj) as [c2 Hc2].
    destruct (Hrounded i j c1 c2 Hc1 Hc2) as [d Hd]. by exists c1, c2, d.
  - done.
Qed.

(** With at most one node no coordinate is looked up. *)
Lemma fill_distances_small (m0 : matrix) :
  n ≤ 1 →
  fill_distances (range a (a + n)) index coords rounded m0 = Ok m0.
Proof.
  intros Hn. unfold fill_distances.
  destruct (decide (n = 1)) as [->|].
  - rewrite (range_cons a) by lia. rewrite range_nil by lia.
    simpl. by rewrite decide_False by (intros Hne; by apply Hne).
  - by rewrite range_nil by lia.
Qed.

(** A row over node ids that all have a coordinate: it is filled, or it stops
    at the first node whose distance raises. *)
Lemma row_stops (i : Z) (c1 : Q * Q) (b k : Z) (m : matrix) :
  a ≤ i < a + n → a ≤ b → b ≤ k → k ≤ a + n →
  coords !! i = Some c1 →
  (∀ j, b ≤ j < k → is_Some (coords !! j)) →
  square n m →
  (∃ m', for_each (range b k) (cell i) m = Ok m' ∧ square n m'
         ∧ ∀ j c2, b ≤ j < k → j ≠ i → coords !! j = Some c2 →
             ∃ d, rounded c1 c2 = Ok d)
  ∨ (∃ j c2 e, b ≤ j < k ∧ j ≠ i ∧ coords !! j = Some c2
        ∧ rounded c1 c2 = Raise e
        ∧ for_each (range b k) (cell i) m = Raise e
        ∧ ∀ j' c2', b ≤ j' < j → j' ≠ i → coords !! j' = Some c2' →
            ∃ d, rounded c1 c2' = Ok d).
Proof.
  intros Hi Hab Hbk Hk Hc1.
  remember (Z.to_nat (k - b)) as len eqn:Hlen.
  revert b m Hab Hbk Hlen.
  induction len as [|len IH]; intros b m Hab Hbk Hlen Hcoords Hsq.
  - left. exists m. rewrite range_nil by lia. split; [done|]. split; [done|].
    intros j c2 Hj. lia.
  - rewrite (range_cons b) by lia. cbn [for_each].
    destruct (Hcoords b) as [cb Hcb]; [lia|].
    assert (Hstep :
      (∃ m1, cell i b m = Ok m1 ∧ square n m1
             ∧ (b ≠ i → ∃ d, rounded c1 cb = Ok d))
      ∨ (∃ e, b ≠ i ∧ rounded c1 cb = Raise e ∧ cell i b m = Raise e)).
    { simpl. destruct (decide (i ≠ b)) as [Hne|Heq].
      - unfold getitem. rewrite Hc1, Hcb. simpl.
        destruct (rounded c1 cb) as [d|e] eqn:Hd; simpl.
        + destruct (np_set_square n m (i - a) (b - a) d Hsq)
            as (m1 & Hset & Hsq1 & _); [lia..|].
          left. exists m1. split; [done|]. split; [done|]. by exists d.
        + right. exists e. split; [by apply not_eq_sym|done].
      - left. exists m. split; [done|]. split; [done|].
        intros Hne. destruct Heq. by apply not_eq_sym. }
    destruct Hstep as [(m1 & -> & Hsq1 & Hb)|(e & Hne & Hraise & ->)].
    + simpl.
      destruct (IH (b + 1) m1) as
        [(m' & Hloop & Hsq' & Hall)|(j & c2 & e & Hj & Hne & Hc2 & Hraise & Hloop & Hall)];
        [lia..| intros j Hj; apply Hcoords; lia | done | |].
      * left. exists m'. split; [done|]. split; [done|].
        intros j c2 Hj Hne Hc2.
        destruct (decide (j = b)) as [->|Hjb].
        -- assert (c2 = cb) as -> by congruence. by apply Hb.
        -- apply (Hall j); [lia|done..].
      * right. exists j, c2, e. split; [lia|]. do 4 (split; [done|]).
        intros j' c2' Hj' Hne' Hc2'.
        destruct (decide (j' = b)) as [->|Hjb].
        -- assert (c2' = cb) as -> by congruence. by apply Hb.
        -- apply (Hall j'); [lia|done..].
    + right. exists b, cb, e. split; [lia|]. do 4 (split; [done|]).
      intros j' c2' Hj'. lia.
Qed.

(** With two nodes or more, the first row looks up every coordinate: it stops
    at the least node id that has none, unless the distance from the first
    node to an earlier one raises; it then stops there. *)
Lemma first_row_raises (m0 : matrix) (k : Z) :
  2 ≤ n → square n m0 →
  a ≤ k < a + n → coords !! k = None →
  (∀ i, a ≤ i < k → is_Some (coords !! i)) →
  (for_each (range a (a + n)) (cell a) m0 = Raise (KeyError k)
   ∧ ∀ j c1 c2, a < j < k → coords !! a = Some c1 → coords !! j = Some c2 →
       ∃ d, rounded c1 c2 = Ok d)
  ∨ (∃ j c1 c2 e, a < j < k ∧ coords !! a = Some c1 ∧ coords !! j = Some c2
        ∧ rounded c1 c2 = Raise e
        ∧ for_each (range a (a + n)) (cell a) m0 = Raise e
        ∧ ∀ j' c2', a < j' < j → coords !! j' = Some c2' →
            ∃ d, rounded c1 c2' = Ok d).
Proof.
  intros Hn Hsq Hk Hnone Hleast.
  destruct (decide (k = a)) as [->|Hne].
  - left. split; [|intros j c1 c2 Hj; lia].
    rewrite (range_cons a) by lia. rewrite (range_cons (a + 1)) by lia.
    cbn [for_each]. rewrite decide_False by (intros Hne; by apply Hne).
    simpl. rewrite decide_True by lia. unfold getitem. by rewrite Hnone.
  - destruct (Hleast a) as [c1 Hc1]; [lia|].
    rewrite (range_split a k) by lia. rewrite for_each_app.
    destruct (row_stops a c1 a k m0) as
      [(m1 & -> & _ & Hall)|(j & c2 & e & Hj & Hja & Hc2 & Hraise & -> & Hall)];
      [lia..|done|done|done| |].
    + left. split.
      * simpl. rewrite (range_cons k) by lia. cbn [for_each].
        rewrite decide_True by lia. unfold getitem.
        rewrite Hc1. simpl. by rewrite Hnone.
      * intros j c1' c2 Hj Hc1' Hc2. assert (c1' = c1) as -> by congruence.
        apply (Hall j); [lia|lia|done].
    + right. exists j, c1, c2, e. split; [lia|]. do 3 (split; [done|]).
      split; [done|]. intros j' c2' Hj' Hc2'. apply (Hall j'); [lia|lia|done].
Qed.

Lemma fill_distances_raises (m0 : matrix) (k : Z) :
  2 ≤ n → np_zeros n n = Ok m0 →
  a ≤ k < a + n → coords !! k = None →
  (∀ i, a ≤ i < k → is_Some (coords !! i)) →
  (fill_distances (range a (a + n)) index coords rounded m0
   = Raise (KeyError k)
   ∧ ∀ j c1 c2, a < j < k → coords !! a = Some c1 → coords !! j = Some c2 →
       ∃ d, rounded c1 c2 = Ok d)
  ∨ (∃ j c1 c2 e, a < j < k ∧ coords !! a = Some c1 ∧ coords !! j = Some c2
        ∧ rounded c1 c2 = Raise e
        ∧ fill_distances (range a (a + n)) index coords rounded m0 = Raise e
        ∧ ∀ j' c2', a < j' < j → coords !! j' = Some c2' →
            ∃ d, rounded c1 c2' = Ok d).
Proof.
  intros Hn Hzeros Hk Hnone Hleast.
  apply np_zeros_square in Hzeros as [Hsq _].
  assert (Hfirst : ∀ e,
    for_each (range a (a + n)) (cell a) m0 = Raise e →
    fill_distances (range a (a + n)) index coords rounded m0 = Raise e).
  { intros e Hrow. unfold fill_distances.
    rewrite (range_cons a) at 1 by lia. cbn [for_each]. by rewrite Hrow. }
  destruct (first_row_raises m0 k Hn Hsq Hk Hnone Hleast)
    as [[Hrow Hall]|(j & c1 & c2 & e & Hj & Hc1 & Hc2 & Hraise & Hrow & Hall)].
  - left. split; [by apply Hfirst|done].
  - right. exists j, c1, c2, e. do 4 (split; [done|]).
    split; [by apply Hfirst|done].
Qed.

(** With two nodes or more and a node without coordinate, the double loop
    returns no matrix. *)
Lemma fill_distances_missing (m0 : matrix) (k : Z) :
  2 ≤ n → np_zeros n n = Ok m0 →
  a ≤ k < a + n → coords !! k = None →
  (∀ i, a ≤ i < k → is_Some (coords !! i)) →
  ∃ e, fill_distances (range a (a + n)) index coords rounded m0 = Raise e.
Proof.
  intros Hn Hzeros Hk Hnone Hleast.
  destruct (fill_distances_raises m0 k Hn Hzeros Hk Hnone Hleast)
    as [[Hraise _]|(j & c1 & c2 & e & _ & _ & _ & _ & Hraise & _)]; eauto.
Qed.

End fill.

(** ** The two distance matrices *)

Lemma for_each_ext {A S : Type} (xs : list A) (body body' : A → S → result S)
    (s : S) :
  (∀ x s, body x s = body' x s) → for_each xs body s = for_each xs body' s.
Proof.
  intros Hext. revert s. induction xs as [|x xs IH]; intros s; simpl; [done|].
  rewrite Hext. destruct (body' x s); simpl; [apply IH|done].
Qed.

(** A rounded distance that is returned is the value of the rounding. *)
Lemma vrp_rounded_distance_Ok `{Builtins} (c1 c2 : Q * Q) (d : Z) :
  vrp_rounded_distance c1 c2 = Ok d ↔
  py_quantize_raises c1 c2 = None ∧ d = round_half_up (vrp_distance c1 c2).
Proof.
  unfold vrp_rounded_distance.
  destruct (py_quantize_raises c1 c2); split; try done.
  - by intros [? _].
  - by intros [= <-].
  - by intros [_ ->].
Qed.

Lemma tsp_rounded_distance_Ok `{Builtins} (c1 c2 : Q * Q) (d : Z) :
  tsp_rounded_distance c1 c2 = Ok d ↔
  py_round_raises c1 c2 = None ∧ d = py_round (tsp_distance c1 c2).
Proof.
  unfold tsp_rounded_distance.
  destruct (py_round_raises c1 c2); split; try done.
  - by intros [? _].
  - by intros [= <-].
  - by intros [_ ->].
Qed.

(** A rounded distance raises what the arithmetic raises. *)
Lemma vrp_rounded_distance_Raise `{Builtins} (c1 c2 : Q * Q) (e : error) :
  vrp_rounded_distance c1 c2 = Raise e ↔ py_quantize_raises c1 c2 = Some e.
Proof.
  unfold vrp_rounded_distance.
  destruct (py_quantize_raises c1 c2); split; try done; by intros [= <-].
Qed.

Lemma compute_distance_matrix_fill `{Builtins} (self : VRPDataReader.t) :
  VRPDataReader.compute_distance_matrix self
  = n ← number (VRPDataReader.dimension self);
    m0 ← np_zeros n n;
    fill_distances (range 1 (1 + n)) (λ i, i - 1)
      (VRPDataReader.node_coords self) vrp_rounded_distance m0.
Proof.
  unfold VRPDataReader.compute_distance_matrix, fill_distances.
  destruct (number _) as [n|]; simpl; [|done].
  by rewrite (Z.add_comm n 1).
Qed.

Lemma load_tsp_matrix_fill `{Builtins} (n : Z)
    (coordinates : gmap Z (Q * Q)) :
  load_tsp_matrix n coordinates
  = m0 ← np_zeros n n;
    fill_distances (range 0 (0 + n)) (λ i, i - 0) coordinates
      tsp_rounded_distance m0.
Proof.
  unfold load_tsp_matrix, fill_distances, range0.
  destruct (np_zeros n n) as [m0|]; simpl; [|done].
  apply for_each_ext; intros i m. apply for_each_ext; intros j m'.
  by rewrite !Z.sub_0_r.
Qed.

(** The matrix of the reader, once built: [n] rows of [n] entries, zero on
    the diagonal, the half-up rounded distance elsewhere. *)
Lemma compute_distance_matrix_entries `{Builtins} (self : VRPDataReader.t)
    (m : matrix) :
  VRPDataReader.compute_distance_matrix self = Ok m →
  ∃ n, VRPDataReader.dimension self = Some n ∧ square n m
    ∧ ∀ i j, 1 ≤ i ≤ n → 1 ≤ j ≤ n →
        (i = j → entry m (i - 1) (j - 1) = Some 0)
        ∧ (i ≠ j →
           ∃ c1 c2, VRPDataReader.node_coords self !! i = Some c1
                    ∧ VRPDataReader.node_coords self !! j = Some c2
                    ∧ entry m (i - 1) (j - 1)
                      = Some (round_half_up (vrp_distance c1 c2))).
Proof.
  rewrite compute_distance_matrix_fill. intros Hm.
  apply bind_Ok in Hm as (n & Hn & Hm).
  apply bind_Ok in Hm as (m0 & Hzeros & Hm).
  exists n. split; [by destruct (VRPDataReader.dimension self) as [?|]; inversion Hn|].
  destruct (fill_distances_entries 1 n _ _ m0 m Hzeros Hm) as [Hsq Hcells].
  split; [done|]. intros i j Hi Hj.
  destruct (Hcells i j) as [Hdiag Hoff]; [lia..|]. split; [done|].
  intros Hne. destruct (Hoff Hne) as (c1 & c2 & d & Hc1 & Hc2 & Hd & He).
  apply vrp_rounded_distance_Ok in Hd as [_ ->]. by exists c1, c2.
Qed.

(** The matrix of the loader, once built; indices are node ids here. *)
Lemma load_tsp_matrix_entries `{Builtins} (n : Z)
    (coordinates : gmap Z (Q * Q)) (m : matrix) :
  load_tsp_matrix n coordinates = Ok m →
  square n m
  ∧ ∀ i j, 0 ≤ i < n → 0 ≤ j < n →
      (i = j → entry m i j = Some 0)
      ∧ (i ≠ j →
         ∃ c1 c2, coordinates !! i = Some c1 ∧ coordinates !! j = Some c2
                  ∧ entry m i j = Some (py_round (tsp_distance c1 c2))).
Proof.
  rewrite load_tsp_matrix_fill. intros Hm.
  apply bind_Ok in Hm as (m0 & Hzeros & Hm).
  destruct (fill_distances_entries 0 n _ _ m0 m Hzeros Hm) as [Hsq Hcells].
  split; [done|]. intros i j Hi Hj.
  destruct (Hcells i j) as [Hdiag Hoff]; [lia..|]. rewrite !Z.sub_0_r in *.
  split; [done|].
  intros Hne. destruct (Hoff Hne) as (c1 & c2 & d & Hc1 & Hc2 & Hd & He).
  apply tsp_rounded_distance_Ok in Hd as [_ ->]. by exists c1, c2.
Qed.

(** Every matrix built from coordinates is symmetric with a zero diagonal. *)
Lemma builds_distances_entries `{Builtins} (n : Z) (m : matrix) :
  builds_distances n m →
  ∀ i j, 0 ≤ i < n → 0 ≤ j < n →
    (i = j → entry m i j = Some 0)
    ∧ ∃ d, entry m i j = Some d ∧ entry m j i = Some d.
Proof.
  intros [self Hdim Hm|coordinates Hm] i j Hi Hj.
  - apply compute_distance_matrix_entries in Hm as (n' & Hdim' & _ & Hcells).
    assert (n' = n) as -> by congruence.
    destruct (Hcells (i + 1) (j + 1)) as [Hdiag Hoff]; [lia..|].
    destruct (Hcells (j + 1) (i + 1)) as [_ Hoff']; [lia..|].
    replace (i + 1 - 1) with i in * by lia.
    replace (j + 1 - 1) with j in * by lia.
    split; [intros; apply Hdiag; lia|].
    destruct (decide (i = j)) as [->|Hne]; [exists 0; split; apply Hdiag; lia|].
    destruct Hoff as (c1 & c2 & Hc1 & Hc2 & He); [lia|].
    destruct Hoff' as (c2' & c1' & Hc2' & Hc1' & He'); [lia|].
    exists (round_half_up (vrp_distance c1 c2)). split; [done|].
    rewrite He', vrp_distance_sym. congruence.
  - apply load_tsp_matrix_entries in Hm as [_ Hcells].
    destruct (Hcells i j) as [Hdiag Hoff]; [lia..|].
    destruct (Hcells j i) as [_ Hoff']; [lia..|].
    split; [done|].
    destruct (decide (i = j)) as [->|Hne]; [exists 0; split; by apply Hdiag|].
    destruct Hoff as (c1 & c2 & Hc1 & Hc2 & He); [lia|].
    destruct Hoff' as (c2' & c1' & Hc2' & Hc1' & He'); [lia|].
    exists (py_round (tsp_distance c1 c2)). split; [done|].
    rewrite He', tsp_distance_sym. congruence.
Qed.

(** C4. For every instance, the distance matrix built from its coordinates,
    by the reader or by the loader, is symmetric ([d[i][j] == d[j][i]] for
    all node indices) and has a zero diagonal ([d[i][i] == 0]). *)
Theorem distance_matrix_symmetric `{Builtins} (n : Z) (m : matrix) (i j : Z) :
  builds_distances n m → 0 ≤ i < n → 0 ≤ j < n →
  entry m i i = Some 0 ∧ ∃ d, entry m i j = Some d ∧ entry m j i = Some d.
Proof.
  intros Hm Hi Hj. split.
  - by apply (builds_distances_entries n m Hm i i).
  - by apply (builds_distances_entries n m Hm i j).
Qed.

Lemma distance_matrix_symmetric_witness :
  builds_distances 3 [[0; 3; 5]; [3; 0; 4]; [5; 4; 0]]
  ∧ entry [[0; 3; 5]; [3; 0; 4]; [5; 4; 0]] 0 0 = Some 0
  ∧ ∃ d, entry [[0; 3; 5]; [3; 0; 4]; [5; 4; 0]] 0 2 = Some d
         ∧ entry [[0; 3; 5]; [3; 0; 4]; [5; 4; 0]] 2 0 = Some d.
Proof.
  assert (H : builds_distances 3 [[0; 3; 5]; [3; 0; 4]; [5; 4; 0]]).
  { apply (by_reader _ _ (reader_of 3 [(1, (0, 0)%Q); (2, (0, 3)%Q); (3, (4, 3)%Q)]));
      reflexivity. }
  split; [exact H|].
  apply (distance_matrix_symmetric 3 _ 0 2 H); lia.
Defined.

(** The reader rounds half-up: each entry [r] off the diagonal satisfies
    [r - 1/2 <= distance < r + 1/2]. *)
Lemma compute_distance_matrix_half_up `{Builtins} (self : VRPDataReader.t)
    (m : matrix) (n i j : Z) :
  VRPDataReader.compute_distance_matrix self = Ok m →
  VRPDataReader.dimension self = Some n →
  1 ≤ i ≤ n → 1 ≤ j ≤ n → i ≠ j →
  ∃ c1 c2 r, VRPDataReader.node_coords self !! i = Some c1
             ∧ VRPDataReader.node_coords self !! j = Some c2
             ∧ entry m (i - 1) (j - 1) = Some r
             ∧ is_half_up (radicand (vrp_distance c1 c2)) r.
Proof.
  intros Hm Hdim Hi Hj Hne.
  apply compute_distance_matrix_entries in Hm as (n' & Hdim' & _ & Hcells).
  assert (n' = n) as -> by congruence.
  destruct (Hcells i j Hi Hj) as [_ (c1 & c2 & Hc1 & Hc2 & He)]; [done|].
  exists c1, c2, (round_half_up (vrp_distance c1 c2)).
  do 3 (split; [done|]).
  apply (round_half_up_spec (radicand (vrp_distance c1 c2))).
  apply vrp_distance_nonneg.
Qed.

(** C1. The loader does not round half-up.  Two nodes at (0, 0) and (2.5, 0)
    are 2.5 apart, which half-up rounds to 3; [load_tsp_instance] stores 2, the
    even neighbour, where the reader stores 3 for the same coordinates. *)
Theorem load_tsp_instance_rounds_half_even :
  (∃ data, load_tsp_instance tie_file = Ok data
           ∧ TSPData.coordinates data !! 0 = Some (0, 0)%Q
           ∧ TSPData.coordinates data !! 1 = Some (2.5, 0)%Q
           ∧ entry (TSPData.distance_matrix data) 0 1 = Some 2)
  ∧ is_half_up (radicand (tsp_distance (0, 0)%Q (2.5, 0)%Q)) 3
  ∧ ¬ is_half_up (radicand (tsp_distance (0, 0)%Q (2.5, 0)%Q)) 2
  ∧ VRPDataReader.compute_distance_matrix
      (reader_of 2 [(1, (0, 0)%Q); (2, (2.5, 0)%Q)])
    = Ok [[0; 3]; [3; 0]].
Proof.
  assert (Hup : is_half_up (radicand (tsp_distance (0, 0)%Q (2.5, 0)%Q)) 3).
  { apply (round_half_up_spec (radicand (tsp_distance (0, 0)%Q (2.5, 0)%Q))).
    apply tsp_distance_nonneg. }
  split; [|split; [exact Hup|split]].
  - eexists. split; [vm_compute; reflexivity|]. by vm_compute.
  - intros Hdown. by pose proof (is_half_up_unique _ _ _ Hup Hdown).
  - reflexivity.
Qed.

(** ** Missing coordinates *)

Lemma least_missing (coords : gmap Z (Q * Q)) (a k : Z) :
  a ≤ k → coords !! k = None →
  ∃ key, a ≤ key ≤ k ∧ coords !! key = None
         ∧ ∀ i, a ≤ i < key → is_Some (coords !! i).
Proof.
  intros Hak Hk.
  assert (Hgen : ∀ d : nat, ∀ k, a ≤ k → Z.to_nat (k - a) = d →
            coords !! k = None →
            ∃ key, a ≤ key ≤ k ∧ coords !! key = None
                   ∧ ∀ i, a ≤ i < key → is_Some (coords !! i)).
  { clear k Hak Hk. intros d. induction (lt_wf d) as [d _ IH].
    intros k Hak Hd Hk.
    destruct (decide (Forall (λ i, is_Some (coords !! i)) (range a k)))
      as [Hall|Hex].
    - exists k. split; [lia|]. split; [done|]. intros i Hi.
      rewrite Forall_forall in Hall. apply Hall. by rewrite elem_of_range.
    - apply not_Forall_Exists in Hex; [|apply _].
      apply Exists_exists in Hex as (i & Hi & Hnone).
      apply elem_of_range in Hi. unfold compose in Hnone.
      assert (Hnone' : coords !! i = None)
        by (destruct (coords !! i) eqn:Hc; [exfalso; apply Hnone; simpl; eauto|done]).
      destruct (IH (Z.to_nat (i - a)) ltac:(lia) i ltac:(lia) eq_refl Hnone')
        as (key & Hkey & Hnone'' & Hleast).
      exists key. split; [lia|done]. }
  by apply (Hgen (Z.to_nat (k - a)) k).
Qed.

(** The reader returns no matrix when the instance has two nodes at least
    and a node id without coordinate.  It raises on the least such id, unless
    the distance from node 1 to an earlier node raises: it then raises what
    the first such distance raises. *)
Lemma compute_distance_matrix_raises `{Builtins} (self : VRPDataReader.t)
    (n k : Z) :
  VRPDataReader.dimension self = Some n → 2 ≤ n → 1 ≤ k ≤ n →
  VRPDataReader.node_coords self !! k = None →
  ∃ key e, 1 ≤ key ≤ k ∧ VRPDataReader.node_coords self !! key = None
    ∧ (∀ i, 1 ≤ i < key → is_Some (VRPDataReader.node_coords self !! i))
    ∧ VRPDataReader.compute_distance_matrix self = Raise e
    ∧ ((e = KeyError key
        ∧ ∀ j e', 1 < j < key →
            ¬ distance_raises (VRPDataReader.node_coords self) j e')
       ∨ (∃ j, 1 < j < key
            ∧ distance_raises (VRPDataReader.node_coords self) j e
            ∧ ∀ j' e', 1 < j' < j →
                ¬ distance_raises (VRPDataReader.node_coords self) j' e')).
Proof.
  intros Hdim Hn Hk Hnone.
  destruct (least_missing _ 1 k ltac:(lia) Hnone) as (key & Hkey & Hnone' & Hleast).
  rewrite compute_distance_matrix_fill, Hdim. simpl.
  destruct (np_zeros_Ok n ltac:(lia)) as [m0 Hzeros]. rewrite Hzeros. simpl.
  destruct (fill_distances_raises 1 n (VRPDataReader.node_coords self)
              vrp_rounded_distance m0 key)
    as [[Hraise Hall]|(j & c1 & c2 & e & Hj & Hc1 & Hc2 & Hd & Hraise & Hall)];
    [lia|done|lia|done|done| |].
  - exists key, (KeyError key). do 4 (split; [done|]). left. split; [done|].
    intros j e' Hj (c1 & c2 & Hc1 & Hc2 & He').
    destruct (Hall j c1 c2 Hj Hc1 Hc2) as [d Hd].
    apply vrp_rounded_distance_Ok in Hd as [Hd _]. congruence.
  - exists key, e. do 4 (split; [done|]). right. exists j. split; [done|].
    apply vrp_rounded_distance_Raise in Hd. split; [by exists c1, c2|].
    intros j' e' Hj' (c1' & c2' & Hc1' & Hc2' & He').
    assert (c1' = c1) as -> by congruence.
    destruct (Hall j' c2' Hj' Hc2') as [d' Hd'].
    apply vrp_rounded_distance_Ok in Hd' as [Hd' _]. congruence.
Qed.

(** The loader returns no matrix either; its node ids run from 0. *)
Lemma load_tsp_matrix_raises `{Builtins} (n k : Z)
    (coordinates : gmap Z (Q * Q)) :
  2 ≤ n → 0 ≤ k < n → coordinates !! k = None →
  ∃ e, load_tsp_matrix n coordinates = Raise e.
Proof.
  intros Hn Hk Hnone.
  destruct (least_missing _ 0 k ltac:(lia) Hnone) as (key & Hkey & Hnone' & Hleast).
  rewrite load_tsp_matrix_fill.
  destruct (np_zeros_Ok n ltac:(lia)) as [m0 Hzeros]. rewrite Hzeros. simpl.
  apply (fill_distances_missing 0 n coordinates _ m0 key); try done. lia.
Qed.

(** A reader whose matrix was built has a dimension that is not negative. *)
Lemma compute_distance_matrix_dimension `{Builtins} (self : VRPDataReader.t)
    (m : matrix) :
  VRPDataReader.compute_distance_matrix self = Ok m →
  ∃ n, VRPDataReader.dimension self = Some n ∧ 0 ≤ n ∧ square n m.
Proof.
  intros Hm.
  apply compute_distance_matrix_entries in Hm as (n & Hdim & Hsq & _).
  exists n. split; [done|]. split; [|done]. by destruct Hsq.
Qed.

(** With two nodes or more, a matrix is built only when every node id has a
    coordinate. *)
Lemma compute_distance_matrix_coords `{Builtins} (self : VRPDataReader.t)
    (m : matrix) (n : Z) :
  VRPDataReader.compute_distance_matrix self = Ok m →
  VRPDataReader.dimension self = Some n → 2 ≤ n →
  ∀ k, 1 ≤ k ≤ n → is_Some (VRPDataReader.node_coords self !! k).
Proof.
  intros Hm Hdim Hn k Hk.
  destruct (VRPDataReader.node_coords self !! k) eqn:Hc; [done|].
  destruct (compute_distance_matrix_raises self n k Hdim Hn Hk Hc)
    as (key & e & _ & _ & _ & Hraise & _).
  congruence.
Qed.

Lemma load_tsp_matrix_coords `{Builtins} (n : Z)
    (coordinates : gmap Z (Q * Q)) (m : matrix) :
  load_tsp_matrix n coordinates = Ok m → 2 ≤ n →
  ∀ k, 0 ≤ k < n → is_Some (coordinates !! k).
Proof.
  intros Hm Hn k Hk.
  destruct (coordinates !! k) eqn:Hc; [done|].
  destruct (load_tsp_matrix_raises n k coordinates Hn Hk Hc) as [e Hraise].
  congruence.
Qed.

(** C7, as stated, fails in two ways.  For an instance of one node no
    coordinate is looked up and a matrix is returned.  And for three nodes of
    which node 3 has no coordinate and node 2 lies 10^28 from node 1, that
    distance has 29 digits: [quantize] raises [decimal.InvalidOperation]
    before node 3 is looked up. *)
Lemma missing_coordinate_without_KeyError :
  (VRPDataReader.dimension (reader_of 1 []) = Some 1
   ∧ VRPDataReader.node_coords (reader_of 1 []) !! 1 = None
   ∧ VRPDataReader.compute_distance_matrix (reader_of 1 []) = Ok [[0]])
  ∧ (∃ self data,
       VRPDataReader.parse far_vrp_file = Ok (self, data)
       ∧ VRPDataReader.dimension self = Some 3
       ∧ VRPDataReader.node_coords self !! 3 = None
       ∧ VRPDataReader.compute_distance_matrix self = Raise InvalidOperation).
Proof.
  split; [by vm_compute|].
  eexists _, _. split; [vm_compute; reflexivity|]. by vm_compute.
Qed.

(** C7 (amended). For every parsed file whose dimension is at least 2 and in
    which some node id between 1 and the dimension has no coordinate,
    building the distance matrix raises and returns no matrix.  With [key]
    the least such node id, it raises [KeyError key] when no distance from
    node 1 to a node before [key] raises; otherwise it raises what the first
    such distance raises.  The constructor of the extractor, which calls the
    reader, raises the same exception. *)
Theorem missing_coordinate_raises `{Builtins} (lines : list string)
    (self : VRPDataReader.t) (data : VRPData.t) (n k : Z) :
  VRPDataReader.parse lines = Ok (self, data) →
  VRPDataReader.dimension self = Some n → 2 ≤ n → 1 ≤ k ≤ n →
  VRPDataReader.node_coords self !! k = None →
  ∃ key e, 1 ≤ key ≤ k ∧ VRPDataReader.node_coords self !! key = None
    ∧ (∀ i, 1 ≤ i < key → is_Some (VRPDataReader.node_coords self !! i))
    ∧ VRPDataReader.compute_distance_matrix self = Raise e
    ∧ (∀ vrp_file, TSPDataExtractor.__init__ vrp_file lines = Raise e)
    ∧ ((∀ j e', 1 < j < key →
          ¬ distance_raises (VRPDataReader.node_coords self) j e') →
       e = KeyError key)
    ∧ (∀ j e', 1 < j < key →
         distance_raises (VRPDataReader.node_coords self) j e' →
         (∀ j' e'', 1 < j' < j →
            ¬ distance_raises (VRPDataReader.node_coords self) j' e'') →
         e = e').
Proof.
  intros Hparse Hdim Hn Hk Hnone.
  destruct (compute_distance_matrix_raises self n k Hdim Hn Hk Hnone)
    as (key & e & Hkey & Hnone' & Hleast & Hraise & Hwhich).
  exists key, e. do 4 (split; [done|]). split; [|split].
  - intros vrp_file.
    unfold TSPDataExtractor.__init__. rewrite Hparse. simpl. by rewrite Hraise.
  - intros Hquiet.
    destruct Hwhich as [[-> _]|(j & Hj & Hd & _)]; [done|].
    by destruct (Hquiet j e Hj).
  - intros j e' Hj Hd Hfirst.
    destruct Hwhich as [[-> Hquiet]|(j0 & Hj0 & Hd0 & Hfirst0)].
    + by destruct (Hquiet j e' Hj).
    + destruct (Z.lt_trichotomy j j0) as [Hlt|[->|Hgt]].
      * destruct (Hfirst0 j e' ltac:(lia) Hd).
      * destruct Hd as (c1 & c2 & Hc1 & Hc2 & He').
        destruct Hd0 as (c1' & c2' & Hc1' & Hc2' & He). congruence.
      * destruct (Hfirst j0 e ltac:(lia) Hd0).
Qed.

Lemma missing_coordinate_raises_witness :
  ∃ self data,
    VRPDataReader.parse gap_vrp_file = Ok (self, data)
    ∧ ∃ key e, 1 ≤ key ≤ 2 ∧ VRPDataReader.node_coords self !! key = None
        ∧ (∀ i, 1 ≤ i < key → is_Some (VRPDataReader.node_coords self !! i))
        ∧ VRPDataReader.compute_distance_matrix self = Raise e
        ∧ (∀ vrp_file,
             TSPDataExtractor.__init__ vrp_file gap_vrp_file = Raise e)
        ∧ ((∀ j e', 1 < j < key →
              ¬ distance_raises (VRPDataReader.node_coords self) j e') →
           e = KeyError key)
        ∧ (∀ j e', 1 < j < key →
             distance_raises (VRPDataReader.node_coords self) j e' →
             (∀ j' e'', 1 < j' < j →
                ¬ distance_raises (VRPDataReader.node_coords self) j' e'') →
             e = e').
Proof.
  eexists _, _. split; [vm_compute; reflexivity|].
  eapply (missing_coordinate_raises gap_vrp_file _ _ 3 2);
    [vm_compute; reflexivity | reflexivity | lia | lia | reflexivity].
Defined.

(** ** The extractor *)

Lemma for_each_total {A S : Type} (I : S → Prop) (xs : list A)
    (body : A → S → result S) (s : S) :
  I s →
  (∀ x s, x ∈ xs → I s → ∃ s', body x s = Ok s' ∧ I s') →
  ∃ s', for_each xs body s = Ok s' ∧ I s'.
Proof.
  revert s. induction xs as [|x xs IH]; intros s Hs Hbody; [by exists s|].
  cbn [for_each].
  destruct (Hbody x s) as (s1 & -> & Hs1); [by left|done|]. simpl.
  apply IH; [done|]. intros y s2 Hy. apply Hbody. by right.
Qed.

Lemma elem_of_enumerate {A : Type} (xs : list A) (i : Z) (x : A) :
  (i, x) ∈ enumerate xs ↔ 0 ≤ i ∧ xs !! Z.to_nat i = Some x.
Proof.
  unfold enumerate, range0, range. rewrite Z.sub_0_r.
  rewrite list_elem_of_lookup. split.
  - intros (k & Hk). apply lookup_zip_with_Some in Hk
      as (i' & x' & [= <- <-] & Hi & Hx).
    apply lookup_seqZ in Hi as [-> _]. rewrite Z.add_0_l, Nat2Z.id. split; [lia|done].
  - intros [Hi Hx]. exists (Z.to_nat i). apply lookup_zip_with_Some.
    exists i, x. split; [done|]. split; [|done].
    apply lookup_seqZ. apply lookup_lt_Some in Hx. lia.
Qed.

(** The coordinates of a sub-instance: index [i] holds the coordinate of the
    [i]-th selected node, when that node has one. *)
Lemma subset_coords_lookup (coords : gmap Z (Q * Q)) (xs : list Z)
    (k : Z) (acc : gmap Z (Q * Q)) (i : Z) :
  foldl (λ (tsp_coords : gmap Z (Q * Q)) '(i, node_id),
           match coords !! node_id with
           | Some c => <[i := c]> tsp_coords
           | None => tsp_coords
           end)
        acc (zip (seqZ k (Z.of_nat (length xs))) xs) !! i
  = if decide (k ≤ i < k + Z.of_nat (length xs))
    then match xs !! Z.to_nat (i - k) ≫= (coords !!.) with
         | Some c => Some c
         | None => acc !! i
         end
    else acc !! i.
Proof.
  revert k acc. induction xs as [|x xs IH]; intros k acc.
  - simpl. by rewrite decide_False by lia.
  - cbn [length]. rewrite Nat2Z.inj_succ, seqZ_cons by lia.
    rewrite Z.pred_succ. cbn [zip zip_with foldl]. rewrite IH.
    destruct (decide (i = k)) as [->|Hne].
    + rewrite decide_False by lia. rewrite decide_True by lia.
      rewrite Z.sub_diag. simpl.
      destruct (coords !! x); [by rewrite lookup_insert_eq|done].
    + destruct (decide (Z.succ k ≤ i < Z.succ k + Z.of_nat (length xs)))
        as [Hin|Hout].
      * rewrite decide_True by lia.
        replace (Z.to_nat (i - k)) with (S (Z.to_nat (i - Z.succ k))) by lia.
        simpl. destruct (xs !! _ ≫= _); [done|].
        destruct (coords !! x); [by rewrite lookup_insert_ne|done].
      * rewrite decide_False by lia.
        destruct (coords !! x); [by rewrite lookup_insert_ne|done].
Qed.

Lemma take_range (a b k : Z) :
  first_n k (range a b) = range a (Z.min b (a + Z.max 0 k)).
Proof.
  unfold first_n, range, seqZ. rewrite <- fmap_take, take_seq.
  do 2 f_equal. lia.
Qed.

(** The node ids chosen in the code are the subset the specification words:
    the clamping of the size and the end of the list of nodes agree. *)
Lemma select_nodes_specified (dimension num_nodes : Z) (include_depot : bool) :
  (TSPDataExtractor.select_nodes dimension num_nodes include_depot).2
  = specified_subset dimension num_nodes include_depot.
Proof.
  unfold TSPDataExtractor.select_nodes, specified_subset, non_depot_ids.
  rewrite !take_range. destruct include_depot; simpl.
  - f_equal. case_decide.
    + destruct (decide (dimension < 1)); [by rewrite !range_nil by lia|].
      f_equal. lia.
    + destruct (decide (num_nodes < 1)); [by rewrite !range_nil by lia|].
      f_equal. lia.
  - case_decide.
    + destruct (decide (dimension < 1)); [by rewrite !range_nil by lia|].
      f_equal. lia.
    + destruct (decide (num_nodes < 1)); [by rewrite !range_nil by lia|].
      f_equal. lia.
Qed.

Lemma specified_subset_length (dimension k : Z) (include_depot : bool) :
  Z.of_nat (length (specified_subset dimension k include_depot))
  = if include_depot then Z.max 1 (Z.min k (Z.max 1 dimension))
    else Z.max 0 (Z.min k (dimension - 1)).
Proof.
  unfold specified_subset, non_depot_ids.
  destruct include_depot; cbn [length]; rewrite take_range, length_range; lia.
Qed.

Lemma elem_of_specified_subset (dimension k : Z) (include_depot : bool)
    (id : Z) :
  id ∈ specified_subset dimension k include_depot →
  1 ≤ id ∧ (id = 1 ∧ include_depot = true ∨ id ≤ dimension).
Proof.
  unfold specified_subset, non_depot_ids.
  destruct include_depot; rewrite take_range.
  - intros [->|Hin%elem_of_range]%elem_of_cons; [lia|lia].
  - intros Hin%elem_of_range. lia.
Qed.

Lemma NoDup_specified_subset (dimension k : Z) (include_depot : bool) :
  NoDup (specified_subset dimension k include_depot).
Proof.
  unfold specified_subset, non_depot_ids.
  destruct include_depot; rewrite take_range; [|apply NoDup_range].
  apply NoDup_cons. split; [|apply NoDup_range].
  rewrite elem_of_range. lia.
Qed.

(** What the constructor of the extractor establishes. *)
Lemma extractor_init `{Builtins} (vrp_file : string) (lines : list string)
    (self : TSPDataExtractor.t) :
  TSPDataExtractor.__init__ vrp_file lines = Ok self →
  VRPDataReader.parse lines
  = Ok (TSPDataExtractor.vrp_reader self, TSPDataExtractor.vrp_data self)
  ∧ VRPDataReader.compute_distance_matrix (TSPDataExtractor.vrp_reader self)
    = Ok (TSPDataExtractor.distance_matrix self)
  ∧ TSPDataExtractor.vrp_file self = vrp_file.
Proof.
  unfold TSPDataExtractor.__init__. intros Hinit.
  apply bind_Ok in Hinit as ([reader data] & Hparse & Hinit).
  apply bind_Ok in Hinit as (m & Hm & [= <-]). by simpl.
Qed.

(** The dictionary of the reader repeats its dimension and coordinates. *)
Lemma parse_data `{Builtins} (lines : list string) (self : VRPDataReader.t)
    (data : VRPData.t) :
  VRPDataReader.parse lines = Ok (self, data) →
  VRPData.dimension data = VRPDataReader.dimension self
  ∧ VRPData.node_coords data = VRPDataReader.node_coords self
  ∧ VRPData.comment data = VRPDataReader.comment self
  ∧ VRPDataReader._extract_num_vehicles self = Ok (VRPData.num_vehicles data)
  ∧ VRPDataReader._extract_optimal_value self
    = Ok (VRPData.optimal_value data).
Proof.
  unfold VRPDataReader.parse. intros Hparse.
  apply bind_Ok in Hparse as ([self' section] & _ & Hparse).
  apply bind_Ok in Hparse as (data' & Hdata & [= <- <-]).
  unfold VRPDataReader.get_data in Hdata.
  apply bind_Ok in Hdata as (nv & Hnv & Hdata).
  apply bind_Ok in Hdata as (ov & Hov & [= <-]). by simpl.
Qed.

(** An extractor, as its constructor leaves it: [n] is the dimension of the
    instance it holds. *)
Lemma extractor_matrix `{Builtins} (vrp_file : string) (lines : list string)
    (self : TSPDataExtractor.t) (n : Z) :
  TSPDataExtractor.__init__ vrp_file lines = Ok self →
  VRPData.dimension (TSPDataExtractor.vrp_data self) = Some n →
  0 ≤ n ∧ square n (TSPDataExtractor.distance_matrix self)
  ∧ (2 ≤ n → ∀ k, 1 ≤ k ≤ n →
       is_Some (VRPData.node_coords (TSPDataExtractor.vrp_data self) !! k)).
Proof.
  intros Hinit Hdim. apply extractor_init in Hinit as (Hparse & Hm & _).
  apply parse_data in Hparse as (Hd & Hc & _). rewrite Hd in Hdim. rewrite Hc.
  destruct (compute_distance_matrix_dimension _ _ Hm) as (n' & Hdim' & Hn & Hsq).
  assert (n' = n) as -> by congruence.
  split; [done|]. split; [done|]. intros Hn2.
  by apply (compute_distance_matrix_coords _ _ n Hm).
Qed.

(** Slicing the matrix of the parent succeeds when the selected node ids are
    node ids of the parent. *)
Lemma slice_total (n : Z) (parent : matrix) (selected : list Z) (m0 : matrix) :
  square n parent → (∀ id, id ∈ selected → 1 ≤ id ≤ n) →
  np_zeros (Z.of_nat (length selected)) (Z.of_nat (length selected)) = Ok m0 →
  ∃ m,
    for_each (enumerate selected) (λ '(i, node_i),
      for_each (enumerate selected) (λ '(j, node_j) tsp_distance_matrix,
        v ← np_get parent (node_i - 1) (node_j - 1);
        np_set tsp_distance_matrix i j v))
      m0 = Ok m
    ∧ square (Z.of_nat (length selected)) m.
Proof.
  intros Hparent Hids Hzeros. apply np_zeros_square in Hzeros as [Hsq _].
  assert (Hin : ∀ (i id : Z), (i, id) ∈ enumerate selected →
            0 ≤ i < Z.of_nat (length selected) ∧ 1 ≤ id ≤ n).
  { intros i id [Hi Hid]%elem_of_enumerate. split.
    - apply lookup_lt_Some in Hid. lia.
    - apply Hids. by apply list_elem_of_lookup_2 in Hid. }
  apply for_each_total; [done|]. intros [i node_i] m Hi Hm.
  apply for_each_total; [done|]. intros [j node_j] m' Hj Hm'.
  apply Hin in Hi as [Hi Hidi]. apply Hin in Hj as [Hj Hidj].
  destruct (np_get_square n parent (node_i - 1) (node_j - 1) Hparent)
    as (v & Hget & _); [lia..|].
  rewrite Hget. simpl.
  destruct (np_set_square _ m' i j v Hm') as (m2 & -> & Hm2 & _); [lia..|].
  by exists m2.
Qed.

(** What a sub-instance holds, when one is returned. *)
Lemma extract_tsp_subset_Ok (self : TSPDataExtractor.t) (n num_nodes : Z)
    (include_depot : bool) (data : TSPData.t) :
  VRPData.dimension (TSPDataExtractor.vrp_data self) = Some n →
  TSPDataExtractor.extract_tsp_subset self num_nodes include_depot = Ok data →
  let selected := specified_subset n num_nodes include_depot in
  TSPData.original_vrp_nodes data = Some selected
  ∧ TSPData.dimension data = Z.of_nat (length selected)
  ∧ TSPData.include_depot data = Some include_depot
  ∧ ∀ i, 0 ≤ i < Z.of_nat (length selected) →
      TSPData.coordinates data !! i
      = selected !! Z.to_nat i
        ≫= (VRPData.node_coords (TSPDataExtractor.vrp_data self) !!.).
Proof.
  intros Hdim Hdata. unfold TSPDataExtractor.extract_tsp_subset in Hdata.
  rewrite Hdim in Hdata. simpl in Hdata.
  pose proof (select_nodes_specified n num_nodes include_depot) as Hsel.
  destruct (TSPDataExtractor.select_nodes n num_nodes include_depot)
    as [clamped selected]. simpl in Hsel. subst selected.
  apply bind_Ok in Hdata as (m0 & _ & Hdata).
  apply bind_Ok in Hdata as (m & _ & [= <-]). simpl.
  do 3 (split; [done|]). intros i Hi.
  unfold enumerate, range0, range. rewrite Z.sub_0_r, subset_coords_lookup.
  rewrite decide_True by lia. rewrite Z.sub_0_r, lookup_empty.
  by destruct (_ ≫= _).
Qed.

(** A sub-instance is returned when the selected node ids are node ids of
    the parent. *)
Lemma extract_tsp_subset_total (self : TSPDataExtractor.t) (n num_nodes : Z)
    (include_depot : bool) :
  VRPData.dimension (TSPDataExtractor.vrp_data self) = Some n →
  square n (TSPDataExtractor.distance_matrix self) →
  (∀ id, id ∈ specified_subset n num_nodes include_depot → 1 ≤ id ≤ n) →
  ∃ data,
    TSPDataExtractor.extract_tsp_subset self num_nodes include_depot = Ok data.
Proof.
  intros Hdim Hsq Hids. unfold TSPDataExtractor.extract_tsp_subset.
  rewrite Hdim. simpl.
  pose proof (select_nodes_specified n num_nodes include_depot) as Hsel.
  destruct (TSPDataExtractor.select_nodes n num_nodes include_depot)
    as [clamped selected]. simpl in Hsel. subst selected.
  destruct (np_zeros_Ok (Z.of_nat (length (specified_subset n num_nodes include_depot))))
    as [m0 Hzeros]; [lia|].
  rewrite Hzeros. cbn [mbind result_bind].
  destruct (slice_total n _ _ m0 Hsq Hids Hzeros) as (m & -> & _).
  simpl. eauto.
Qed.

(** Without a node in the parent, the depot cannot be sliced out. *)
Lemma extract_depot_of_nothing (self : TSPDataExtractor.t) (num_nodes : Z) :
  VRPData.dimension (TSPDataExtractor.vrp_data self) = Some 0 →
  TSPDataExtractor.distance_matrix self = [] →
  TSPDataExtractor.extract_tsp_subset self num_nodes true = Raise IndexError.
Proof.
  intros Hdim Hm. unfold TSPDataExtractor.extract_tsp_subset.
  rewrite Hdim, Hm. cbn [number mbind result_bind].
  pose proof (select_nodes_specified 0 num_nodes true) as Hsel.
  destruct (TSPDataExtractor.select_nodes 0 num_nodes true)
    as [clamped selected]. simpl in Hsel. subst selected.
  unfold specified_subset, non_depot_ids.
  rewrite (range_nil 2 (0 + 1)) by lia.
  unfold first_n. by rewrite take_nil.
Qed.

(** Slicing copies the entries of the parent: once the double loop has
    returned, the entry at indices [i], [j] is the entry of the parent at the
    [i]-th and [j]-th selected nodes. *)
Section slice.
Context (parent : matrix) (selected : list Z).

Local Abbreviation len := (Z.of_nat (length selected)).
Local Abbreviation copy := (λ '(i, node_i) '(j, node_j) (m : matrix),
  v ← np_get parent (node_i - 1) (node_j - 1); np_set m i j v).

(** The cells [done] so far hold the entries of the parent. *)
Local Abbreviation sliced := (λ (done : Z → Z → Prop) (m : matrix),
  square len m
  ∧ ∀ i j, done i j →
      ∃ node_i node_j v,
        selected !! Z.to_nat i = Some node_i
        ∧ selected !! Z.to_nat j = Some node_j
        ∧ np_get parent (node_i - 1) (node_j - 1) = Ok v
        ∧ entry m i j = Some v).

Lemma copy_sliced (done : Z → Z → Prop) (p q : Z * Z) (m m' : matrix) :
  p ∈ enumerate selected → q ∈ enumerate selected →
  sliced done m → copy p q m = Ok m' →
  sliced (λ i j, done i j ∨ (i = p.1 ∧ j = q.1)) m'.
Proof.
  destruct p as [i node_i], q as [j node_j].
  intros [Hi Hnode_i]%elem_of_enumerate [Hj Hnode_j]%elem_of_enumerate.
  intros [Hsq Hcells] Hcopy. simpl in Hcopy.
  apply bind_Ok in Hcopy as (v & Hget & Hset).
  pose proof (lookup_lt_Some _ _ _ Hnode_i) as Hilt.
  pose proof (lookup_lt_Some _ _ _ Hnode_j) as Hjlt.
  destruct (np_set_square _ m i j v Hsq) as (m2 & Hset' & Hsq2 & Hentry);
    [lia..|].
  rewrite Hset' in Hset. injection Hset as <-.
  split; [done|]. intros i' j' Hdone. rewrite Hentry. simpl in Hdone.
  destruct (decide (i' = i ∧ j' = j)) as [[-> ->]|Hother].
  - by exists node_i, node_j, v.
  - destruct Hdone as [Hdone|?]; [|done]. by apply Hcells.
Qed.

Lemma copy_row_sliced (done : Z → Z → Prop) (p : Z * Z) (qs : list (Z * Z))
    (m m' : matrix) :
  p ∈ enumerate selected → (∀ q, q ∈ qs → q ∈ enumerate selected) →
  sliced done m → for_each qs (copy p) m = Ok m' →
  sliced (λ i j, done i j ∨ (i = p.1 ∧ j ∈ qs.*1)) m'.
Proof.
  intros Hp. revert done m.
  induction qs as [|q qs IH]; intros done m Hqs [Hsq Hcells] Hloop.
  - injection Hloop as <-. split; [done|].
    intros i j [Hdone|[_ Hin]]; [by apply Hcells|]. by apply elem_of_nil in Hin.
  - cbn [for_each] in Hloop. apply bind_Ok in Hloop as (m1 & Hcopy & Hloop).
    apply (copy_sliced done p q m m1 Hp (Hqs q ltac:(left)) (conj Hsq Hcells))
      in Hcopy.
    apply (IH _ m1 (λ q' Hq', Hqs q' ltac:(by right)) Hcopy) in Hloop
      as [Hsq' Hcells'].
    split; [done|]. intros i j Hdone. apply Hcells'.
    destruct Hdone as [?|[-> Hin]]; [by left; left|].
    rewrite fmap_cons in Hin.
    apply elem_of_cons in Hin as [->|Hin]; [left; right|right]; done.
Qed.

Lemma copy_rows_sliced (done : Z → Z → Prop) (ps qs : list (Z * Z))
    (m m' : matrix) :
  (∀ p, p ∈ ps → p ∈ enumerate selected) →
  (∀ q, q ∈ qs → q ∈ enumerate selected) →
  sliced done m → for_each ps (λ p, for_each qs (copy p)) m = Ok m' →
  sliced (λ i j, done i j ∨ (i ∈ ps.*1 ∧ j ∈ qs.*1)) m'.
Proof.
  intros Hps Hqs. revert done m Hps.
  induction ps as [|p ps IH]; intros done m Hps [Hsq Hcells] Hloop.
  - injection Hloop as <-. split; [done|].
    intros i j [Hdone|[Hin _]]; [by apply Hcells|]. by apply elem_of_nil in Hin.
  - cbn [for_each] in Hloop. apply bind_Ok in Hloop as (m1 & Hrow & Hloop).
    apply (copy_row_sliced done p qs m m1 (Hps p ltac:(left)) Hqs
             (conj Hsq Hcells)) in Hrow.
    apply (IH _ m1 (λ p' Hp', Hps p' ltac:(by right)) Hrow) in Hloop
      as [Hsq' Hcells'].
    split; [done|]. intros i j Hdone. apply Hcells'.
    destruct Hdone as [?|[Hin ?]]; [by left; left|].
    rewrite fmap_cons in Hin.
    apply elem_of_cons in Hin as [->|Hin]; [left; right|right]; done.
Qed.

Lemma slice_entries (m0 m : matrix) (i j node_i node_j : Z) :
  np_zeros len len = Ok m0 →
  for_each (enumerate selected) (λ p, for_each (enumerate selected) (copy p)) m0
  = Ok m →
  0 ≤ i → 0 ≤ j →
  selected !! Z.to_nat i = Some node_i → selected !! Z.to_nat j = Some node_j →
  ∃ v, np_get parent (node_i - 1) (node_j - 1) = Ok v ∧ entry m i j = Some v.
Proof.
  intros Hzeros Hloop Hi Hj Hnode_i Hnode_j.
  apply np_zeros_square in Hzeros as [Hsq _].
  apply (copy_rows_sliced (λ _ _, False)) in Hloop as [_ Hcells];
    [|done|done|by split].
  destruct (Hcells i j) as (node_i' & node_j' & v & Hi' & Hj' & Hget & Hentry).
  { right. split; apply list_elem_of_fmap.
    - exists (i, node_i). split; [done|]. by apply elem_of_enumerate.
    - exists (j, node_j). split; [done|]. by apply elem_of_enumerate. }
  exists v. split; [congruence|done].
Qed.

End slice.

Lemma np_get_entry (m : matrix) (i j v : Z) :
  0 ≤ i → 0 ≤ j → np_get m i j = Ok v → entry m i j = Some v.
Proof.
  intros Hi Hj Hget. unfold entry. rewrite decide_True by lia.
  unfold np_get, np_index, list_item in Hget.
  destruct (decide (0 ≤ i < Z.of_nat (length m))); simpl in Hget;
    [|by rewrite decide_False in Hget by lia].
  destruct (m !! Z.to_nat i) as [row|]; simpl in *; [|done].
  destruct (decide (0 ≤ j < Z.of_nat (length row))); simpl in Hget;
    [|by rewrite decide_False in Hget by lia].
  by destruct (row !! Z.to_nat j) as [v'|]; simplify_eq.
Qed.

(** The matrix of a sub-instance is the matrix of its parent, sliced at the
    selected nodes. *)
Lemma extract_tsp_subset_matrix (self : TSPDataExtractor.t) (n num_nodes : Z)
    (include_depot : bool) (data : TSPData.t) (i j node_i node_j : Z) :
  VRPData.dimension (TSPDataExtractor.vrp_data self) = Some n →
  TSPDataExtractor.extract_tsp_subset self num_nodes include_depot = Ok data →
  0 ≤ i → 0 ≤ j →
  specified_subset n num_nodes include_depot !! Z.to_nat i = Some node_i →
  specified_subset n num_nodes include_depot !! Z.to_nat j = Some node_j →
  ∃ v, entry (TSPData.distance_matrix data) i j = Some v
       ∧ entry (TSPDataExtractor.distance_matrix self) (node_i - 1) (node_j - 1)
         = Some v.
Proof.
  intros Hdim Hdata Hi Hj Hnode_i Hnode_j.
  unfold TSPDataExtractor.extract_tsp_subset in Hdata.
  rewrite Hdim in Hdata. cbn [number mbind result_bind] in Hdata.
  pose proof (select_nodes_specified n num_nodes include_depot) as Hsel.
  destruct (TSPDataExtractor.select_nodes n num_nodes include_depot)
    as [clamped selected]. simpl in Hsel. subst selected.
  apply bind_Ok in Hdata as (m0 & Hzeros & Hdata).
  apply bind_Ok in Hdata as (m & Hloop & [= <-]). simpl.
  destruct (slice_entries (TSPDataExtractor.distance_matrix self)
              (specified_subset n num_nodes include_depot) m0 m i j
              node_i node_j Hzeros) as (v & Hget & Hentry); try done.
  - rewrite <- Hloop. apply for_each_ext. intros [i' node_i'] m1.
    apply for_each_ext. by intros [j' node_j'] m2.
  - exists v. split; [done|].
    apply list_elem_of_lookup_2, elem_of_specified_subset in Hnode_i.
    apply list_elem_of_lookup_2, elem_of_specified_subset in Hnode_j.
    apply np_get_entry; [lia|lia|done].
Qed.

(** C5, as stated, fails for an instance without any node: with the depot
    asked for, node 1 is selected all the same and slicing the empty matrix
    raises [IndexError]. *)
Lemma extract_depot_from_empty_instance :
  ∃ self,
    TSPDataExtractor.__init__ "empty.vrp" empty_vrp_file = Ok self
    ∧ VRPData.dimension (TSPDataExtractor.vrp_data self) = Some 0
    ∧ TSPDataExtractor.extract_tsp_subset self 15 true = Raise IndexError.
Proof. eexists. split; [vm_compute; reflexivity|]. by vm_compute. Qed.

(** C5 (amended). For every parsed instance of at least one node, every
    requested size [k] and depot flag, the extractor returns a sub-instance
    whose nodes are the depot followed by the first [k - 1] other node ids in
    ascending order when the depot is included, and the first [k] other node
    ids otherwise.  A size beyond the nodes there are is clamped: the
    sub-instance has [min k n] nodes with the depot (one at least) and
    [min k (n - 1)] without (none for a negative [k]).  The depot, when
    included, is at index 0, with its coordinate. *)
Theorem extract_tsp_subset_selects `{Builtins} (vrp_file : string)
    (lines : list string) (self : TSPDataExtractor.t) (n k : Z)
    (include_depot : bool) :
  TSPDataExtractor.__init__ vrp_file lines = Ok self →
  VRPData.dimension (TSPDataExtractor.vrp_data self) = Some n → 1 ≤ n →
  ∃ data,
    TSPDataExtractor.extract_tsp_subset self k include_depot = Ok data
    ∧ TSPData.original_vrp_nodes data
      = Some (specified_subset n k include_depot)
    ∧ TSPData.dimension data
      = Z.of_nat (length (specified_subset n k include_depot))
    ∧ TSPData.dimension data
      = (if include_depot then Z.max 1 (Z.min k n)
         else Z.max 0 (Z.min k (n - 1)))
    ∧ (include_depot = true →
       specified_subset n k include_depot !! 0%nat = Some 1
       ∧ TSPData.coordinates data !! 0
         = VRPData.node_coords (TSPDataExtractor.vrp_data self) !! 1).
Proof.
  intros Hinit Hdim Hn.
  destruct (extractor_matrix _ _ _ n Hinit Hdim) as (_ & Hsq & _).
  destruct (extract_tsp_subset_total self n k include_depot Hdim Hsq)
    as [data Hdata].
  { intros id Hid. apply elem_of_specified_subset in Hid. lia. }
  exists data. split; [done|].
  destruct (extract_tsp_subset_Ok self n k include_depot data Hdim Hdata)
    as (Hnodes & Hlen & _ & Hcoords).
  split; [done|]. split; [done|]. split.
  - rewrite Hlen, specified_subset_length. destruct include_depot; lia.
  - intros ->. split; [done|].
    rewrite Hcoords by (rewrite specified_subset_length; lia). done.
Qed.

Lemma extract_tsp_subset_selects_witness :
  ∃ self,
    TSPDataExtractor.__init__ "square.vrp" square_vrp_file = Ok self
    ∧ ∃ data,
        TSPDataExtractor.extract_tsp_subset self 3 true = Ok data
        ∧ TSPData.original_vrp_nodes data = Some [1; 2; 3]
        ∧ TSPData.dimension data = 3
        ∧ TSPData.dimension data = 3
        ∧ (true = true →
           [1; 2; 3] !! 0%nat = Some 1
           ∧ TSPData.coordinates data !! 0
             = VRPData.node_coords (TSPDataExtractor.vrp_data self) !! 1).
Proof.
  eexists. split; [vm_compute; reflexivity|].
  eapply (extract_tsp_subset_selects "square.vrp" square_vrp_file _ 4 3 true);
    [vm_compute; reflexivity | reflexivity | lia].
Defined.

(** The node ids of a sub-instance are node ids of its parent: the depot is
    not extracted from an instance without node. *)
Lemma extract_tsp_subset_valid_ids `{Builtins} (vrp_file : string)
    (lines : list string) (self : TSPDataExtractor.t) (n k : Z)
    (include_depot : bool) (data : TSPData.t) :
  TSPDataExtractor.__init__ vrp_file lines = Ok self →
  VRPData.dimension (TSPDataExtractor.vrp_data self) = Some n →
  TSPDataExtractor.extract_tsp_subset self k include_depot = Ok data →
  ∀ id, id ∈ specified_subset n k include_depot → 1 ≤ id ≤ n.
Proof.
  intros Hinit Hdim Hdata id Hid.
  destruct (extractor_matrix _ _ _ n Hinit Hdim) as (Hn & Hsq & _).
  apply elem_of_specified_subset in Hid as [? [[-> ->]|?]]; [|lia].
  destruct (decide (n = 0)) as [->|]; [|lia].
  destruct Hsq as (_ & Hrows & _). apply nil_length_inv in Hrows.
  rewrite (extract_depot_of_nothing self k Hdim Hrows) in Hdata. done.
Qed.

(** C9. For every sub-instance extracted from a parsed instance, the table of
    original nodes is a bijection between the indices below the size of the
    sub-instance and the selected node ids: every index has a node id, which
    is a node id of the parent; no node id sits at two indices; every selected
    node id sits at an index. *)
Theorem original_nodes_bijection `{Builtins} (vrp_file : string)
    (lines : list string) (self : TSPDataExtractor.t) (n k : Z)
    (include_depot : bool) (data : TSPData.t) :
  TSPDataExtractor.__init__ vrp_file lines = Ok self →
  VRPData.dimension (TSPDataExtractor.vrp_data self) = Some n →
  TSPDataExtractor.extract_tsp_subset self k include_depot = Ok data →
  ∃ nodes,
    TSPData.original_vrp_nodes data = Some nodes
    ∧ nodes = specified_subset n k include_depot
    ∧ (∀ i, 0 ≤ i < TSPData.dimension data →
         ∃ id, nodes !! Z.to_nat i = Some id ∧ 1 ≤ id ≤ n)
    ∧ (∀ (i j : nat) id,
         nodes !! i = Some id → nodes !! j = Some id → i = j)
    ∧ (∀ id, id ∈ nodes →
         ∃ i, 0 ≤ i < TSPData.dimension data ∧ nodes !! Z.to_nat i = Some id).
Proof.
  intros Hinit Hdim Hdata.
  destruct (extract_tsp_subset_Ok self n k include_depot data Hdim Hdata)
    as (Hnodes & Hlen & _ & _).
  pose proof (extract_tsp_subset_valid_ids _ _ _ _ _ _ _ Hinit Hdim Hdata)
    as Hvalid.
  exists (specified_subset n k include_depot).
  split; [done|]. split; [done|]. split; [|split].
  - intros i Hi. rewrite Hlen in Hi.
    destruct (lookup_lt_is_Some_2 (specified_subset n k include_depot)
                (Z.to_nat i)) as [id Hid]; [lia|].
    exists id. split; [done|].
    apply list_elem_of_lookup_2 in Hid. by apply Hvalid.
  - intros i j id Hi Hj.
    by apply (NoDup_lookup _ i j id (NoDup_specified_subset n k include_depot)).
  - intros id [i Hi]%list_elem_of_lookup_1. exists (Z.of_nat i).
    rewrite Nat2Z.id. split; [|done].
    apply lookup_lt_Some in Hi. lia.
Qed.

Lemma original_nodes_bijection_witness :
  ∃ self data,
    TSPDataExtractor.__init__ "square.vrp" square_vrp_file = Ok self
    ∧ TSPDataExtractor.extract_tsp_subset self 3 false = Ok data
    ∧ ∃ nodes,
        TSPData.original_vrp_nodes data = Some nodes
        ∧ nodes = [2; 3; 4]
        ∧ (∀ i, 0 ≤ i < TSPData.dimension data →
             ∃ id, nodes !! Z.to_nat i = Some id ∧ 1 ≤ id ≤ 4)
        ∧ (∀ (i j : nat) id,
             nodes !! i = Some id → nodes !! j = Some id → i = j)
        ∧ (∀ id, id ∈ nodes →
             ∃ i, 0 ≤ i < TSPData.dimension data
                  ∧ nodes !! Z.to_nat i = Some id).
Proof.
  eexists _, _. split; [vm_compute; reflexivity|].
  split; [vm_compute; reflexivity|].
  eapply (original_nodes_bijection "square.vrp" square_vrp_file _ 4 3 false);
    [vm_compute; reflexivity | reflexivity | vm_compute; reflexivity].
Defined.

(** ** Coordinates of every node *)

Lemma load_tsp_instance_Ok `{Builtins} (lines : list string) (data : TSPData.t) :
  load_tsp_instance lines = Ok data →
  load_tsp_matrix (TSPData.dimension data) (TSPData.coordinates data)
  = Ok (TSPData.distance_matrix data)
  ∧ load_tsp_lines lines "" 0 ∅ false
    = Ok (TSPData.name data, TSPData.dimension data, TSPData.coordinates data).
Proof.
  unfold load_tsp_instance. intros Hload.
  apply bind_Ok in Hload as ([[name n] coords] & Hlines & Hload).
  apply bind_Ok in Hload as (m & Hm & [= <-]). by simpl.
Qed.

(** C8, as stated, fails for each of the three producers: a TSP file of one
    node without coordinate line is loaded; a file that announces three nodes
    and gives two coordinates is parsed; the sub-instance of an instance of
    one node without coordinate is extracted. *)
Lemma coordinates_can_be_missing :
  (∃ data, load_tsp_instance single_tsp_file = Ok data
           ∧ ¬ has_all_coordinates data)
  ∧ (∃ self data, VRPDataReader.parse gap_vrp_file = Ok (self, data)
                  ∧ ¬ parsed_has_all_coordinates data)
  ∧ (∃ self data,
       TSPDataExtractor.__init__ "single.vrp" single_vrp_file = Ok self
       ∧ TSPDataExtractor.extract_tsp_subset self 1 true = Ok data
       ∧ ¬ has_all_coordinates data).
Proof.
  split; [|split].
  - eexists. split; [vm_compute; reflexivity|].
    intros Hall. by destruct (Hall 0 ltac:(by vm_compute)).
  - eexists _, _. split; [vm_compute; reflexivity|].
    intros Hall. by destruct (Hall 3 1 eq_refl ltac:(lia)).
  - eexists _, _. split; [vm_compute; reflexivity|].
    split; [vm_compute; reflexivity|].
    intros Hall. by destruct (Hall 0 ltac:(by vm_compute)).
Qed.

(** C8 (amended). A record returned by the loader whose dimension [N] is not
    1, and a sub-instance extracted from a parsed instance whose dimension is
    not 1, have a coordinate entry for every node index in [0, N).  The
    dictionary of a parsed instance whose dimension is not 1 has a coordinate
    for each of its node ids once the distance matrix of its reader is
    built. *)
Theorem coordinates_complete `{Builtins} :
  (∀ lines data,
     load_tsp_instance lines = Ok data → TSPData.dimension data ≠ 1 →
     has_all_coordinates data)
  ∧ (∀ vrp_file lines self n k include_depot data,
       TSPDataExtractor.__init__ vrp_file lines = Ok self →
       VRPData.dimension (TSPDataExtractor.vrp_data self) = Some n → n ≠ 1 →
       TSPDataExtractor.extract_tsp_subset self k include_depot = Ok data →
       has_all_coordinates data)
  ∧ (∀ lines self data n m,
       VRPDataReader.parse lines = Ok (self, data) →
       VRPDataReader.compute_distance_matrix self = Ok m →
       VRPData.dimension data = Some n → n ≠ 1 →
       parsed_has_all_coordinates data).
Proof.
  split; [|split].
  - intros lines data Hload Hn i Hi.
    apply load_tsp_instance_Ok in Hload as [Hm _].
    apply (load_tsp_matrix_coords _ _ _ Hm); lia.
  - intros vrp_file lines self n k include_depot data Hinit Hdim Hn Hdata i Hi.
    destruct (extractor_matrix _ _ _ n Hinit Hdim) as (_ & _ & Hcoords).
    destruct (extract_tsp_subset_Ok self n k include_depot data Hdim Hdata)
      as (_ & Hlen & _ & Hlookup).
    rewrite Hlen in Hi. rewrite Hlookup by done.
    destruct (lookup_lt_is_Some_2 (specified_subset n k include_depot)
                (Z.to_nat i)) as [id Hid]; [lia|].
    rewrite Hid. simpl. apply list_elem_of_lookup_2 in Hid.
    pose proof (extract_tsp_subset_valid_ids _ _ _ _ _ _ _ Hinit Hdim Hdata
                  id Hid) as Hrange.
    apply Hcoords; lia.
  - intros lines self data n m Hparse Hm Hdim Hn n' i Hdim' Hi.
    assert (n' = n) as -> by congruence.
    apply parse_data in Hparse as (Hd & Hc & _). rewrite Hc.
    rewrite Hd in Hdim.
    apply (compute_distance_matrix_coords _ _ n Hm Hdim); lia.
Qed.

Lemma coordinates_complete_witness :
  ∃ data, load_tsp_instance tie_file = Ok data ∧ has_all_coordinates data.
Proof.
  eexists. split; [vm_compute; reflexivity|].
  apply (proj1 coordinates_complete tie_file); [vm_compute; reflexivity|].
  by vm_compute.
Defined.

(** ** The successor map *)

Section edges.
Context (self : MIPTSPSolver.t) (x : MIPTSPSolver.solution).

Local Abbreviation n := (MIPTSPSolver.n self).
Local Abbreviation row_step := (λ (i : Z) (edges : gmap Z Z) (j : Z),
  if decide (i ≠ j) then
    if MIPTSPSolver.chosen x i j then <[i := j]> edges else edges
  else edges).

(** The columns of row [i] that hold a used edge. *)
Local Abbreviation used_from := (λ (i : Z) (js : list Z),
  filter (λ j, i ≠ j ∧ MIPTSPSolver.chosen x i j = true) js).

Lemma row_lookup (i : Z) (js : list Z) (edges : gmap Z Z) (i' : Z) :
  foldl (row_step i) edges js !! i'
  = if decide (i' = i)
    then match last (used_from i js) with
         | Some j => Some j
         | None => edges !! i
         end
    else edges !! i'.
Proof.
  revert edges. induction js as [|j js IH] using rev_ind; intros edges.
  - simpl. by case_decide; subst.
  - rewrite foldl_app. cbn [foldl]. rewrite filter_app.
    destruct (decide (i ≠ j)) as [Hne|Heq].
    + destruct (MIPTSPSolver.chosen x i j) eqn:Hch.
      * rewrite (filter_cons_True _ j) by done. rewrite filter_nil, last_snoc.
        destruct (decide (i' = i)) as [->|Hne'];
          [by rewrite lookup_insert_eq|].
        rewrite lookup_insert_ne by done. by rewrite IH.
      * rewrite (filter_cons_False _ j) by (intros [_ ?]; congruence).
        rewrite filter_nil, app_nil_r. apply IH.
    + rewrite (filter_cons_False _ j) by (intros [? _]; done).
      rewrite filter_nil, app_nil_r. apply IH.
Qed.

Lemma rows_lookup (rows js : list Z) (edges : gmap Z Z) (i : Z) :
  foldl (λ edges i, foldl (row_step i) edges js) edges rows !! i
  = if decide (i ∈ rows)
    then match last (used_from i js) with
         | Some j => Some j
         | None => edges !! i
         end
    else edges !! i.
Proof.
  revert edges. induction rows as [|r rows IH]; intros edges.
  - simpl. by repeat case_decide.
  - cbn [foldl]. rewrite IH, !row_lookup.
    destruct (decide (i = r)) as [->|Hne].
    + destruct (decide (r ∈ rows)); destruct (decide (r ∈ r :: rows)) as [|Hout];
        try (by destruct (last _)); exfalso; apply Hout; left.
    + destruct (decide (i ∈ rows)) as [Hin|Hout];
        destruct (decide (i ∈ r :: rows)) as [Hin'|Hout']; try done.
      * exfalso; apply Hout'; by right.
      * apply elem_of_cons in Hin' as [?|?]; done.
Qed.

(** The successor of [i] is the last column of row [i] that holds a used
    edge. *)
Lemma solution_edges_lookup (i : Z) :
  MIPTSPSolver.solution_edges self x !! i
  = if decide (0 ≤ i < n) then last (used_from i (range0 n)) else None.
Proof.
  unfold MIPTSPSolver.solution_edges. rewrite rows_lookup.
  unfold range0. rewrite lookup_empty.
  destruct (decide (i ∈ range 0 n)) as [Hin|Hout].
  - rewrite decide_True by by apply elem_of_range. by destruct (last _).
  - rewrite decide_False; [done|]. by rewrite <- elem_of_range.
Qed.

Lemma solution_edges_Some (i j : Z) :
  MIPTSPSolver.solution_edges self x !! i = Some j → 0 ≤ i < n ∧ uses n x i j.
Proof.
  rewrite solution_edges_lookup. case_decide as Hi; [|done].
  intros Hlast. split; [done|].
  apply last_Some_elem_of in Hlast.
  apply list_elem_of_filter in Hlast as [[Hne Hch] Hj%elem_of_range].
  by split.
Qed.

Lemma solution_edges_None (i : Z) :
  (∀ j, ¬ uses n x i j) → MIPTSPSolver.solution_edges self x !! i = None.
Proof.
  intros Hnone. destruct (MIPTSPSolver.solution_edges self x !! i) as [j|] eqn:He;
    [|done].
  apply solution_edges_Some in He as [_ Hj]. by destruct (Hnone j).
Qed.

Lemma solution_edges_unique (i j : Z) :
  0 ≤ i < n → uses n x i j → (∀ j', uses n x i j' → j' = j) →
  MIPTSPSolver.solution_edges self x !! i = Some j.
Proof.
  intros Hi Hj Honly. rewrite solution_edges_lookup, decide_True by done.
  destruct Hj as (Hj & Hne & Hch).
  assert (Hin : j ∈ used_from i (range0 n)).
  { apply list_elem_of_filter. split; [done|]. by apply elem_of_range. }
  cbv beta in *.
  destruct (last (filter _ (range0 n))) as [j'|] eqn:Hlast.
  - f_equal. apply Honly. apply last_Some_elem_of in Hlast.
    apply list_elem_of_filter in Hlast as [[Hne' Hch'] Hj'%elem_of_range].
    by split.
  - apply last_None in Hlast. rewrite Hlast in Hin.
    by apply elem_of_nil in Hin.
Qed.

End edges.

(** C6. For every assignment in which no edge is used from node 0 — no
    entry [(0, j)], or none with a value above one half — the tour
    reconstructor returns the empty tour. *)
Theorem extract_tour_without_depot_edge (self : MIPTSPSolver.t)
    (x : MIPTSPSolver.solution) :
  (∀ j, ¬ uses (MIPTSPSolver.n self) x 0 j) →
  MIPTSPSolver._extract_tour self x = [].
Proof.
  intros Hnone. unfold MIPTSPSolver._extract_tour.
  by rewrite decide_True by by apply solution_edges_None.
Qed.

(** ** A single cycle through every node *)

Lemma follow_path_cycle (edges : gmap Z Z) (cycle : list Z) :
  NoDup cycle →
  (∀ (k : nat) i, cycle !! k = Some i →
     edges !! i = cycle !! (S k `mod` length cycle)%nat) →
  ∀ (steps : list Z) (k : nat) (current : Z),
    (length cycle ≤ length steps + k)%nat → (k ≤ length cycle)%nat →
    cycle !! (k `mod` length cycle)%nat = Some current →
    MIPTSPSolver.follow_path edges steps current (take k cycle)
      (list_to_set (take k cycle))
    = (cycle, list_to_set cycle).
Proof.
  intros Hnodup Hedges steps.
  induction steps as [|step steps IH]; intros k current Hlen Hk Hcur.
  - simpl in *. assert (k = length cycle) as -> by lia. by rewrite firstn_all.
  - cbn [MIPTSPSolver.follow_path]. cbn [length] in Hlen.
    destruct (decide (k = length cycle)) as [->|Hne].
    + rewrite firstn_all. rewrite decide_True; [done|].
      apply elem_of_list_to_set. by apply list_elem_of_lookup_2 in Hcur.
    + rewrite Nat.mod_small in Hcur by lia.
      assert (Hfresh : current ∉ (list_to_set (take k cycle) : gset Z)).
      { rewrite elem_of_list_to_set. intros [k' Hk']%list_elem_of_lookup_1.
        pose proof (lookup_lt_Some _ _ _ Hk') as Hlt.
        rewrite length_take in Hlt. rewrite lookup_take_lt in Hk' by lia.
        pose proof (NoDup_lookup _ _ _ _ Hnodup Hk' Hcur). lia. }
      rewrite decide_False by done.
      assert (Htake : take k cycle ++ [current] = take (S k) cycle)
        by (by rewrite (take_S_r _ _ _ Hcur)).
      assert (Hset : (list_to_set (take k cycle) ∪ {[current]} : gset Z)
                     = list_to_set (take (S k) cycle)).
      { rewrite <- Htake, list_to_set_app_L. simpl.
        by rewrite union_empty_r_L. }
      rewrite Htake, Hset, (Hedges k current Hcur).
      destruct (lookup_lt_is_Some_2 cycle (S k `mod` length cycle)%nat)
        as [next Hnext]; [apply Nat.mod_upper_bound; lia|].
      rewrite Hnext. apply IH; [lia|lia|done].
Qed.

Lemma NoDup_bounded_length (n : Z) (xs : list Z) :
  NoDup xs → (∀ i, i ∈ xs → 0 ≤ i < n) → (length xs ≤ Z.to_nat n)%nat.
Proof.
  intros Hnodup Hin.
  assert (Hsub : xs ⊆+ range0 n).
  { apply NoDup_submseteq; [done|]. intros i Hi. by apply elem_of_range, Hin. }
  apply submseteq_length in Hsub. unfold range0 in Hsub.
  rewrite length_range in Hsub. lia.
Qed.

Section depot_cycle.
Context (self : MIPTSPSolver.t) (x : MIPTSPSolver.solution) (cycle : list Z).
Context (Hcycle : depot_cycle (MIPTSPSolver.n self) x cycle).

Lemma depot_cycle_first : cycle !! 0%nat = Some 0.
Proof. destruct Hcycle as (_ & Hhead & _). by destruct cycle. Qed.

Lemma depot_cycle_length :
  (0 < length cycle ≤ Z.to_nat (MIPTSPSolver.n self))%nat.
Proof.
  pose proof depot_cycle_first as H0. apply lookup_lt_Some in H0.
  destruct Hcycle as (Hnodup & _ & Hin & _).
  split; [done|]. by apply NoDup_bounded_length.
Qed.

Lemma depot_cycle_edges (k : nat) (i : Z) :
  cycle !! k = Some i →
  MIPTSPSolver.solution_edges self x !! i
  = cycle !! (S k `mod` length cycle)%nat.
Proof.
  intros Hk. pose proof depot_cycle_length as Hlen.
  destruct Hcycle as (Hnodup & _ & Hin & Hnext).
  destruct (lookup_lt_is_Some_2 cycle (S k `mod` length cycle)%nat)
    as [j Hj]; [by apply Nat.mod_upper_bound; lia|].
  rewrite Hj. destruct (Hnext k i j Hk Hj) as [Huses Honly].
  apply solution_edges_unique; [|done..].
  apply Hin. by apply list_elem_of_lookup_2 in Hk.
Qed.

(** A cycle has two nodes at least: no edge leads from a node to itself. *)
Lemma depot_cycle_long : (1 < length cycle)%nat.
Proof.
  pose proof depot_cycle_first as H0.
  destruct Hcycle as (_ & _ & _ & Hnext).
  destruct cycle as [|c0 [|c1 rest]]; [done| |simpl; lia].
  destruct (Hnext 0%nat 0 0 H0 H0) as [(_ & Hne & _) _]. done.
Qed.

(** The walk of the reconstructor from node 0 is the cycle. *)
Lemma depot_cycle_path :
  MIPTSPSolver.follow_path (MIPTSPSolver.solution_edges self x)
    (range0 (MIPTSPSolver.n self)) 0 [] ∅
  = (cycle, list_to_set cycle).
Proof.
  pose proof depot_cycle_length as Hlen.
  pose proof (follow_path_cycle (MIPTSPSolver.solution_edges self x) cycle
                (proj1 Hcycle) depot_cycle_edges
                (range0 (MIPTSPSolver.n self)) 0 0) as Hpath.
  rewrite take_0 in Hpath. apply Hpath.
  - unfold range0. rewrite length_range. lia.
  - lia.
  - rewrite Nat.mod_small by lia. apply depot_cycle_first.
Qed.

End depot_cycle.

(** ** Subtour repair *)

Lemma set_min_None (s : gset Z) : MIPTSPSolver.set_min s = None ↔ s = ∅.
Proof.
  unfold MIPTSPSolver.set_min. split.
  - destruct (elements s) eqn:He; [|done]. intros _.
    by apply elements_empty_inv, leibniz_equiv in He.
  - intros ->. by rewrite elements_empty.
Qed.

Lemma foldr_min_elem (z : Z) (zs : list Z) :
  foldr Z.min z zs ∈ z :: zs ∧ ∀ y, y ∈ z :: zs → foldr Z.min z zs ≤ y.
Proof.
  induction zs as [|a zs [IHin IHle]]; simpl.
  - split; [left|]. intros y ->%list_elem_of_singleton. lia.
  - split.
    + destruct (Z.min_spec a (foldr Z.min z zs)) as [[_ ->]|[_ ->]].
      * right; left.
      * apply elem_of_cons in IHin as [->|?]; [left|right; by right].
    + intros y [->|[->|Hy]%elem_of_cons]%elem_of_cons.
      * specialize (IHle z ltac:(left)). lia.
      * lia.
      * specialize (IHle y ltac:(by right)). lia.
Qed.

Lemma set_min_Some (s : gset Z) (least : Z) :
  MIPTSPSolver.set_min s = Some least →
  least ∈ s ∧ ∀ z, z ∈ s → least ≤ z.
Proof.
  unfold MIPTSPSolver.set_min. destruct (elements s) as [|z zs] eqn:He; [done|].
  intros [= <-]. destruct (foldr_min_elem z zs) as [Hin Hle].
  rewrite <- He in Hin, Hle. split.
  - by apply elem_of_elements.
  - intros y Hy. apply Hle. by apply elem_of_elements.
Qed.

Section repair.
Context (edges : gmap Z Z).

Lemma follow_cycle_stop (current : option Z) (subtour : list Z)
    (unvisited : gset Z) :
  ∃ walk : list Z,
    (subtour, unvisited) = (subtour ++ walk, unvisited ∖ list_to_set walk)
    ∧ NoDup walk ∧ (∀ z, z ∈ walk → z ∈ unvisited)
    ∧ follows edges walk ∧ (walk = [] ∨ head walk = current)
    ∧ walk = [].
Proof.
  exists []. simpl. rewrite app_nil_r, difference_empty_L.
  split; [done|]. split; [apply NoDup_nil_2|].
  split; [by intros z Hz%elem_of_nil|].
  split; [by intros k a b Hk|]. split; [by left|done].
Qed.

(** One walk of the inner loop: the nodes it appends are distinct, were
    unvisited and are removed from the unvisited; each is the successor of
    the one before; the walk begins at [current]. *)
Lemma follow_cycle_walk (start : Z) (fuel : nat) :
  ∀ (current : option Z) (subtour : list Z) (unvisited : gset Z),
    ∃ walk,
      MIPTSPSolver.follow_cycle edges start fuel current subtour unvisited
      = (subtour ++ walk, unvisited ∖ list_to_set walk)
      ∧ NoDup walk
      ∧ (∀ z, z ∈ walk → z ∈ unvisited)
      ∧ follows edges walk
      ∧ (walk = [] ∨ head walk = current)
      ∧ (∀ c, current = Some c → c ∈ unvisited → fuel ≠ O → walk ≠ []).
Proof.
  induction fuel as [|fuel IH]; intros current subtour unvisited.
  - destruct (follow_cycle_stop current subtour unvisited)
      as (walk & ? & ? & ? & ? & ? & ->).
    exists []. by repeat (split; [done|]).
  - pose proof (follow_cycle_stop current subtour unvisited) as Hstop.
    destruct current as [c|]; cbn [MIPTSPSolver.follow_cycle].
    2:{ destruct Hstop as (walk & ? & ? & ? & ? & ? & ->).
        exists []. by repeat (split; [done|]). }
    destruct (decide (c ∈ unvisited)) as [Hc|Hc].
    2:{ destruct Hstop as (walk & ? & ? & ? & ? & ? & ->).
        exists []. repeat (split; [done|]). by intros c' [= <-]. }
    assert (Hone : ∃ walk : list Z,
              (subtour ++ [c], unvisited ∖ {[c]})
              = (subtour ++ walk, unvisited ∖ list_to_set walk)
              ∧ NoDup walk ∧ (∀ z, z ∈ walk → z ∈ unvisited)
              ∧ follows edges walk ∧ (walk = [] ∨ head walk = Some c)
              ∧ (∀ c0, Some c = Some c0 → c0 ∈ unvisited → S fuel ≠ O →
                   walk ≠ [])).
    { exists [c]. simpl. rewrite union_empty_r_L.
      split; [done|]. split; [apply NoDup_singleton|].
      split; [by intros z ->%list_elem_of_singleton|].
      split; [by intros [|k] a b Ha Hb|]. split; [by right|done]. }
    destruct (decide (edges !! c = Some start)) as [_|Hnot]; [done|].
    destruct (edges !! c) as [c'|] eqn:Hnext; [|done].
    destruct (decide (c' ∈ unvisited ∖ {[c]})) as [Hc'|_]; [|done].
    destruct (IH (Some c') (subtour ++ [c]) (unvisited ∖ {[c]}))
      as (walk & -> & Hnodup & Hin & Hfollows & Hhead & Hnonempty).
    exists (c :: walk).
    split; [rewrite <- app_assoc; simpl; f_equal;
            by rewrite difference_difference_l_L|].
    split.
    { apply NoDup_cons. split; [|done]. intros Hcw. apply Hin in Hcw.
      apply elem_of_difference in Hcw as [_ Hcw]. apply Hcw.
      by apply elem_of_singleton. }
    split.
    { intros z [->|Hz]%elem_of_cons; [done|]. apply Hin in Hz.
      by apply elem_of_difference in Hz as [? _]. }
    split.
    { intros [|k] a b Ha Hb; simpl in *.
      - injection Ha as <-. destruct Hhead as [->|Hhead]; [done|].
        destruct walk as [|w walk]; [done|]. simpl in *. congruence.
      - by apply (Hfollows k). }
    split; [by right|done].
Qed.

Lemma follow_cycle_empty (start : Z) (fuel : nat) (current : option Z)
    (subtour : list Z) :
  MIPTSPSolver.follow_cycle edges start fuel current subtour ∅ = (subtour, ∅).
Proof.
  destruct fuel, current as [c|]; simpl; try done;
    destruct (decide (c ∈ (∅ : gset Z))) as [Hc|_]; try done;
    by apply not_elem_of_empty in Hc.
Qed.

(** The number of turns of the inner loop is bounded by the number of
    unvisited nodes: more fuel changes nothing. *)
Lemma follow_cycle_fuel (start : Z) (fuel fuel' : nat) :
  ∀ (current : option Z) (subtour : list Z) (unvisited : gset Z),
    (size unvisited ≤ fuel)%nat → (size unvisited ≤ fuel')%nat →
    MIPTSPSolver.follow_cycle edges start fuel current subtour unvisited
    = MIPTSPSolver.follow_cycle edges start fuel' current subtour unvisited.
Proof.
  revert fuel'. induction fuel as [|fuel IH];
    intros fuel' current subtour unvisited Hfuel Hfuel'.
  - assert (unvisited = ∅) as ->
      by (apply leibniz_equiv, size_empty_inv; lia).
    by rewrite !follow_cycle_empty.
  - destruct fuel' as [|fuel'].
    { assert (unvisited = ∅) as ->
        by (apply leibniz_equiv, size_empty_inv; lia).
      by rewrite !follow_cycle_empty. }
    destruct current as [c|]; cbn [MIPTSPSolver.follow_cycle]; [|done].
    destruct (decide (c ∈ unvisited)) as [Hc|Hc]; [|done].
    destruct (decide (edges !! c = Some start)); [done|].
    destruct (edges !! c) as [c'|]; [|done].
    destruct (decide (c' ∈ unvisited ∖ {[c]})); [|done].
    assert (size (unvisited ∖ {[c]}) < size unvisited)%nat.
    { by apply subset_size, subset_difference_elem_of. }
    apply IH; lia.
Qed.

(** The subtours collected by the outer loop from a set of unvisited nodes:
    each has two nodes at least, all distinct and unvisited before, and
    follows the successor map; no node is in two of them; one that holds
    node 0 begins with it. *)
Lemma find_subtours_collected (fuel : nat) :
  ∀ (unvisited : gset Z) (subtours : list (list Z)),
    ∃ collected,
      MIPTSPSolver.find_subtours edges fuel unvisited subtours
      = subtours ++ collected
      ∧ Forall (λ st, (1 < length st)%nat ∧ NoDup st ∧ follows edges st
                      ∧ (∀ z, z ∈ st → z ∈ unvisited)
                      ∧ (0 ∈ st → head st = Some 0)) collected
      ∧ ∀ (i j : nat) st1 st2 z,
          collected !! i = Some st1 → collected !! j = Some st2 →
          z ∈ st1 → z ∈ st2 → i = j.
Proof.
  induction fuel as [|fuel IH]; intros unvisited subtours.
  - exists []. simpl. rewrite app_nil_r. split; [done|]. split; [done|].
    by intros i j st1 st2 z Hi.
  - cbn [MIPTSPSolver.find_subtours].
    destruct (MIPTSPSolver.set_min unvisited) as [least|] eqn:Hmin.
    2:{ exists []. rewrite app_nil_r. split; [done|]. split; [done|].
        by intros i j st1 st2 z Hi. }
    apply set_min_Some in Hmin as [Hleast _].
    set (start := if decide (0 ∈ unvisited) then 0 else least).
    assert (Hstart : start ∈ unvisited) by (unfold start; by case_decide).
    destruct (follow_cycle_walk start (size unvisited) (Some start) [] unvisited)
      as (walk & -> & Hnodup & Hin & Hfollows & Hhead & Hnonempty).
    assert (Hsize : size unvisited ≠ O).
    { intros Hzero. apply size_empty_inv, leibniz_equiv in Hzero.
      rewrite Hzero in Hstart. by apply not_elem_of_empty in Hstart. }
    specialize (Hnonempty start eq_refl Hstart Hsize).
    destruct Hhead as [?|Hhead]; [done|].
    assert (Hdepot : 0 ∈ unvisited → 0 ∈ walk).
    { intros H0. unfold start in Hhead. rewrite decide_True in Hhead by done.
      destruct walk as [|w walk']; [done|]. injection Hhead as ->. left. }
    simpl.
    destruct (IH (unvisited ∖ list_to_set walk)
                (if decide (1 < length walk)%nat then subtours ++ [walk]
                 else subtours))
      as (collected & -> & Hall & Hdisjoint).
    assert (Hall' : Forall (λ st, (1 < length st)%nat ∧ NoDup st
                      ∧ follows edges st ∧ (∀ z, z ∈ st → z ∈ unvisited)
                      ∧ (0 ∈ st → head st = Some 0)) collected).
    { eapply Forall_impl; [exact Hall|]. simpl.
      intros st (? & ? & ? & Hst & ?). repeat (split; [done|]).
      split; [|done]. intros z Hz. apply Hst in Hz.
      by apply elem_of_difference in Hz as [? _]. }
    assert (Hfresh : ∀ st z, st ∈ collected → z ∈ walk → z ∉ st).
    { intros st z Hst Hz Hzst. rewrite Forall_forall in Hall.
      destruct (Hall st Hst) as (_ & _ & _ & Hsub & _).
      apply Hsub in Hzst. apply elem_of_difference in Hzst as [_ Hzst].
      apply Hzst. by apply elem_of_list_to_set. }
    destruct (decide (1 < length walk)%nat) as [Hlong|Hshort].
    + exists (walk :: collected). split; [by rewrite <- app_assoc|]. split.
      * apply Forall_cons. split; [|done]. repeat (split; [done|]).
        intros H0. unfold start in Hhead.
        destruct (decide (0 ∈ unvisited)) as [|Hno]; [done|].
        destruct Hno. by apply Hin.
      * intros [|i] [|j] st1 st2 z Hi Hj Hz1 Hz2; simpl in *.
        -- done.
        -- injection Hi as <-. apply list_elem_of_lookup_2 in Hj.
           by destruct (Hfresh st2 z Hj Hz1).
        -- injection Hj as <-. apply list_elem_of_lookup_2 in Hi.
           by destruct (Hfresh st1 z Hi Hz2).
        -- f_equal. by apply (Hdisjoint i j st1 st2 z).
    + exists collected. by repeat (split; [done|]).
Qed.

(** The number of turns of the outer loop is bounded likewise. *)
Lemma find_subtours_fuel (fuel fuel' : nat) :
  ∀ (unvisited : gset Z) (subtours : list (list Z)),
    (size unvisited ≤ fuel)%nat → (size unvisited ≤ fuel')%nat →
    MIPTSPSolver.find_subtours edges fuel unvisited subtours
    = MIPTSPSolver.find_subtours edges fuel' unvisited subtours.
Proof.
  revert fuel'. induction fuel as [|fuel IH];
    intros fuel' unvisited subtours Hfuel Hfuel'.
  - assert (unvisited = ∅) as ->
      by (apply leibniz_equiv, size_empty_inv; lia).
    by destruct fuel'.
  - destruct fuel' as [|fuel'].
    { assert (unvisited = ∅) as ->
        by (apply leibniz_equiv, size_empty_inv; lia).
      done. }
    cbn [MIPTSPSolver.find_subtours].
    destruct (MIPTSPSolver.set_min unvisited) as [least|] eqn:Hmin; [|done].
    apply set_min_Some in Hmin as [Hleast _].
    set (start := if decide (0 ∈ unvisited) then 0 else least).
    assert (Hstart : start ∈ unvisited) by (unfold start; by case_decide).
    destruct (follow_cycle_walk start (size unvisited) (Some start) [] unvisited)
      as (walk & -> & Hnodup & Hin & Hfollows & Hhead & Hnonempty).
    assert (Hsize : size unvisited ≠ O).
    { intros Hzero. apply size_empty_inv, leibniz_equiv in Hzero.
      rewrite Hzero in Hstart. by apply not_elem_of_empty in Hstart. }
    specialize (Hnonempty start eq_refl Hstart Hsize).
    destruct walk as [|w walk]; [done|].
    assert (size (unvisited ∖ list_to_set (w :: walk)) < size unvisited)%nat.
    { apply subset_size. split.
      - intros z Hz. by apply elem_of_difference in Hz as [? _].
      - intros Hsub. specialize (Hsub w (Hin w ltac:(left))).
        apply elem_of_difference in Hsub as [_ Hsub]. apply Hsub.
        apply elem_of_list_to_set. left. }
    apply IH; lia.
Qed.

End repair.

(** The first walk of the repair, from node 0 along a cycle that leads back
    to node 0, is that cycle. *)
Lemma follow_cycle_closed (edges : gmap Z Z) (cycle : list Z) (start : Z) :
  NoDup cycle → cycle !! 0%nat = Some start →
  (∀ (k : nat) i, cycle !! k = Some i →
     edges !! i = cycle !! (S k `mod` length cycle)%nat) →
  ∀ (fuel k : nat) (current : Z) (subtour : list Z) (unvisited : gset Z),
    (length cycle ≤ fuel + k)%nat →
    cycle !! k = Some current →
    (∀ z, z ∈ drop k cycle → z ∈ unvisited) →
    MIPTSPSolver.follow_cycle edges start fuel (Some current) subtour unvisited
    = (subtour ++ drop k cycle, unvisited ∖ list_to_set (drop k cycle)).
Proof.
  intros Hnodup Hstart Hedges fuel.
  induction fuel as [|fuel IH]; intros k current subtour unvisited Hfuel Hk Hin.
  - apply lookup_lt_Some in Hk. simpl in Hfuel. lia.
  - pose proof (lookup_lt_Some _ _ _ Hk) as Hlt.
    cbn [MIPTSPSolver.follow_cycle].
    rewrite decide_True
      by (apply Hin; rewrite (drop_S _ _ _ Hk); left).
    rewrite (Hedges k current Hk).
    destruct (decide (S k = length cycle)) as [Hlast|Hmore].
    + rewrite Hlast, Nat.Div0.mod_same, Hstart.
      rewrite decide_True by done.
      rewrite (drop_S _ _ _ Hk), Hlast, drop_all. simpl.
      by rewrite union_empty_r_L.
    + rewrite Nat.mod_small by lia.
      destruct (lookup_lt_is_Some_2 cycle (S k)) as [next Hnext]; [lia|].
      rewrite Hnext.
      assert (Hne : next ≠ start).
      { intros ->. pose proof (NoDup_lookup _ _ _ _ Hnodup Hnext Hstart). lia. }
      rewrite decide_False by congruence.
      assert (Hnc : next ≠ current).
      { intros ->. pose proof (NoDup_lookup _ _ _ _ Hnodup Hnext Hk). lia. }
      assert (Hnext_in : next ∈ unvisited ∖ {[current]}).
      { apply elem_of_difference. split.
        - apply Hin. rewrite (drop_S _ _ _ Hk). right.
          rewrite (drop_S _ _ _ Hnext). left.
        - by intros ->%elem_of_singleton. }
      rewrite decide_True by done.
      rewrite (IH (S k) next (subtour ++ [current]) (unvisited ∖ {[current]}));
        [|lia|done|].
      * rewrite (drop_S _ _ _ Hk), <- app_assoc. simpl. f_equal.
        apply leibniz_equiv. intros z.
        rewrite !elem_of_difference, elem_of_union, !elem_of_singleton.
        tauto.
      * intros z Hz. apply elem_of_difference. split.
        -- apply Hin. rewrite (drop_S _ _ _ Hk). by right.
        -- intros ->%elem_of_singleton.
           apply list_elem_of_lookup_1 in Hz as [j Hj].
           rewrite lookup_drop in Hj.
           pose proof (NoDup_lookup _ _ _ _ Hnodup Hj Hk). lia.
Qed.

Lemma longest_spec (first : list Z) (others : list (list Z)) :
  MIPTSPSolver.longest first others ∈ first :: others
  ∧ ∀ st, st ∈ first :: others →
          (length st ≤ length (MIPTSPSolver.longest first others))%nat.
Proof.
  unfold MIPTSPSolver.longest. revert first.
  induction others as [|st others IH]; intros first; simpl.
  - split; [left|]. by intros st ->%list_elem_of_singleton.
  - destruct (decide (length first < length st)%nat) as [Hlt|Hge].
    + destruct (IH st) as [Hin Hmax]. split; [by right|].
      intros st' [->|Hst']%elem_of_cons; [|by apply Hmax].
      specialize (Hmax st ltac:(left)). lia.
    + destruct (IH first) as [Hin Hmax]. split.
      * apply elem_of_cons in Hin as [->|?]; [left|right; by right].
      * intros st' [->|[->|Hst']%elem_of_cons]%elem_of_cons.
        -- apply Hmax. left.
        -- specialize (Hmax first ltac:(left)). lia.
        -- apply Hmax. by right.
Qed.

(** Rotating a list that holds [v] so that it begins at [v]. *)
Lemma rotate_to (v : Z) (xs : list Z) :
  v ∈ xs →
  ∃ before after,
    xs = before ++ v :: after ∧ (v ∉ before)
    ∧ drop (MIPTSPSolver.index_of v xs) xs ++ take (MIPTSPSolver.index_of v xs) xs
      = v :: after ++ before.
Proof.
  intros Hv. unfold MIPTSPSolver.index_of.
  destruct (list_find_elem_of (λ x, x = v) xs v Hv eq_refl) as [[idx v'] Hfind].
  rewrite Hfind. apply list_find_Some in Hfind as (Hidx & -> & Hfirst).
  exists (take idx xs), (drop (S idx) xs).
  split; [by rewrite (take_drop_middle _ _ _ Hidx)|]. split.
  - intros [j Hj]%list_elem_of_lookup_1.
    pose proof (lookup_lt_Some _ _ _ Hj) as Hlt. rewrite length_take in Hlt.
    rewrite lookup_take_lt in Hj by lia.
    by apply (Hfirst j v Hj ltac:(lia)).
  - by rewrite (drop_S _ _ _ Hidx).
Qed.

Lemma subtours_found_collected (self : MIPTSPSolver.t) (edges : gmap Z Z) :
  Forall (λ st, (1 < length st)%nat ∧ NoDup st ∧ follows edges st
                ∧ (∀ z, z ∈ st → 0 ≤ z < MIPTSPSolver.n self)
                ∧ (0 ∈ st → head st = Some 0))
         (subtours_found self edges)
  ∧ ∀ (i j : nat) st1 st2 z,
      subtours_found self edges !! i = Some st1 →
      subtours_found self edges !! j = Some st2 →
      z ∈ st1 → z ∈ st2 → i = j.
Proof.
  unfold subtours_found.
  destruct (find_subtours_collected edges
              (size (list_to_set (range0 (MIPTSPSolver.n self)) : gset Z))
              (list_to_set (range0 (MIPTSPSolver.n self))) [])
    as (collected & -> & Hall & Hdisjoint).
  simpl. split; [|done].
  eapply Forall_impl; [exact Hall|]. simpl.
  intros st (? & ? & ? & Hst & ?). repeat (split; [done|]).
  split; [|done]. intros z Hz%Hst.
  apply elem_of_list_to_set in Hz. by apply elem_of_range in Hz.
Qed.

(** The subtour that holds node 0 is the one the repair picks first. *)
Lemma depot_subtour_found (self : MIPTSPSolver.t) (edges : gmap Z Z)
    (st : list Z) :
  st ∈ subtours_found self edges → 0 ∈ st →
  ∃ i, list_find (λ subtour, 0 ∈ subtour) (subtours_found self edges)
       = Some (i, st).
Proof.
  intros Hst H0.
  destruct (list_find_elem_of (λ subtour, 0 ∈ subtour) _ st Hst H0)
    as [[i st'] Hfind].
  exists i. rewrite Hfind. apply list_find_Some in Hfind as (Hi & H0' & _).
  apply list_elem_of_lookup_1 in Hst as [j Hj].
  destruct (subtours_found_collected self edges) as [_ Hdisjoint].
  pose proof (Hdisjoint i j st' st 0 Hi Hj H0' H0) as ->. congruence.
Qed.

(** The repair returns the subtour that holds node 0, rotated to begin at
    node 0 and closed. *)
Lemma handle_subtours_depot (self : MIPTSPSolver.t) (edges : gmap Z Z)
    (st : list Z) :
  st ∈ subtours_found self edges → 0 ∈ st →
  ∃ before after,
    st = before ++ 0 :: after ∧ (0 ∉ before)
    ∧ MIPTSPSolver._handle_subtours self edges = (0 :: after ++ before) ++ [0].
Proof.
  intros Hst H0.
  destruct (depot_subtour_found self edges st Hst H0) as [i Hfind].
  destruct (rotate_to 0 st H0) as (before & after & Hsplit & Hbefore & Hrot).
  exists before, after. split; [done|]. split; [done|].
  unfold MIPTSPSolver._handle_subtours. fold (subtours_found self edges).
  cbv zeta. rewrite Hfind. by rewrite Hrot.
Qed.

Section depot_cycle_repair.
Context (self : MIPTSPSolver.t) (x : MIPTSPSolver.solution) (cycle : list Z).
Context (Hcycle : depot_cycle (MIPTSPSolver.n self) x cycle).

Local Abbreviation edges := (MIPTSPSolver.solution_edges self x).

(** The cycle through node 0 is among the subtours found. *)
Lemma depot_cycle_found : cycle ∈ subtours_found self edges.
Proof.
  pose proof (depot_cycle_length self x cycle Hcycle) as Hlen.
  pose proof (depot_cycle_long self x cycle Hcycle) as Hlong.
  pose proof (depot_cycle_first self x cycle Hcycle) as Hfirst.
  destruct Hcycle as (Hnodup & _ & Hin & _).
  unfold subtours_found.
  set (unvisited := list_to_set (range0 (MIPTSPSolver.n self)) : gset Z).
  assert (Hsize : size unvisited = Z.to_nat (MIPTSPSolver.n self)).
  { unfold unvisited. rewrite size_list_to_set by apply NoDup_range.
    unfold range0. rewrite length_range. f_equal. lia. }
  assert (Hunvisited : ∀ z, z ∈ cycle → z ∈ unvisited).
  { intros z Hz. apply elem_of_list_to_set, elem_of_range. by apply Hin. }
  assert (H0 : 0 ∈ unvisited)
    by (by apply Hunvisited; apply list_elem_of_lookup_2 in Hfirst).
  destruct (size unvisited) as [|fuel] eqn:Hfuel; [lia|].
  cbn [MIPTSPSolver.find_subtours].
  destruct (MIPTSPSolver.set_min unvisited) as [least|] eqn:Hmin.
  2:{ apply set_min_None in Hmin. rewrite Hmin in H0.
      by apply not_elem_of_empty in H0. }
  rewrite decide_True by done. rewrite Hfuel.
  rewrite (follow_cycle_closed edges cycle 0 Hnodup Hfirst
             (depot_cycle_edges self x cycle Hcycle) (S fuel) 0 0 [] unvisited);
    [|lia|done|by rewrite drop_0].
  rewrite drop_0. simpl. rewrite decide_True by done.
  destruct (find_subtours_collected edges fuel
              (unvisited ∖ list_to_set cycle) [cycle])
    as (collected & -> & _).
  left.
Qed.

Lemma handle_subtours_depot_cycle :
  MIPTSPSolver._handle_subtours self edges = cycle ++ [0].
Proof.
  pose proof (depot_cycle_first self x cycle Hcycle) as Hfirst.
  destruct (handle_subtours_depot self edges cycle depot_cycle_found)
    as (before & after & Hsplit & Hbefore & ->).
  { by apply list_elem_of_lookup_2 in Hfirst. }
  destruct before as [|b before].
  - by rewrite Hsplit, app_nil_r.
  - rewrite Hsplit in Hfirst. injection Hfirst as ->.
    destruct Hbefore. left.
Qed.

(** The reconstructor returns the cycle through node 0, closed, whether or
    not it visits every node. *)
Lemma extract_tour_depot_cycle :
  MIPTSPSolver._extract_tour self x = cycle ++ [0].
Proof.
  pose proof (depot_cycle_length self x cycle Hcycle) as Hlen.
  unfold MIPTSPSolver._extract_tour.
  assert (Hdepot : edges !! 0 ≠ None).
  { rewrite (depot_cycle_edges self x cycle Hcycle 0 0
               (depot_cycle_first self x cycle Hcycle)).
    destruct (lookup_lt_is_Some_2 cycle (1 `mod` length cycle)%nat)
      as [j Hj]; [by apply Nat.mod_upper_bound; lia|].
    by rewrite Hj. }
  rewrite decide_False by done.
  rewrite (depot_cycle_path self x cycle Hcycle).
  case_decide; [apply handle_subtours_depot_cycle|done].
Qed.

End depot_cycle_repair.

(** ** The tour of a single cycle *)

Lemma square_tour_encodes_cycle : encodes_cycle 4 square_tour [0; 1; 2; 3].
Proof.
  split; [done|]. split; [by apply (bool_decide_unpack (NoDup [0; 1; 2; 3]))|].
  split; [done|]. split.
  { intros i Hi. repeat (apply elem_of_cons in Hi as [->|Hi]; [lia|]).
    by apply elem_of_nil in Hi. }
  intros k i j Hi Hj.
  assert (Hcases : ∀ i j', MIPTSPSolver.chosen square_tour i j' = true →
            i ≠ j' → 0 ≤ i < 4 → 0 ≤ j' < 4 →
            (i, j') ∈ [(0, 1); (1, 2); (2, 3); (3, 0)]).
  { intros a b Hch Hne Ha Hb.
    assert (Ha' : a = 0 ∨ a = 1 ∨ a = 2 ∨ a = 3) by lia.
    assert (Hb' : b = 0 ∨ b = 1 ∨ b = 2 ∨ b = 3) by lia.
    destruct Ha' as [?|[?|[?|?]]], Hb' as [?|[?|[?|?]]]; subst a b;
      first [done | by vm_compute in Hch
            | repeat first [by left | right] ]. }
  destruct k as [|[|[|[|k]]]]; simpl in Hi, Hj; try done;
    injection Hi as <-; injection Hj as <-.
  all: split; [by (split; [lia|split; [lia|by vm_compute]])|].
  all: intros j' (Hj' & Hne & Hch);
    pose proof (Hcases _ j' Hch Hne ltac:(lia) Hj') as Hin;
    repeat (apply elem_of_cons in Hin as [Heq|Hin];
            [by simplify_eq|]);
    by apply elem_of_nil in Hin.
Qed.

(** C3. For every [N]-node assignment that encodes a single cycle through
    node 0 and every other node, the tour reconstructor returns that cycle
    closed: a sequence of length [N + 1] that starts and ends at node 0 and
    whose first [N] entries are the [N] nodes, each once.  For the four-node
    assignment 0 → 1 → 2 → 3 → 0 the tour is [[0; 1; 2; 3; 0]]; on the corners
    (0,0), (0,3), (4,3), (4,0) its edges are 3, 4, 3 and 4 long. *)
Theorem extract_tour_hamiltonian (self : MIPTSPSolver.t)
    (x : MIPTSPSolver.solution) (cycle : list Z) :
  encodes_cycle (MIPTSPSolver.n self) x cycle →
  MIPTSPSolver._extract_tour self x = cycle ++ [0]
  ∧ Z.of_nat (length (MIPTSPSolver._extract_tour self x))
    = MIPTSPSolver.n self + 1
  ∧ head (MIPTSPSolver._extract_tour self x) = Some 0
  ∧ last (MIPTSPSolver._extract_tour self x) = Some 0
  ∧ take (Z.to_nat (MIPTSPSolver.n self)) (MIPTSPSolver._extract_tour self x)
    ≡ₚ range0 (MIPTSPSolver.n self)
  ∧ (∃ data, load_tsp_instance square_tsp_file = Ok data
       ∧ MIPTSPSolver._extract_tour (MIPTSPSolver.__init__ data) square_tour
         = [0; 1; 2; 3; 0]
       ∧ TSPData.distance_matrix data
         = [[0; 3; 5; 4]; [3; 0; 4; 5]; [5; 4; 0; 3]; [4; 5; 3; 0]]).
Proof.
  intros [Hperm Hcycle].
  pose proof (extract_tour_depot_cycle self x cycle Hcycle) as ->.
  destruct Hcycle as (_ & Hhead & _).
  assert (Hlen : length cycle = Z.to_nat (MIPTSPSolver.n self)).
  { rewrite Hperm. unfold range0. rewrite length_range. f_equal. lia. }
  assert (Hpos : (0 < length cycle)%nat) by (destruct cycle; [done|simpl; lia]).
  split; [done|]. split; [rewrite length_app; simpl; lia|].
  split; [by destruct cycle|]. split; [by rewrite last_snoc|].
  split; [by rewrite <- Hlen, take_app_length|].
  eexists. split; [vm_compute; reflexivity|]. split; [|done].
  apply (extract_tour_depot_cycle _ _ [0; 1; 2; 3]).
  apply square_tour_encodes_cycle.
Qed.

Lemma extract_tour_hamiltonian_witness :
  encodes_cycle 4 square_tour [0; 1; 2; 3]
  ∧ MIPTSPSolver._extract_tour (MIPTSPSolver.Make [] 4) square_tour
    = [0; 1; 2; 3; 0].
Proof.
  split; [apply square_tour_encodes_cycle|].
  apply (extract_tour_hamiltonian (MIPTSPSolver.Make [] 4) square_tour
           [0; 1; 2; 3]).
  apply square_tour_encodes_cycle.
Defined.

(** The preference of the repair among the walks it collected.  For every
    successor map it returns: (1) the walk collected that holds node 0,
    rotated so that it begins at node 0 and closed by appending node 0;
    (2) when no walk collected holds node 0, the longest one, closed by
    appending its own first node; and the empty sequence when no walk of more
    than one node was collected.  A walk collected follows successors
    through distinct nodes; it need not come back to its first node.  When
    the edges used lead from node 0 along a cycle back to node 0, that cycle,
    closed, is what the repair and the reconstructor return.  For the two
    cycles 0 → 1 → 0 and 2 → 3 → 2 on four nodes the tour returned is
    [[0; 1; 0]]. *)
Theorem handle_subtours_preference (self : MIPTSPSolver.t)
    (edges : gmap Z Z) :
  (∀ st, st ∈ subtours_found self edges →
     (1 < length st)%nat ∧ NoDup st ∧ follows edges st)
  ∧ (∀ st, st ∈ subtours_found self edges → 0 ∈ st →
       ∃ before after,
         st = before ++ 0 :: after ∧ (0 ∉ before)
         ∧ MIPTSPSolver._handle_subtours self edges
           = (0 :: after ++ before) ++ [0])
  ∧ ((∀ st, st ∈ subtours_found self edges → 0 ∉ st) →
     subtours_found self edges ≠ [] →
     ∃ st start,
       st ∈ subtours_found self edges ∧ head st = Some start
       ∧ (∀ st', st' ∈ subtours_found self edges →
            (length st' ≤ length st)%nat)
       ∧ MIPTSPSolver._handle_subtours self edges = st ++ [start])
  ∧ (subtours_found self edges = [] →
     MIPTSPSolver._handle_subtours self edges = [])
  ∧ (∀ x cycle,
       depot_cycle (MIPTSPSolver.n self) x cycle →
       MIPTSPSolver._handle_subtours self (MIPTSPSolver.solution_edges self x)
       = cycle ++ [0]
       ∧ MIPTSPSolver._extract_tour self x = cycle ++ [0])
  ∧ MIPTSPSolver._extract_tour (MIPTSPSolver.Make [] 4) two_cycles
    = [0; 1; 0].
Proof.
  destruct (subtours_found_collected self edges) as [Hall Hdisjoint].
  rewrite Forall_forall in Hall.
  split; [|split; [|split; [|split; [|split]]]].
  - intros st Hst. destruct (Hall st Hst) as (? & ? & ? & _). done.
  - apply handle_subtours_depot.
  - intros Hnone Hsome.
    unfold MIPTSPSolver._handle_subtours. fold (subtours_found self edges).
    cbv zeta.
    destruct (list_find _ (subtours_found self edges)) as [[i st]|] eqn:Hfind.
    { apply list_find_Some in Hfind as (Hi & H0 & _).
      apply list_elem_of_lookup_2 in Hi. by destruct (Hnone st Hi). }
    destruct (subtours_found self edges) as [|first others] eqn:Hfound; [done|].
    destruct (longest_spec first others) as [Hin Hmax].
    destruct (Hall _ Hin) as (Hlen & _).
    destruct (MIPTSPSolver.longest first others) as [|start rest] eqn:Hlongest;
      [simpl in Hlen; lia|].
    exists (start :: rest), start. by repeat (split; [done|]).
  - intros Hnone. unfold MIPTSPSolver._handle_subtours.
    fold (subtours_found self edges). cbv zeta. by rewrite Hnone.
  - intros x cycle Hcycle. split.
    + by apply handle_subtours_depot_cycle.
    + by apply extract_tour_depot_cycle.
  - by vm_compute.
Qed.

Lemma handle_subtours_preference_witness :
  [0; 1] ∈ subtours_found (MIPTSPSolver.Make [] 4)
             (list_to_map [(0, 1); (1, 0); (2, 3); (3, 2)])
  ∧ ∃ before after,
      [0; 1] = before ++ 0 :: after ∧ (0 ∉ before)
      ∧ MIPTSPSolver._handle_subtours (MIPTSPSolver.Make [] 4)
          (list_to_map [(0, 1); (1, 0); (2, 3); (3, 2)])
        = (0 :: after ++ before) ++ [0].
Proof.
  assert (Hin : [0; 1] ∈ subtours_found (MIPTSPSolver.Make [] 4)
                  (list_to_map [(0, 1); (1, 0); (2, 3); (3, 2)])).
  { vm_compute. left. }
  split; [exact Hin|].
  apply (proj1 (proj2 (handle_subtours_preference (MIPTSPSolver.Make [] 4)
                         (list_to_map [(0, 1); (1, 0); (2, 3); (3, 2)])))
           [0; 1] Hin).
  left.
Defined.

(** ** Walks that are not cycles *)

(** In a cycle every node is the successor of a node of the cycle. *)
Lemma cycle_of_predecessor (edges : gmap Z Z) (cycle : list Z) (j : Z) :
  cycle_of edges cycle → j ∈ cycle →
  ∃ i, i ∈ cycle ∧ edges !! i = Some j.
Proof.
  intros (Hne & _ & Hnext) Hj.
  apply list_elem_of_lookup in Hj as [p Hp].
  pose proof (lookup_lt_Some _ _ _ Hp) as Hlt.
  destruct p as [|p].
  - destruct (lookup_lt_is_Some_2 cycle (length cycle - 1)) as [i Hi]; [lia|].
    exists i. split; [by eapply list_elem_of_lookup_2|].
    apply (Hnext (length cycle - 1)%nat); [done|].
    replace (S (length cycle - 1)) with (length cycle) by lia.
    by rewrite Nat.Div0.mod_same.
  - destruct (lookup_lt_is_Some_2 cycle p) as [i Hi]; [lia|].
    exists i. split; [by eapply list_elem_of_lookup_2|].
    apply (Hnext p); [done|]. by rewrite Nat.mod_small.
Qed.

(** The nodes of a cycle have successors. *)
Lemma cycle_of_successor (edges : gmap Z Z) (cycle : list Z) (i : Z) :
  cycle_of edges cycle → i ∈ cycle → is_Some (edges !! i).
Proof.
  intros (Hne & _ & Hnext) Hi.
  apply list_elem_of_lookup in Hi as [p Hp].
  pose proof (lookup_lt_Some _ _ _ Hp) as Hlt.
  destruct (lookup_lt_is_Some_2 cycle (S p `mod` length cycle)) as [j Hj].
  { apply Nat.mod_upper_bound. lia. }
  exists j. by apply (Hnext p).
Qed.

(** C2. The repair does not tell a walk that came back to its start from
    one that did not, and returns tours that are no cycles.  The assignment
    0 → 1, 1 → 2, 2 → 1, 3 → 0 on four nodes gives the reconstructor the
    successor map of these four edges.  No cycle of that map holds node 0:
    its cycles are made of the nodes 1 and 2, and 1 → 2 → 1 is one.  Repair
    returns [[0; 1; 2; 0]], the walk from node 0 closed by a step from 2 to 0
    that is no edge, where the claim asks for the cycle 1 → 2 → 1 closed.
    The single edge 0 → 1 on three nodes has no cycle at all; repair returns
    [[0; 1; 0]] where the claim asks for the empty sequence. *)
Theorem handle_subtours_closes_open_walk :
  let self4 := MIPTSPSolver.Make [] 4 in
  let self3 := MIPTSPSolver.Make [] 3 in
  let edges4 : gmap Z Z := list_to_map [(0, 1); (1, 2); (2, 1); (3, 0)] in
  let edges3 : gmap Z Z := list_to_map [(0, 1)] in
  (MIPTSPSolver.solution_edges self4 tail_walk = edges4
   ∧ (∀ cycle, cycle_of edges4 cycle → ∀ i, i ∈ cycle → i = 1 ∨ i = 2)
   ∧ cycle_of edges4 [1; 2]
   ∧ edges4 !! 2 = Some 1
   ∧ MIPTSPSolver._handle_subtours self4 edges4 = [0; 1; 2; 0]
   ∧ MIPTSPSolver._extract_tour self4 tail_walk = [0; 1; 2; 0])
  ∧ (MIPTSPSolver.solution_edges self3 single_edge = edges3
     ∧ (∀ cycle, ¬ cycle_of edges3 cycle)
     ∧ MIPTSPSolver._handle_subtours self3 edges3 = [0; 1; 0]
     ∧ MIPTSPSolver._extract_tour self3 single_edge = [0; 1; 0]).
Proof.
  intros self4 self3 edges4 edges3.
  assert (Hedges4 : ∀ i j, edges4 !! i = Some j →
            (i = 0 ∧ j = 1) ∨ (i = 1 ∧ j = 2) ∨ (i = 2 ∧ j = 1)
            ∨ (i = 3 ∧ j = 0)).
  { intros i j Hij. apply elem_of_list_to_map_2 in Hij.
    repeat (apply elem_of_cons in Hij as [Hij|Hij]);
      [injection Hij as -> ->; tauto..|by apply elem_of_nil in Hij]. }
  assert (Hedges3 : ∀ i j, edges3 !! i = Some j → i = 0 ∧ j = 1).
  { intros i j Hij. apply elem_of_list_to_map_2 in Hij.
    apply list_elem_of_singleton in Hij. by injection Hij. }
  split; [split; [|split; [|split; [|split; [|split]]]]|split; [|split; [|split]]].
  - by vm_compute.
  - intros cycle Hcycle.
    assert (H3 : 3 ∉ cycle).
    { intros H3. destruct (cycle_of_predecessor _ _ _ Hcycle H3) as (i & _ & Hi).
      apply Hedges4 in Hi. lia. }
    assert (H0 : 0 ∉ cycle).
    { intros H0. destruct (cycle_of_predecessor _ _ _ Hcycle H0) as (i & Hin & Hi).
      apply Hedges4 in Hi. assert (i = 3) as Hi3 by lia. by subst i. }
    intros i Hin.
    destruct (cycle_of_successor _ _ _ Hcycle Hin) as [j Hij].
    apply Hedges4 in Hij.
    destruct (decide (i = 0)) as [Hi0|?]; [by subst i|].
    destruct (decide (i = 3)) as [Hi3|?]; [by subst i|].
    lia.
  - split; [done|]. split.
    + apply NoDup_cons. split; [|apply NoDup_singleton].
      intros Hin. by apply list_elem_of_singleton in Hin.
    + intros [|[|k]] i j Hi Hj; simpl in *; simplify_eq; done.
  - done.
  - by vm_compute.
  - by vm_compute.
  - by vm_compute.
  - intros cycle Hcycle. pose proof Hcycle as (Hne & _ & _).
    destruct cycle as [|i cycle]; [done|].
    destruct (cycle_of_predecessor edges3 (i :: cycle) i) as (i' & Hin' & Hi');
      [done|by left|].
    apply Hedges3 in Hi' as [Hi' Hi]. subst i' i.
    destruct (cycle_of_predecessor edges3 (1 :: cycle) 0) as (i'' & _ & Hi'');
      [done|done|].
    apply Hedges3 in Hi'' as [_ ?]. done.
  - by vm_compute.
  - by vm_compute.
Qed.

(** ** The comment patterns *)

Lemma append_cons (c : ascii) (s1 s2 : string) :
  String c s1 +:+ s2 = String c (s1 +:+ s2).
Proof. reflexivity. Qed.

Lemma append_nil (s : string) : "" +:+ s = s.
Proof. reflexivity. Qed.

Lemma after_prefix_Some (literal s rest : string) :
  after_prefix literal s = Some rest ↔ s = literal +:+ rest.
Proof.
  revert s. induction literal as [|a literal IH]; intros s; simpl.
  - split; [by intros [= ->]|by intros ->].
  - destruct s as [|b s]; [done|]. case_bool_decide as Hab.
    + subst b. rewrite IH. split; [by intros ->|by intros [= ->]].
    + split; [done|]. intros [= -> _]. done.
Qed.

Lemma span_spec (p : ascii → bool) (s : string) :
  s = (span p s).1 +:+ (span p s).2 ∧ all_of p (span p s).1 = true.
Proof.
  induction s as [|c s [IHs IHp]]; simpl; [done|].
  destruct (p c) eqn:Hc; [|done].
  destruct (span p s) as [run rest]. simpl in *.
  split; [by rewrite append_cons, <- IHs|]. by rewrite Hc.
Qed.

(** A run of characters of one class ends where a character outside the
    class begins. *)
Lemma span_run (p : ascii → bool) (run : string) (c : ascii) (rest : string) :
  all_of p run = true → p c = false →
  span p (run +:+ String c rest) = (run, String c rest).
Proof.
  intros Hrun Hc. induction run as [|a run IH].
  - change ("" +:+ String c rest) with (String c rest). simpl. by rewrite Hc.
  - apply andb_true_iff in Hrun as [Ha Hrun].
    rewrite append_cons. simpl. by rewrite Ha, (IH Hrun).
Qed.

Lemma span_nonempty (p : ascii → bool) (c : ascii) (s : string) :
  p c = true → (span p (String c s)).1 ≠ EmptyString.
Proof. intros Hc. simpl. rewrite Hc. by destruct (span p s). Qed.

Lemma match_here_token (literal : string) (class : ascii → bool)
    (s group : string) :
  match_here literal class s = Some group →
  ∃ spaces after,
    s = literal +:+ spaces +:+ group +:+ after
    ∧ all_of isspace spaces = true ∧ group ≠ EmptyString
    ∧ all_of class group = true.
Proof.
  unfold match_here.
  destruct (after_prefix literal s) as [rest|] eqn:Hprefix; [|done].
  apply after_prefix_Some in Hprefix as ->.
  destruct (span_spec isspace rest) as [Hrest Hspaces].
  destruct (span isspace rest) as [spaces rest']. simpl in *.
  destruct (span_spec class rest') as [Hrest' Hgroup].
  destruct (span class rest') as [group' after]. simpl in *.
  case_bool_decide as Hempty; [done|]. intros [= <-].
  exists spaces, after. by rewrite <- Hrest', <- Hrest.
Qed.

(** A match found is a token of the text. *)
Lemma re_search_token (literal : string) (class : ascii → bool)
    (s group : string) :
  re_search literal class s = Some group → has_token literal class s.
Proof.
  induction s as [|c s IH]; cbn [re_search].
  - destruct (match_here literal class "") as [g|] eqn:Hhere; [|done].
    intros _. apply match_here_token in Hhere as (spaces & after & ? & ? & ? & ?).
    by exists "", spaces, g, after.
  - destruct (match_here literal class (String c s)) as [g|] eqn:Hhere.
    + intros _.
      apply match_here_token in Hhere as (spaces & after & ? & ? & ? & ?).
      by exists "", spaces, g, after.
    + intros Hs.
      destruct (IH Hs) as (before & spaces & g & after & -> & ? & ? & ?).
      by exists (String c before), spaces, g, after.
Qed.

Lemma re_search_None (literal : string) (class : ascii → bool) (s : string) :
  ¬ has_token literal class s → re_search literal class s = None.
Proof.
  intros Hnone. destruct (re_search literal class s) as [g|] eqn:Hs; [|done].
  destruct Hnone. by apply (re_search_token _ _ _ g).
Qed.

(** A token of the text is found, when the class holds no white space. *)
Lemma has_token_re_search (literal : string) (class : ascii → bool)
    (s : string) :
  (∀ c, class c = true → isspace c = false) →
  has_token literal class s → is_Some (re_search literal class s).
Proof.
  intros Hclass (before & spaces & group & after & -> & Hspaces & Hne & Hgroup).
  induction before as [|c before IH].
  - rewrite append_nil.
    assert (Hhere : is_Some (match_here literal class
                               (literal +:+ spaces +:+ group +:+ after))).
    { unfold match_here.
      rewrite (proj2 (after_prefix_Some literal _ (spaces +:+ group +:+ after)))
        by done.
      destruct group as [|g group]; [done|]. simpl in Hgroup.
      apply andb_true_iff in Hgroup as [Hg Hgroup].
      rewrite append_cons, (span_run isspace) by auto.
      pose proof (span_nonempty class g (group +:+ after) Hg) as Hrun.
      destruct (span class (String g (group +:+ after))) as [run rest].
      simpl in Hrun. by rewrite bool_decide_false. }
    destruct Hhere as [g Hg].
    destruct (literal +:+ spaces +:+ group +:+ after);
      cbn [re_search]; by rewrite Hg.
  - rewrite append_cons. cbn [re_search].
    by destruct (match_here literal class _).
Qed.

Lemma isdecimal_not_space (c : ascii) : isdecimal c = true → isspace c = false.
Proof.
  unfold isdecimal, isspace. intros H.
  apply andb_true_iff in H as [H1%N.leb_le H2%N.leb_le].
  repeat (apply orb_false_iff; split);
    try (apply andb_false_iff; (left; apply N.leb_gt; lia) || (right; apply N.leb_gt; lia));
    apply N.eqb_neq; lia.
Qed.

Lemma isdecimal_or_dot_not_space (c : ascii) :
  isdecimal_or_dot c = true → isspace c = false.
Proof.
  unfold isdecimal_or_dot.
  intros [H|H%bool_decide_eq_true]%orb_true_iff;
    [by apply isdecimal_not_space|by subst c].
Qed.

(** The comment is set by a line that starts with [COMMENT] only. *)
Lemma parse_line_comment `{Builtins} (line : string)
    (st st' : VRPDataReader.t * option VRPDataReader.section) :
  startswith "COMMENT" (strip line) = false →
  VRPDataReader.parse_line line st = Ok st' →
  VRPDataReader.comment st'.1 = VRPDataReader.comment st.1.
Proof.
  intros Hline. destruct st as [self section].
  unfold VRPDataReader.parse_line. rewrite Hline.
  repeat match goal with
         | |- context [bool_decide ?P] => destruct (bool_decide P)
         | |- context [startswith ?p ?s] => destruct (startswith p s)
         | |- context [match ?o with Some _ => _ | None => _ end] => destruct o
         | |- context [match ?o with VRPDataReader.COORDS => _ | _ => _ end] =>
             destruct o
         | |- context [match split_whitespace ?s with _ => _ end] =>
             destruct (split_whitespace s) as [|? [|? [|? [|? ?]]]]
         | |- mbind _ _ = _ → _ =>
             let Hb := fresh in
             intros Hb; apply bind_Ok in Hb as (? & ? & Hb); revert Hb
         | |- Ok _ = Ok _ → _ => intros [= <-]
         end; done.
Qed.

Lemma parse_lines_comment `{Builtins} (lines : list string)
    (st st' : VRPDataReader.t * option VRPDataReader.section) :
  (∀ line, line ∈ lines → startswith "COMMENT" (strip line) = false) →
  for_each lines VRPDataReader.parse_line st = Ok st' →
  VRPDataReader.comment st'.1 = VRPDataReader.comment st.1.
Proof.
  revert st. induction lines as [|line lines IH]; intros st Hlines Hloop.
  - by injection Hloop as <-.
  - cbn [for_each] in Hloop. apply bind_Ok in Hloop as (st1 & Hline & Hloop).
    apply parse_line_comment in Hline; [|apply Hlines; left].
    rewrite <- Hline. apply IH; [|done]. intros l Hl. apply Hlines. by right.
Qed.

Lemma extract_num_vehicles_default `{Builtins} (self : VRPDataReader.t) :
  (∀ comment, VRPDataReader.comment self = Some comment →
              ¬ has_token "No of trucks:" isdecimal comment) →
  VRPDataReader._extract_num_vehicles self = Ok 4.
Proof.
  intros Hnone. unfold VRPDataReader._extract_num_vehicles.
  destruct (VRPDataReader.comment self) as [[|c comment]|]; [done| |done].
  by rewrite (re_search_None _ _ _ (Hnone _ eq_refl)).
Qed.

Lemma extract_optimal_value_default `{Builtins} (self : VRPDataReader.t) :
  (∀ comment, VRPDataReader.comment self = Some comment →
              ¬ has_token "Optimal value:" isdecimal_or_dot comment) →
  VRPDataReader._extract_optimal_value self = Ok None.
Proof.
  intros Hnone. unfold VRPDataReader._extract_optimal_value.
  destruct (VRPDataReader.comment self) as [[|c comment]|]; [done| |done].
  by rewrite (re_search_None _ _ _ (Hnone _ eq_refl)).
Qed.

Lemma parse_comment_absent `{Builtins} (lines : list string)
    (self : VRPDataReader.t) (data : VRPData.t) :
  (∀ line, line ∈ lines → startswith "COMMENT" (strip line) = false) →
  VRPDataReader.parse lines = Ok (self, data) →
  VRPDataReader.comment self = None.
Proof.
  intros Hlines Hparse. unfold VRPDataReader.parse in Hparse.
  apply bind_Ok in Hparse as ([self' section] & Hloop & Hparse).
  apply bind_Ok in Hparse as (data' & _ & [= <- _]).
  by apply (parse_lines_comment _ _ _ Hlines) in Hloop.
Qed.

(** C10. For every parsed instance whose comment is absent, or holds no
    token that matches [No of trucks: <n>], the number of vehicles is 4; when
    the comment is absent, or holds no token that matches
    [Optimal value: <v>], the optimal value is [None].  The comment is absent
    when no line of the file starts with [COMMENT]. *)
Theorem comment_defaults `{Builtins} (lines : list string)
    (self : VRPDataReader.t) (data : VRPData.t) :
  VRPDataReader.parse lines = Ok (self, data) →
  ((∀ comment, VRPData.comment data = Some comment →
               ¬ has_token "No of trucks:" isdecimal comment) →
   VRPData.num_vehicles data = 4)
  ∧ ((∀ comment, VRPData.comment data = Some comment →
                 ¬ has_token "Optimal value:" isdecimal_or_dot comment) →
     VRPData.optimal_value data = None)
  ∧ ((∀ line, line ∈ lines → startswith "COMMENT" (strip line) = false) →
     VRPData.comment data = None
     ∧ VRPData.num_vehicles data = 4 ∧ VRPData.optimal_value data = None).
Proof.
  intros Hparse.
  pose proof (parse_data lines self data Hparse)
    as (_ & _ & Hcomment & Hvehicles & Hoptimal).
  rewrite Hcomment.
  assert (Htrucks : (∀ comment, VRPDataReader.comment self = Some comment →
                       ¬ has_token "No of trucks:" isdecimal comment) →
                    VRPData.num_vehicles data = 4).
  { intros Hnone. rewrite (extract_num_vehicles_default self Hnone) in Hvehicles.
    by injection Hvehicles. }
  assert (Hvalue : (∀ comment, VRPDataReader.comment self = Some comment →
                      ¬ has_token "Optimal value:" isdecimal_or_dot comment) →
                   VRPData.optimal_value data = None).
  { intros Hnone. rewrite (extract_optimal_value_default self Hnone) in Hoptimal.
    by injection Hoptimal. }
  split; [done|]. split; [done|]. intros Hlines.
  pose proof (parse_comment_absent lines self data Hlines Hparse) as Habsent.
  split; [done|].
  split; [apply Htrucks|apply Hvalue]; intros comment; by rewrite Habsent.
Qed.

Lemma comment_defaults_witness :
  ∃ self data,
    VRPDataReader.parse gap_vrp_file = Ok (self, data)
    ∧ VRPData.comment data = None
    ∧ VRPData.num_vehicles data = 4 ∧ VRPData.optimal_value data = None.
Proof.
  eexists _, _. split; [vm_compute; reflexivity|].
  refine (proj2 (proj2 (comment_defaults gap_vrp_file _ _ _)) _);
    [vm_compute; reflexivity|].
  intros line Hline.
  repeat (apply elem_of_cons in Hline as [->|Hline]; [reflexivity|]).
  by apply elem_of_nil in Hline.
Defined.

Lemma extract_tour_without_depot_edge_witness :
  (∀ j, ¬ uses 4 (assignment 4 [(1, 2); (2, 3); (3, 1)]) 0 j)
  ∧ MIPTSPSolver._extract_tour (MIPTSPSolver.Make [] 4)
      (assignment 4 [(1, 2); (2, 3); (3, 1)]) = [].
Proof.
  assert (Hnone : ∀ j, ¬ uses 4 (assignment 4 [(1, 2); (2, 3); (3, 1)]) 0 j).
  { intros j (Hj & Hne & Hch).
    assert (Hcases : j = 1 ∨ j = 2 ∨ j = 3) by lia.
    destruct Hcases as [?|[?|?]]; subst j; by vm_compute in Hch. }
  split; [exact Hnone|].
  exact (extract_tour_without_depot_edge (MIPTSPSolver.Make [] 4) _ Hnone).
Defined.

(** ** Examples *)

Example strip_example : strip "  NAME : tai75a  " = "NAME : tai75a".
Proof. reflexivity. Qed.

Example split_example : split ":" "COMMENT : a: b" = ["COMMENT "; " a"; " b"].
Proof. reflexivity. Qed.

Example split_once_example :
  split_once ":" "COMMENT : a: b" = ["COMMENT "; " a: b"].
Proof. reflexivity. Qed.

Example split_without_separator : split ":" "EOF" = ["EOF"].
Proof. reflexivity. Qed.

Example split_whitespace_example :
  split_whitespace "  12   2.5 0 " = ["12"; "2.5"; "0"].
Proof. reflexivity. Qed.

Example re_search_trucks :
  re_search "No of trucks:" isdecimal
    "(Taillard, No of trucks: 10, Optimal value: 1618.36)" = Some "10".
Proof. reflexivity. Qed.

Example re_search_optimal_value :
  re_search "Optimal value:" isdecimal_or_dot
    "(Taillard, No of trucks: 10, Optimal value: 1618.36)" = Some "1618.36".
Proof. reflexivity. Qed.

Example re_search_no_digits :
  re_search "No of trucks:" isdecimal "No of trucks: many" = None.
Proof. reflexivity. Qed.

(** Ties: half-up goes up, [round] goes to the even neighbour. *)
Example round_half_up_ties :
  map (λ s, round_half_up (np_sqrt s)) [0.25; 2.25; 6.25; 12.25]%Q
  = [1; 2; 3; 4].
Proof. reflexivity. Qed.

Example py_round_ties :
  map (λ s, py_round (np_sqrt s)) [0.25; 2.25; 6.25; 12.25]%Q = [0; 2; 2; 4].
Proof. reflexivity. Qed.

(** Off a tie the two rules agree: the square roots of 2, 3, 8 and 13. *)
Example rounding_off_ties :
  map (λ s, (round_half_up (np_sqrt s), py_round (np_sqrt s))) [2; 3; 8; 13]%Q
  = [(1, 1); (2, 2); (3, 3); (4, 4)].
Proof. reflexivity. Qed.

(** The reader on a file of four nodes. *)
Example parse_square :
  ∃ self data,
    VRPDataReader.parse square_vrp_file = Ok (self, data)
    ∧ VRPData.name data = Some "square"
    ∧ VRPData.dimension data = Some 4
    ∧ VRPData.capacity data = Some 10
    ∧ VRPData.num_vehicles data = 2
    ∧ VRPData.optimal_value data = Some 14%Q
    ∧ VRPData.demands data !! 2 = Some 1
    ∧ VRPDataReader.compute_distance_matrix self
      = Ok [[0; 3; 5; 4]; [3; 0; 4; 5]; [5; 4; 0; 3]; [4; 5; 3; 0]].
Proof. eexists _, _. split; [vm_compute; reflexivity|]. by vm_compute. Qed.

(** The sub-instance of its last three nodes: the matrix is sliced. *)
Example extract_square :
  ∃ self data,
    TSPDataExtractor.__init__ "square.vrp" square_vrp_file = Ok self
    ∧ TSPDataExtractor.extract_tsp_subset self 9 false = Ok data
    ∧ TSPData.name data = "square_TSP3"
    ∧ TSPData.dimension data = 3
    ∧ TSPData.original_vrp_nodes data = Some [2; 3; 4]
    ∧ TSPData.distance_matrix data = [[0; 4; 5]; [4; 0; 3]; [5; 3; 0]].
Proof.
  eexists _, _. split; [vm_compute; reflexivity|].
  split; [vm_compute; reflexivity|]. by vm_compute.
Qed.

(** Repair without an edge from node 0: the longest subtour, closed at its
    own first node; the first of two of the same length. *)
Example repair_without_depot :
  MIPTSPSolver._handle_subtours (MIPTSPSolver.Make [] 6)
    (list_to_map [(1, 2); (2, 1); (3, 4); (4, 5); (5, 3)]) = [3; 4; 5; 3]
  ∧ MIPTSPSolver._handle_subtours (MIPTSPSolver.Make [] 5)
      (list_to_map [(1, 2); (2, 1); (3, 4); (4, 3)]) = [1; 2; 1]
  ∧ MIPTSPSolver._handle_subtours (MIPTSPSolver.Make [] 3) ∅ = [].
Proof. by vm_compute. Qed.

(** A walk that does not come back to node 0 is closed all the same. *)
Example repair_of_a_tail :
  subtours_found (MIPTSPSolver.Make [] 3) (list_to_map [(0, 1); (1, 2); (2, 1)])
  = [[0; 1; 2]]
  ∧ MIPTSPSolver._handle_subtours (MIPTSPSolver.Make [] 3)
      (list_to_map [(0, 1); (1, 2); (2, 1)]) = [0; 1; 2; 0].
Proof. by vm_compute. Qed.

(** * Part III: the model of the solver, the checks of a tour and the files *)

(** ** A successor map that the ordering constraints leave one cycle *)

Lemma least_such (P : nat → Prop) `{∀ k, Decision (P k)} (k : nat) :
  P k → ∃ m, P m ∧ ∀ j, (j < m)%nat → ¬ P j.
Proof.
  assert (Hbelow : ∀ b, (∃ m, P m ∧ ∀ j, (j < m)%nat → ¬ P j)
                        ∨ ∀ j, (j < b)%nat → ¬ P j).
  { induction b as [|b [?|Hnone]]; [right; lia|by left|].
    destruct (decide (P b)) as [Hb|Hb]; [left; by exists b|].
    right. intros j Hj. destruct (decide (j = b)) as [->|]; [done|].
    apply Hnone. lia. }
  intros Hk. destruct (Hbelow (S k)) as [?|Hnone]; [done|].
  destruct (Hnone k); [lia|done].
Qed.

Section successor_cycle.
Context (n : Z) (edges : gmap Z Z) (uv : Z → Q).
Context (Hnext : ∀ i, 0 ≤ i < n → ∃ j, edges !! i = Some j ∧ 0 ≤ j < n ∧ j ≠ i).
Context (Hinj : ∀ i i' j, edges !! i = Some j → edges !! i' = Some j → i = i').
Context (Horder : ∀ i j, edges !! i = Some j → i ≠ 0 → j ≠ 0 →
                         (uv i + 1 <= uv j)%Q).
Context (Hbound : 3 ≤ n → ∀ i, 1 ≤ i < n →
                    (1 <= uv i)%Q ∧ (uv i <= inject_Z (n - 1))%Q).
Context (Hn : 0 < n).

Local Abbreviation next := (λ i : Z, default 0 (edges !! i)).
Local Abbreviation walk := (λ (k : nat) (w : Z), Nat.iter k next w).

Lemma next_edge (i : Z) :
  0 ≤ i < n → edges !! i = Some (next i) ∧ 0 ≤ next i < n ∧ next i ≠ i.
Proof. intros Hi. destruct (Hnext i Hi) as (j & -> & ? & ?). by simpl. Qed.

Lemma next_inj (i i' : Z) : 0 ≤ i < n → 0 ≤ i' < n → next i = next i' → i = i'.
Proof.
  intros Hi Hi' Heq.
  destruct (next_edge i Hi) as (He & _), (next_edge i' Hi') as (He' & _).
  rewrite <- Heq in He'. by apply (Hinj i i' (next i)).
Qed.

Lemma walk_range (k : nat) (w : Z) : 0 ≤ w < n → 0 ≤ walk k w < n.
Proof.
  intros Hw. induction k as [|k IH]; [done|]. simpl.
  by destruct (next_edge _ IH) as (_ & ? & _).
Qed.

Lemma walk_next (k : nat) (w : Z) : walk (S k) w = walk k (next w).
Proof. apply Nat.iter_succ_r. Qed.

(** Away from node 0 the order values grow along the walk. *)
Lemma walk_order (k : nat) (w : Z) :
  0 ≤ w < n → w ≠ 0 →
  (∃ m, walk m w = 0)
  ∨ (walk k w ≠ 0 ∧ (uv w + inject_Z (Z.of_nat k) <= uv (walk k w))%Q).
Proof.
  intros Hw Hw0. induction k as [|k [Hdone|[Hk Hle]]].
  - right. split; [done|]. simpl.
    change (inject_Z (Z.of_nat 0)) with 0%Q. Lqa.lra.
  - by left.
  - destruct (decide (walk (S k) w = 0)) as [Hz|Hnz]; [left; by exists (S k)|].
    right. split; [done|].
    destruct (next_edge (walk k w) (walk_range k w Hw)) as (He & _).
    pose proof (Horder _ _ He Hk Hnz) as Hstep.
    rewrite Nat2Z.inj_succ, <- Z.add_1_r, inject_Z_plus.
    change (inject_Z 1) with 1%Q.
    change (Nat.iter (S k) next w)
      with (default 0 (edges !! Nat.iter k next w)).
    Lqa.lra.
Qed.

(** Every node leads to node 0. *)
Lemma walk_reaches_depot (w : Z) : 0 ≤ w < n → ∃ m, walk m w = 0.
Proof.
  intros Hw. destruct (decide (w = 0)) as [->|Hw0]; [by exists 0%nat|].
  destruct (decide (3 ≤ n)) as [H3|H2].
  - destruct (walk_order (Z.to_nat n) w Hw Hw0) as [?|[Hk Hle]]; [done|].
    exfalso.
    pose proof (walk_range (Z.to_nat n) w Hw) as Hr. cbv beta in Hr.
    destruct (Hbound H3 w ltac:(lia)) as [Hlow _].
    set (z := Nat.iter (Z.to_nat n) next w) in *.
    destruct (Hbound H3 z ltac:(lia)) as [_ Hup].
    rewrite Z2Nat.id in Hle by lia.
    assert (inject_Z (n - 1) < inject_Z n)%Q by (rewrite <- Zlt_Qlt; lia).
    Lqa.lra.
  - exists 1%nat. simpl.
    destruct (next_edge w Hw) as (_ & ? & ?). lia.
Qed.

(** The walk from node 0 comes back to it, for the first time after [m]
    steps. *)
Lemma walk_returns :
  ∃ m, (0 < m)%nat ∧ walk m 0 = 0 ∧ ∀ k, (0 < k < m)%nat → walk k 0 ≠ 0.
Proof.
  destruct (next_edge 0 ltac:(lia)) as (_ & Hr & Hne).
  destruct (walk_reaches_depot (next 0) Hr) as [k Hk].
  rewrite <- walk_next in Hk.
  destruct (least_such (λ k, (0 < k)%nat ∧ walk k 0 = 0) (S k)) as (m & [? ?] & Hleast);
    [split; [lia|done]|].
  exists m. split; [done|]. split; [done|].
  intros j [? ?] Hj. by apply (Hleast j).
Qed.

Lemma walk_distinct (m a b : nat) :
  (∀ k, (0 < k < m)%nat → walk k 0 ≠ 0) →
  (a < b < m)%nat → walk a 0 ≠ walk b 0.
Proof.
  intros Hfirst. revert b. induction a as [|a IH]; intros b Hb Heq.
  - simpl in Heq. by apply (Hfirst b).
  - destruct b as [|b]; [lia|]. simpl in Heq.
    apply next_inj in Heq; [|apply walk_range; lia..].
    by apply (IH b); [lia|].
Qed.

Lemma walk_covers (m : nat) :
  (0 < m)%nat → walk m 0 = 0 →
  ∀ (k : nat) (w : Z), 0 ≤ w < n → walk k w = 0 →
    ∃ a, (a < m)%nat ∧ walk a 0 = w.
Proof.
  intros Hm Hback k. induction k as [|k IH]; intros w Hw Hk.
  - exists 0%nat. split; [done|]. by simpl in *.
  - rewrite walk_next in Hk.
    destruct (next_edge w Hw) as (_ & Hr & _).
    destruct (IH (next w) Hr Hk) as (a & Ha & Heq).
    destruct a as [|a].
    + destruct m as [|m']; [lia|]. exists m'. split; [lia|].
      simpl in Heq, Hback. pose proof (eq_trans Hback Heq) as Heq'.
      apply next_inj in Heq'; [done| |done]. apply walk_range; lia.
    + exists a. split; [lia|]. simpl in Heq.
      apply next_inj in Heq; [done| |done]. apply walk_range; lia.
Qed.

(** The successor map is one cycle from node 0 through every node. *)
Lemma successor_cycle :
  ∃ cycle,
    cycle ≡ₚ range0 n ∧ NoDup cycle ∧ head cycle = Some 0
    ∧ ∀ (k : nat) (i : Z), cycle !! k = Some i →
        edges !! i = cycle !! (S k `mod` length cycle)%nat.
Proof.
  destruct walk_returns as (m & Hm & Hback & Hfirst).
  set (cycle := (λ k, walk k 0) <$> seq 0 m).
  assert (Hlen : length cycle = m)
    by (unfold cycle; by rewrite length_fmap, length_seq).
  assert (Hlookup : ∀ k, (k < m)%nat → cycle !! k = Some (walk k 0)).
  { intros k Hk. unfold cycle. rewrite list_lookup_fmap.
    by rewrite lookup_seq_lt. }
  assert (Hnodup : NoDup cycle).
  { apply NoDup_alt. intros a b i Ha Hb.
    pose proof (lookup_lt_Some _ _ _ Ha) as Hla.
    pose proof (lookup_lt_Some _ _ _ Hb) as Hlb. rewrite Hlen in *.
    rewrite Hlookup in Ha, Hb by done. simplify_eq.
    destruct (decide (a = b)) as [|Hne]; [done|]. exfalso.
    destruct (decide (a < b)%nat).
    - by apply (walk_distinct m a b Hfirst); [lia|].
    - by apply (walk_distinct m b a Hfirst); [lia|]. }
  exists cycle. split; [|split; [done|split]].
  - apply NoDup_Permutation; [done|apply NoDup_range|].
    intros w. unfold range0. rewrite elem_of_range. split.
    + intros [k Hk]%list_elem_of_lookup_1.
      pose proof (lookup_lt_Some _ _ _ Hk) as Hlk. rewrite Hlen in Hlk.
      rewrite Hlookup in Hk by done. injection Hk as <-.
      apply walk_range. lia.
    + intros Hw. destruct (walk_reaches_depot w Hw) as [k Hk].
      destruct (walk_covers m Hm Hback k w Hw Hk) as (a & Ha & <-).
      apply list_elem_of_lookup_2 with a. by apply Hlookup.
  - unfold cycle. destruct m; [lia|]. done.
  - intros k i Hk.
    pose proof (lookup_lt_Some _ _ _ Hk) as Hlk. rewrite Hlen in *.
    rewrite Hlookup in Hk by done. injection Hk as <-.
    destruct (next_edge (walk k 0) (walk_range k 0 ltac:(lia))) as (-> & _).
    destruct (decide (S k = m)) as [<-|Hne].
    + rewrite Nat.Div0.mod_same, Hlookup by lia.
      simpl in Hback. by rewrite Hback.
    + rewrite Nat.mod_small by lia. by rewrite Hlookup by lia.
Qed.

End successor_cycle.

(** ** The model of [solve] *)

(** *** Sums of zeros and ones *)

Ltac qlra := cbv beta in *; Lqa.lra.

Lemma value_cons (v : string → Q) (c : Q) (var : pulp.LpVariable)
    (e : pulp.LpAffineExpression) :
  pulp.value v ((c, var) :: e) = (c * v (pulp.name var) + pulp.value v e)%Q.
Proof. reflexivity. Qed.

Lemma value_app (v : string → Q) (e1 e2 : pulp.LpAffineExpression) :
  (pulp.value v (e1 ++ e2) == pulp.value v e1 + pulp.value v e2)%Q.
Proof.
  induction e1 as [|[c var] e1 IH]; cbn [app].
  - change (pulp.value v []) with 0%Q. Lqa.lra.
  - rewrite !value_cons, IH. Lqa.lra.
Qed.

Section indicator.
Context (v : string → Q) (var : Z → pulp.LpVariable).

Local Abbreviation val := (λ a : Z, v (pulp.name (var a))).
Local Abbreviation total := (λ l : list Z,
  pulp.value v ((λ a, (1%Q, var a)) <$> l)).

Lemma total_nonneg (l : list Z) :
  (∀ a, a ∈ l → (val a == 0 ∨ val a == 1)%Q) → (0 <= total l)%Q.
Proof.
  induction l as [|a l IH]; intros Hbin; [done|].
  rewrite fmap_cons, value_cons.
  pose proof (IH (λ b Hb, Hbin b (list_elem_of_further _ _ _ Hb))).
  destruct (Hbin a ltac:(left)) as [Ha|Ha]; cbv beta in Ha; rewrite Ha;
    qlra.
Qed.

Lemma total_zero (l : list Z) :
  (∀ a, a ∈ l → (val a == 0 ∨ val a == 1)%Q) → (total l == 0)%Q →
  ∀ a, a ∈ l → (val a == 0)%Q.
Proof.
  induction l as [|a l IH]; intros Hbin Hsum b Hb;
    [by apply elem_of_nil in Hb|].
  rewrite fmap_cons, value_cons in Hsum.
  pose proof (total_nonneg l (λ b Hb, Hbin b (list_elem_of_further _ _ _ Hb)))
    as Hnonneg.
  destruct (Hbin a ltac:(left)) as [Ha|Ha]; cbv beta in Ha;
    rewrite Ha in Hsum; [|exfalso; qlra].
  apply elem_of_cons in Hb as [->|Hb]; [done|].
  apply IH; [|qlra|done].
  intros c Hc. apply Hbin. by right.
Qed.

(** A sum of zeros and ones that is 1 has its 1 at one place. *)
Lemma total_one (l : list Z) :
  NoDup l → (∀ a, a ∈ l → (val a == 0 ∨ val a == 1)%Q) → (total l == 1)%Q →
  ∃ a, a ∈ l ∧ (val a == 1)%Q ∧ ∀ b, b ∈ l → (val b == 1)%Q → b = a.
Proof.
  induction l as [|a l IH]; intros Hnodup Hbin Hsum.
  { unfold pulp.value in Hsum. simpl in Hsum. exfalso. qlra. }
  apply NoDup_cons in Hnodup as [Ha Hnodup].
  rewrite fmap_cons, value_cons in Hsum.
  assert (Hbin' : ∀ b, b ∈ l → (val b == 0 ∨ val b == 1)%Q)
    by (intros b Hb; apply Hbin; by right).
  destruct (Hbin a ltac:(left)) as [Hva|Hva]; cbv beta in Hva.
  - rewrite Hva in Hsum.
    destruct (IH Hnodup Hbin' ltac:(qlra)) as (c & Hc & Hvc & Honly).
    exists c. split; [by right|]. split; [done|].
    intros b [->|Hb]%elem_of_cons Hvb; [|by apply Honly].
    cbv beta in Hvb. rewrite Hva in Hvb. exfalso. qlra.
  - rewrite Hva in Hsum.
    pose proof (total_zero l Hbin' ltac:(qlra)) as Hzero.
    exists a. split; [left|]. split; [done|].
    intros b [->|Hb]%elem_of_cons Hvb; [done|].
    specialize (Hzero b Hb). cbv beta in Hzero, Hvb.
    rewrite Hzero in Hvb. exfalso. qlra.
Qed.

(** The sum of the values that are 1 at [a] and 0 elsewhere. *)
Lemma total_at (l : list Z) (a : Z) :
  NoDup l → a ∈ l → (val a == 1)%Q →
  (∀ b, b ∈ l → b ≠ a → (val b == 0)%Q) → (total l == 1)%Q.
Proof.
  induction l as [|c l IH]; intros Hnodup Ha Hva Hzero;
    [by apply elem_of_nil in Ha|].
  apply NoDup_cons in Hnodup as [Hc Hnodup].
  rewrite fmap_cons, value_cons.
  apply elem_of_cons in Ha as [->|Ha].
  - cbv beta in Hva. rewrite Hva.
    assert (Hrest : (total l == 0)%Q).
    { clear IH. induction l as [|b l IH]; [done|].
      rewrite fmap_cons, value_cons.
      rewrite (Hzero b); [|right; left|intros ->; apply Hc; left].
      rewrite IH; [qlra| |by apply NoDup_cons in Hnodup as [_ ?]|].
      - intros Hin. apply Hc. by right.
      - intros d Hd Hne. apply Hzero; [|done].
        apply elem_of_cons in Hd as [->|Hd]; [left|right; by right]. }
    rewrite Hrest. qlra.
  - rewrite (Hzero c ltac:(left)) by (by intros ->).
    rewrite IH; [qlra|done..|].
    intros b Hb. apply Hzero. by right.
Qed.

End indicator.

(** *** The dictionary [x] and the values read from it *)

Lemma x_row_lookup (i : Z) (js : list Z) (x0 : gmap (Z * Z) pulp.LpVariable)
    (a b : Z) :
  foldl (λ (x : gmap (Z * Z) pulp.LpVariable) j,
           if decide (i ≠ j) then <[(i, j) := solve.x_variable i j]> x else x)
        x0 js !! (a, b)
  = if decide (a = i ∧ b ∈ js ∧ i ≠ b) then Some (solve.x_variable i b)
    else x0 !! (a, b).
Proof.
  induction js as [|j js IH] using rev_ind.
  - cbn [foldl].
    destruct (decide (a = i ∧ b ∈ [] ∧ i ≠ b)) as [(_ & H & _)|_]; [|done].
    by apply elem_of_nil in H.
  - rewrite foldl_app. cbn [foldl].
    destruct (decide (i ≠ j)) as [Hne|Heq].
    + destruct (decide ((a, b) = (i, j))) as [[= -> ->]|Hab].
      * rewrite lookup_insert_eq. rewrite decide_True; [done|].
        split; [done|]. split; [|done]. apply elem_of_app. right. left.
      * rewrite lookup_insert_ne by done. rewrite IH.
        destruct (decide (a = i ∧ b ∈ js ∧ i ≠ b)) as [(-> & Hb & ?)|Hno].
        -- rewrite decide_True; [done|]. split; [done|]. split; [|done].
           apply elem_of_app. by left.
        -- rewrite decide_False; [done|]. intros (-> & Hb & ?). apply Hno.
           split; [done|]. split; [|done].
           apply elem_of_app in Hb as [?|Hb]; [done|].
           apply list_elem_of_singleton in Hb as ->. done.
    + apply dec_stable in Heq as <-. rewrite IH.
      destruct (decide (a = i ∧ b ∈ js ∧ i ≠ b)) as [(-> & Hb & ?)|Hno].
      * rewrite decide_True; [done|]. split; [done|]. split; [|done].
        apply elem_of_app. by left.
      * rewrite decide_False; [done|]. intros (-> & Hb & ?). apply Hno.
        split; [done|]. split; [|done].
        apply elem_of_app in Hb as [?|Hb]; [done|].
        apply list_elem_of_singleton in Hb as ->. done.
Qed.

Lemma x_rows_lookup (rows js : list Z) (x0 : gmap (Z * Z) pulp.LpVariable)
    (a b : Z) :
  foldl (λ x i,
           foldl (λ (x : gmap (Z * Z) pulp.LpVariable) j,
                    if decide (i ≠ j)
                    then <[(i, j) := solve.x_variable i j]> x else x)
                 x js)
        x0 rows !! (a, b)
  = if decide (a ∈ rows ∧ b ∈ js ∧ a ≠ b) then Some (solve.x_variable a b)
    else x0 !! (a, b).
Proof.
  revert x0. induction rows as [|r rows IH]; intros x0.
  - cbn [foldl].
    destruct (decide (a ∈ [] ∧ b ∈ js ∧ a ≠ b)) as [(H & _)|_]; [|done].
    by apply elem_of_nil in H.
  - cbn [foldl]. rewrite IH, x_row_lookup.
    destruct (decide (a ∈ rows ∧ b ∈ js ∧ a ≠ b)) as [(Ha & Hb & Hne)|Hno].
    + rewrite decide_True; [done|]. split; [by right|done].
    + destruct (decide (a = r ∧ b ∈ js ∧ r ≠ b)) as [(-> & Hb & Hne)|Hno'].
      * rewrite decide_True; [done|]. split; [left|done].
      * rewrite decide_False; [done|].
        intros ([->|Ha]%elem_of_cons & Hb & Hne); [by apply Hno'|by apply Hno].
Qed.

(** [x] holds the variable of every ordered pair of distinct nodes. *)
Lemma x_lookup (self : MIPTSPSolver.t) (i j : Z) :
  solve.x self !! (i, j)
  = if decide ((0 ≤ i < MIPTSPSolver.n self ∧ 0 ≤ j < MIPTSPSolver.n self)
               ∧ i ≠ j)
    then Some (solve.x_variable i j) else None.
Proof.
  unfold solve.x. rewrite x_rows_lookup, lookup_empty. unfold range0.
  destruct (decide (i ∈ range 0 (MIPTSPSolver.n self)
                    ∧ j ∈ range 0 (MIPTSPSolver.n self) ∧ i ≠ j))
    as [(Hi%elem_of_range & Hj%elem_of_range & ?)|Hno].
  - by rewrite decide_True.
  - rewrite decide_False; [done|]. intros [[Hi Hj] ?]. apply Hno.
    by rewrite !elem_of_range.
Qed.

Lemma chosen_values (self : MIPTSPSolver.t) (v : string → Q) (i j : Z) :
  MIPTSPSolver.chosen (solve.values self v) i j = true
  ↔ (0 ≤ i < MIPTSPSolver.n self ∧ 0 ≤ j < MIPTSPSolver.n self) ∧ i ≠ j
    ∧ (1 # 2 < v (pulp.name (solve.x_variable i j)))%Q.
Proof.
  unfold MIPTSPSolver.chosen, solve.values.
  rewrite lookup_fmap, x_lookup.
  case_decide as Hij; simpl.
  - rewrite (Qgt_alt (v _) (1 # 2)).
    destruct Hij as [? ?].
    destruct (v _ ?= 1 # 2)%Q; (split; [done|by intros (_ & _ & ?)]).
  - split; [done|]. intros (? & ? & _). by destruct Hij.
Qed.

(** *** What a feasible assignment satisfies *)

Section feasible_model.
Context (self : MIPTSPSolver.t) (v : string → Q) (p : pulp.LpProblem).
Context (Hmodel : solve.model self = Ok p) (Hfeasible : pulp.feasible v p).

Local Abbreviation n := (MIPTSPSolver.n self).
Local Abbreviation xv := (λ i j : Z, v (pulp.name (solve.x_variable i j))).
Local Abbreviation uv := (λ i : Z, v (pulp.name (solve.u_variable self i))).
Local Abbreviation x := (solve.values self v).
Local Abbreviation edges := (MIPTSPSolver.solution_edges self x).

Lemma model_constraints : pulp.constraints p = solve.constraints self.
Proof.
  unfold solve.model in Hmodel.
  apply bind_Ok in Hmodel as (objective & _ & [= <-]). done.
Qed.

Lemma constraint_holds (c : pulp.LpConstraint) :
  c ∈ solve.constraints self → pulp.holds v c.
Proof.
  intros Hc. destruct Hfeasible as [Hall _].
  rewrite model_constraints, Forall_forall in Hall. by apply Hall.
Qed.

Lemma variable_within (c : pulp.LpConstraint) (t : Q * pulp.LpVariable) :
  c ∈ solve.constraints self → t ∈ pulp.expression c → pulp.within v t.2.
Proof.
  intros Hc Ht. destruct Hfeasible as [_ Hall].
  rewrite Forall_forall in Hall. apply Hall. unfold pulp.variables.
  apply elem_of_app. right. apply list_elem_of_bind. exists c.
  rewrite model_constraints. split; [|done].
  apply list_elem_of_fmap. by exists t.
Qed.

Lemma left_once_in (i : Z) :
  0 ≤ i < n → solve.left_once self i ∈ solve.constraints self.
Proof.
  intros Hi. unfold solve.constraints. apply elem_of_app. left.
  apply list_elem_of_fmap. exists i. split; [done|]. by apply elem_of_range.
Qed.

Lemma entered_once_in (j : Z) :
  0 ≤ j < n → solve.entered_once self j ∈ solve.constraints self.
Proof.
  intros Hj. unfold solve.constraints. apply elem_of_app. right.
  apply elem_of_app. left.
  apply list_elem_of_fmap. exists j. split; [done|]. by apply elem_of_range.
Qed.

Lemma ordered_in (i j : Z) :
  1 ≤ i < n → 1 ≤ j < n → i ≠ j →
  solve.ordered self i j ∈ solve.constraints self.
Proof.
  intros Hi Hj Hne. unfold solve.constraints. apply elem_of_app. right.
  apply elem_of_app. right.
  apply list_elem_of_bind. exists i. split; [|by apply elem_of_range].
  apply list_elem_of_bind. exists j. split; [|by apply elem_of_range].
  rewrite decide_True by done. left.
Qed.

Lemma x_binary (i j : Z) :
  0 ≤ i < n → 0 ≤ j < n → i ≠ j → (xv i j == 0 ∨ xv i j == 1)%Q.
Proof.
  intros Hi Hj Hne.
  destruct (variable_within (solve.left_once self i) (1%Q, solve.x_variable i j))
    as (Hlow & Hup & Hint).
  { by apply left_once_in. }
  { unfold solve.left_once. cbn [pulp.expression].
    apply list_elem_of_fmap. exists j. split; [done|].
    apply list_elem_of_filter. split; [done|]. by apply elem_of_range. }
  specialize (Hlow 0%Q eq_refl). specialize (Hup 1%Q eq_refl).
  destruct (Hint eq_refl) as [z Hz]. cbn [snd] in *.
  rewrite Hz in Hlow, Hup |- *.
  change 0%Q with (inject_Z 0) in Hlow |- *.
  change 1%Q with (inject_Z 1) in Hup |- *.
  rewrite <- Zle_Qle in Hlow, Hup. rewrite !inject_Z_injective. lia.
Qed.

Lemma u_bounds :
  3 ≤ n → ∀ i, 1 ≤ i < n → (1 <= uv i)%Q ∧ (uv i <= inject_Z (n - 1))%Q.
Proof.
  intros H3 i Hi.
  set (j := if decide (i = 1) then 2 else 1).
  destruct (variable_within (solve.ordered self i j)
              (1%Q, solve.u_variable self i)) as (Hlow & Hup & _).
  { apply ordered_in; [done|..]; unfold j; case_decide; lia. }
  { unfold solve.ordered. cbn [pulp.expression]. left. }
  split; [by apply Hlow|by apply Hup].
Qed.

(** City [i] is left along one edge. *)
Lemma left_along (i : Z) :
  0 ≤ i < n →
  ∃ j, (0 ≤ j < n ∧ i ≠ j) ∧ (xv i j == 1)%Q
       ∧ ∀ j', 0 ≤ j' < n → i ≠ j' → (xv i j' == 1)%Q → j' = j.
Proof.
  intros Hi.
  pose proof (constraint_holds _ (left_once_in i Hi)) as Hsum.
  unfold pulp.holds, solve.left_once in Hsum.
  cbn [pulp.relation pulp.expression pulp.bound] in Hsum.
  destruct (total_one v (solve.x_variable i)
              (filter (λ j, i ≠ j) (range0 n))) as (j & Hj & Hvj & Honly).
  - apply NoDup_filter, NoDup_range.
  - intros j [? ?%elem_of_range]%list_elem_of_filter. by apply x_binary.
  - done.
  - apply list_elem_of_filter in Hj as [? ?%elem_of_range].
    exists j. split; [done|]. split; [done|].
    intros j' Hj' Hne Hvj'. apply Honly; [|done].
    apply list_elem_of_filter. split; [done|]. by apply elem_of_range.
Qed.

(** City [j] is entered along one edge. *)
Lemma entered_along (j : Z) :
  0 ≤ j < n →
  ∀ i i', 0 ≤ i < n → 0 ≤ i' < n → i ≠ j → i' ≠ j →
    (xv i j == 1)%Q → (xv i' j == 1)%Q → i = i'.
Proof.
  intros Hj i i' Hi Hi' Hne Hne' Hvi Hvi'.
  pose proof (constraint_holds _ (entered_once_in j Hj)) as Hsum.
  unfold pulp.holds, solve.entered_once in Hsum.
  cbn [pulp.relation pulp.expression pulp.bound] in Hsum.
  destruct (total_one v (λ i, solve.x_variable i j)
              (filter (λ i, i ≠ j) (range0 n))) as (i0 & _ & _ & Honly).
  - apply NoDup_filter, NoDup_range.
  - intros a [? ?%elem_of_range]%list_elem_of_filter. by apply x_binary.
  - done.
  - rewrite (Honly i), (Honly i'); [done|..]; try done;
      (apply list_elem_of_filter; split; [done|]; by apply elem_of_range).
Qed.

Lemma uses_one (i j : Z) :
  0 ≤ i < n → uses n x i j ↔ (0 ≤ j < n ∧ i ≠ j) ∧ (xv i j == 1)%Q.
Proof.
  intros Hi. unfold uses. rewrite chosen_values. split.
  - intros (Hj & Hne & _ & _ & Hhalf). split; [done|].
    destruct (x_binary i j Hi Hj Hne) as [H0|H1]; [|done].
    cbv beta in H0. rewrite H0 in Hhalf. exfalso. Lqa.lra.
  - intros ([Hj Hne] & H1). repeat (split; [done|]).
    cbv beta in H1. rewrite H1. Lqa.lra.
Qed.

Lemma edges_next (i : Z) :
  0 ≤ i < n → ∃ j, edges !! i = Some j ∧ 0 ≤ j < n ∧ j ≠ i.
Proof.
  intros Hi. destruct (left_along i Hi) as (j & [Hj Hne] & H1 & Honly).
  exists j. split; [|split; [done|by apply not_eq_sym]].
  apply solution_edges_unique; [done|by apply uses_one|].
  intros j' ([? ?] & ?)%uses_one; [|done]. by apply Honly.
Qed.

Lemma edges_one (i j : Z) :
  edges !! i = Some j → (0 ≤ i < n ∧ 0 ≤ j < n) ∧ i ≠ j ∧ (xv i j == 1)%Q.
Proof.
  intros (Hi & Huses)%solution_edges_Some.
  apply uses_one in Huses as ([? ?] & ?); done.
Qed.

Lemma edges_inj (i i' j : Z) :
  edges !! i = Some j → edges !! i' = Some j → i = i'.
Proof.
  intros ([Hi Hj] & Hne & H1)%edges_one ([Hi' _] & Hne' & H1')%edges_one.
  by apply (entered_along j Hj i i').
Qed.

Lemma edges_order (i j : Z) :
  edges !! i = Some j → i ≠ 0 → j ≠ 0 → (uv i + 1 <= uv j)%Q.
Proof.
  intros ([Hi Hj] & Hne & H1)%edges_one Hi0 Hj0.
  pose proof (constraint_holds _ (ordered_in i j ltac:(lia) ltac:(lia) Hne))
    as Hle.
  unfold pulp.holds, solve.ordered in Hle.
  cbn [pulp.relation pulp.expression pulp.bound] in Hle.
  rewrite !value_cons in Hle. change (pulp.value v []) with 0%Q in Hle.
  cbv beta in H1. rewrite H1 in Hle.
  unfold Z.sub in Hle. rewrite inject_Z_plus in Hle.
  change (inject_Z (- (1))) with (-1)%Q in Hle.
  generalize dependent (inject_Z n). intros q Hle. Lqa.lra.
Qed.

(** The edges used make one cycle from node 0 through every node. *)
Lemma feasible_cycle :
  0 < n → ∃ cycle, encodes_cycle n x cycle.
Proof.
  intros Hn.
  destruct (successor_cycle n edges uv edges_next edges_inj edges_order
              u_bounds Hn) as (cycle & Hperm & Hnodup & Hhead & Hedges).
  exists cycle. split; [done|]. split; [done|]. split; [done|]. split.
  - intros i Hi. rewrite Hperm in Hi. by apply elem_of_range in Hi.
  - intros k i j Hk Hnext. rewrite <- (Hedges k i Hk) in Hnext.
    pose proof (solution_edges_Some _ _ _ _ Hnext) as [Hi Huses].
    split; [done|]. intros j' Huses'.
    apply uses_one in Huses as ([? ?] & ?); [|done].
    apply uses_one in Huses' as ([? ?] & ?); [|done].
    destruct (left_along i Hi) as (j0 & _ & _ & Honly).
    by rewrite (Honly j), (Honly j').
Qed.

End feasible_model.

(** ** The tour of any assignment *)

(** The walk of [_extract_tour]: the nodes it appends are distinct and were
    not visited, each is the successor of the one before, and the walk begins
    at [current]. *)
Lemma follow_path_walk (edges : gmap Z Z) (steps : list Z) :
  ∀ (current : Z) (tour : list Z) (visited : gset Z),
    ∃ walk,
      MIPTSPSolver.follow_path edges steps current tour visited
      = (tour ++ walk, visited ∪ list_to_set walk)
      ∧ NoDup walk
      ∧ (∀ z, z ∈ walk → z ∉ visited)
      ∧ follows edges walk
      ∧ (walk = [] ∨ head walk = Some current)
      ∧ (length walk ≤ length steps)%nat
      ∧ (steps ≠ [] → current ∉ visited → walk ≠ []).
Proof.
  induction steps as [|step steps IH]; intros current tour visited.
  - exists []. simpl. rewrite app_nil_r, union_empty_r_L.
    split; [done|]. split; [apply NoDup_nil_2|].
    split; [by intros z Hz%elem_of_nil|].
    split; [by intros k a b Hk|]. split; [by left|]. split; [lia|done].
  - cbn [MIPTSPSolver.follow_path].
    destruct (decide (current ∈ visited)) as [Hin|Hout].
    { exists []. simpl. rewrite app_nil_r, union_empty_r_L.
      split; [done|]. split; [apply NoDup_nil_2|].
      split; [by intros z Hz%elem_of_nil|].
      split; [by intros k a b Hk|]. split; [by left|]. split; [lia|done]. }
    destruct (edges !! current) as [next|] eqn:Hnext.
    2:{ exists [current]. simpl. rewrite union_empty_r_L.
        split; [done|]. split; [apply NoDup_singleton|].
        split; [by intros z ->%list_elem_of_singleton|].
        split; [by intros [|k] a b Ha Hb|]. split; [by right|].
        split; [lia|done]. }
    destruct (IH next (tour ++ [current]) (visited ∪ {[current]}))
      as (walk & -> & Hnodup & Hfresh & Hfollows & Hhead & Hlen & _).
    exists (current :: walk).
    split.
    { rewrite <- app_assoc. simpl. f_equal. apply leibniz_equiv. intros z.
      rewrite !elem_of_union, elem_of_singleton. tauto. }
    split.
    { apply NoDup_cons. split; [|done]. intros Hc%Hfresh. apply Hc.
      apply elem_of_union. right. by apply elem_of_singleton. }
    split.
    { intros z [->|Hz%Hfresh]%elem_of_cons; [done|].
      intros Hv. apply Hz. apply elem_of_union. by left. }
    split.
    { intros [|k] a b Ha Hb; simpl in *.
      - injection Ha as <-. destruct Hhead as [->|Hhead]; [done|].
        destruct walk as [|w walk]; [done|]. simpl in *. congruence.
      - by apply (Hfollows k). }
    split; [by right|]. split; [simpl; lia|done].
Qed.

(** The nodes of a walk along the successor map of a solution are nodes of
    the instance. *)
Lemma follows_range (self : MIPTSPSolver.t) (x : MIPTSPSolver.solution)
    (walk : list Z) (start : Z) :
  follows (MIPTSPSolver.solution_edges self x) walk →
  head walk = Some start → 0 ≤ start < MIPTSPSolver.n self →
  ∀ z, z ∈ walk → 0 ≤ z < MIPTSPSolver.n self.
Proof.
  intros Hfollows Hhead Hstart z [k Hk]%list_elem_of_lookup_1.
  revert z Hk. induction k as [|k IH]; intros z Hk.
  - destruct walk; simplify_eq/=. done.
  - destruct (lookup_lt_is_Some_2 walk k) as [a Ha];
      [apply lookup_lt_Some in Hk; lia|].
    pose proof (Hfollows k a z Ha Hk) as He.
    apply solution_edges_Some in He as [_ (? & _)]. done.
Qed.

Lemma follow_cycle_first (edges : gmap Z Z) (start : Z) (fuel : nat)
    (c : Z) (subtour : list Z) (unvisited : gset Z) (c' : Z) :
  c ∈ unvisited → edges !! c = Some c' → c' ≠ start →
  c' ∈ unvisited ∖ {[c]} →
  MIPTSPSolver.follow_cycle edges start (S fuel) (Some c) subtour unvisited
  = MIPTSPSolver.follow_cycle edges start fuel (Some c') (subtour ++ [c])
      (unvisited ∖ {[c]}).
Proof.
  intros Hc Hnext Hne Hc'. cbn [MIPTSPSolver.follow_cycle].
  rewrite decide_True by done. rewrite Hnext.
  rewrite decide_False by congruence. by rewrite decide_True.
Qed.

Section any_assignment.
Context (self : MIPTSPSolver.t) (x : MIPTSPSolver.solution).

Local Abbreviation n := (MIPTSPSolver.n self).
Local Abbreviation edges := (MIPTSPSolver.solution_edges self x).

(** When an edge is used from node 0, the first walk of the repair begins
    at node 0 and has a second node. *)
Lemma depot_walk_found (j : Z) :
  edges !! 0 = Some j →
  ∃ walk, walk ∈ subtours_found self edges ∧ head walk = Some 0.
Proof.
  intros Hj. pose proof (solution_edges_Some _ _ _ _ Hj) as [H0 (Hjn & Hne & _)].
  unfold subtours_found.
  set (unvisited := list_to_set (range0 n) : gset Z).
  assert (Hsize : size unvisited = Z.to_nat n).
  { unfold unvisited. rewrite size_list_to_set by apply NoDup_range.
    unfold range0. rewrite length_range. f_equal. lia. }
  assert (Hin : ∀ z, 0 ≤ z < n → z ∈ unvisited).
  { intros z Hz. by apply elem_of_list_to_set, elem_of_range. }
  destruct (size unvisited) as [|fuel] eqn:Hfuel; [lia|].
  cbn [MIPTSPSolver.find_subtours].
  destruct (MIPTSPSolver.set_min unvisited) as [least|] eqn:Hmin.
  2:{ apply set_min_None in Hmin. specialize (Hin 0 H0).
      rewrite Hmin in Hin. by apply not_elem_of_empty in Hin. }
  rewrite decide_True by by apply Hin. rewrite Hfuel.
  assert (Hju : j ∈ unvisited ∖ {[0]}).
  { apply elem_of_difference. split; [by apply Hin|].
    intros ?%elem_of_singleton. lia. }
  rewrite (follow_cycle_first edges 0 fuel 0 [] unvisited j);
    [|by apply Hin|done|lia|done].
  destruct (follow_cycle_walk edges 0 fuel (Some j) ([] ++ [0])
              (unvisited ∖ {[0]}))
    as (walk & -> & _ & _ & _ & _ & Hnonempty).
  assert (Hwalk : walk ≠ []) by (apply (Hnonempty j eq_refl); [done|lia]).
  destruct walk as [|w walk]; [done|].
  rewrite decide_True by (simpl; lia).
  destruct (find_subtours_collected edges fuel
              ((unvisited ∖ {[0]}) ∖ list_to_set (w :: walk))
              ([] ++ [([] ++ [0]) ++ w :: walk]))
    as (collected & -> & _).
  exists (0 :: w :: walk). split; [left|done].
Qed.

(** The tour that [_extract_tour] returns for any assignment: none when no
    edge is used from node 0; else a walk from node 0 along used edges,
    through distinct nodes of the instance, closed by node 0. *)
Lemma extract_tour_shape :
  (edges !! 0 = None ∧ MIPTSPSolver._extract_tour self x = [])
  ∨ ∃ path,
      MIPTSPSolver._extract_tour self x = path ++ [0]
      ∧ head path = Some 0 ∧ NoDup path ∧ (2 ≤ length path)%nat
      ∧ (∀ z, z ∈ path → 0 ≤ z < n) ∧ follows edges path.
Proof.
  unfold MIPTSPSolver._extract_tour.
  destruct (decide (edges !! 0 = None)) as [Hnone|Hsome]; [by left|right].
  destruct (edges !! 0) as [j|] eqn:Hj; [clear Hsome|done].
  pose proof (solution_edges_Some _ _ _ _ Hj) as [H0 (Hjn & Hne & _)].
  destruct (follow_path_walk edges (range0 n) 0 [] ∅)
    as (walk & -> & Hnodup & _ & Hfollows & Hhead & _ & Hnonempty).
  cbn [app].
  assert (Hwalk : walk ≠ []).
  { apply Hnonempty; [|apply not_elem_of_empty].
    unfold range0. rewrite range_cons by lia. done. }
  destruct Hhead as [?|Hhead]; [done|].
  case_decide as Hlen.
  - destruct (depot_walk_found j Hj) as (st & Hst & Hhead').
    destruct (subtours_found_collected self edges) as [Hall _].
    rewrite Forall_forall in Hall.
    destruct (Hall st Hst) as (Hlong & Hnd & Hfol & Hrange & _).
    destruct (handle_subtours_depot self edges st Hst)
      as (before & after & Hsplit & Hbefore & ->).
    { destruct st; simplify_eq/=. left. }
    destruct before as [|b before].
    2:{ rewrite Hsplit in Hhead'. simplify_eq/=. destruct Hbefore. left. }
    rewrite app_nil_r. simpl in Hsplit. rewrite <- Hsplit.
    exists st. split; [done|]. split; [done|]. split; [done|].
    split; [lia|]. split; [done|done].
  - exists walk. split; [done|]. split; [done|]. split; [done|].
    split; [lia|]. split; [|done].
    by apply (follows_range self x walk 0).
Qed.

End any_assignment.

(** ** The checks of a tour *)

Lemma take_snoc {A : Type} (path : list A) (c : A) :
  take (length (path ++ [c]) - 1) (path ++ [c]) = path.
Proof.
  rewrite length_app. simpl.
  replace (length path + 1 - 1)%nat with (length path) by lia.
  by rewrite take_app_length.
Qed.

Lemma snoc_decompose {A : Type} (tour : list A) :
  tour ≠ [] → ∃ path c, tour = path ++ [c].
Proof.
  intros Hne. destruct tour as [|a tour] using rev_ind; [done|]. eauto.
Qed.

(** [validate_tour] on a tour with its last entry set apart. *)
Lemma validate_tour_snoc (tsp_data : TSPData.t) (path : list Z) (c : Z) :
  path ≠ [] →
  debug_mip_solutions.validate_tour tsp_data (path ++ [c])
  = if decide (head path ≠ Some c)
    then (false, debug_mip_solutions.Not_closed (head path) (Some c))
    else if decide ((list_to_set path : gset Z)
                    ≠ list_to_set (range0 (TSPData.dimension tsp_data)))
    then (false,
          debug_mip_solutions.Missing_and_extra
            (list_to_set (range0 (TSPData.dimension tsp_data))
             ∖ list_to_set path)
            (list_to_set path
             ∖ list_to_set (range0 (TSPData.dimension tsp_data))))
    else (true, debug_mip_solutions.Valid_tour).
Proof.
  intros Hpath. unfold debug_mip_solutions.validate_tour.
  destruct (path ++ [c]) as [|a tour] eqn:Htour;
    [by destruct path|]. rewrite <- Htour. clear a tour Htour.
  rewrite decide_False
    by (rewrite length_app; destruct path; [done|simpl; lia]).
  rewrite take_snoc, last_snoc.
  assert (head (path ++ [c]) = head path) as -> by (by destruct path).
  done.
Qed.

(** The tours that [validate_tour] accepts: closed, and through the nodes of
    the instance and no other. *)
Lemma validate_tour_true (tsp_data : TSPData.t) (tour : list Z) :
  (debug_mip_solutions.validate_tour tsp_data tour).1 = true
  ↔ ∃ path c, tour = path ++ [c] ∧ head path = Some c
      ∧ ∀ i, i ∈ path ↔ 0 ≤ i < TSPData.dimension tsp_data.
Proof.
  split.
  - destruct (decide (tour = [])) as [->|Hne]; [done|].
    destruct (snoc_decompose tour Hne) as (path & c & ->).
    destruct (decide (path = [])) as [->|Hpath]; [done|].
    rewrite validate_tour_snoc by done.
    destruct (decide (head path ≠ Some c)) as [|Hhead]; [done|].
    apply dec_stable in Hhead.
    destruct (decide (_ ≠ _)) as [|Hset]; [done|]. apply dec_stable in Hset.
    intros _. exists path, c. split; [done|]. split; [done|].
    intros i. rewrite <- elem_of_range.
    rewrite <- (elem_of_list_to_set (C := gset Z) i path), Hset.
    by rewrite elem_of_list_to_set.
  - intros (path & c & -> & Hhead & Hnodes).
    rewrite validate_tour_snoc by (by destruct path).
    rewrite decide_False by (by intros []).
    rewrite decide_False; [done|]. intros Hne. apply Hne.
    apply set_eq. intros i. rewrite !elem_of_list_to_set, Hnodes.
    unfold range0. by rewrite elem_of_range.
Qed.

(** A list that covers the [n] nodes has [n] entries at least, and exactly
    [n] when no node is repeated. *)
Lemma cover_length (n : Z) (path : list Z) :
  (∀ i, i ∈ path ↔ 0 ≤ i < n) →
  (Z.to_nat n ≤ length path)%nat
  ∧ (length path = Z.to_nat n ↔ NoDup path).
Proof.
  intros Hnodes.
  assert (Hsub : range0 n ⊆+ path).
  { apply NoDup_submseteq; [apply NoDup_range|].
    intros i Hi%elem_of_range. by apply Hnodes. }
  pose proof (submseteq_length _ _ Hsub) as Hlen.
  unfold range0 in Hlen. rewrite length_range in Hlen.
  replace (Z.to_nat (n - 0)) with (Z.to_nat n) in Hlen by lia.
  split; [done|]. split.
  - intros Heq.
    assert (Hperm : range0 n ≡ₚ path).
    { apply submseteq_length_Permutation; [done|].
      unfold range0. rewrite length_range. lia. }
    rewrite <- Hperm. apply NoDup_range.
  - intros Hnodup.
    pose proof (NoDup_bounded_length n path Hnodup
                  (λ i Hi, proj1 (Hnodes i) Hi)). lia.
Qed.

(** *** The total of the entries along a tour *)

Lemma edge_total_cons (m : matrix) (a b : Z) (rest : list Z) :
  edge_total m (a :: b :: rest)
  = default 0 (entry m a b) + edge_total m (b :: rest).
Proof. reflexivity. Qed.

Lemma edge_total_snoc (m : matrix) (path : list Z) (a b : Z) :
  edge_total m ((path ++ [a]) ++ [b])
  = edge_total m (path ++ [a]) + default 0 (entry m a b).
Proof.
  induction path as [|c path IH]; [simpl; lia|].
  destruct path as [|d path].
  - simpl. lia.
  - cbn [app] in *. rewrite !edge_total_cons, IH. lia.
Qed.

(** On a symmetric matrix a tour is as long backwards. *)
Lemma edge_total_reverse (m : matrix) (tour : list Z) :
  (∀ a b, a ∈ tour → b ∈ tour → entry m a b = entry m b a) →
  edge_total m (reverse tour) = edge_total m tour.
Proof.
  induction tour as [|a tour IH]; intros Hsym; [done|].
  destruct tour as [|b tour]; [done|].
  rewrite edge_total_cons, (reverse_cons (b :: tour) a), (reverse_cons tour b).
  rewrite edge_total_snoc, <- (reverse_cons tour b), IH.
  - rewrite (Hsym b a); [lia|right; left|left].
  - intros c d Hc Hd. apply Hsym; by right.
Qed.

Lemma add_distances_edge_total (distance_matrix : matrix) (tour : list Z) :
  (∀ z, z ∈ tour → 0 ≤ z < Z.of_nat (length distance_matrix)) →
  (∀ (k : nat) a b, tour !! k = Some a → tour !! S k = Some b →
     ∃ d, np_get distance_matrix a b = Ok d) →
  ∀ (j k : nat) (total : Z),
    (k + j + 1 = length tour)%nat →
    debug_mip_solutions.add_distances distance_matrix tour
      (range (Z.of_nat k) (Z.of_nat (length tour) - 1)) total
    = Ok (debug_mip_solutions.Finite
            (total + edge_total distance_matrix (drop k tour))).
Proof.
  intros Hrange Hget j. induction j as [|j IH]; intros k total Hk.
  - rewrite range_nil by lia. simpl.
    destruct (lookup_lt_is_Some_2 tour k) as [a Ha]; [lia|].
    rewrite (drop_S _ _ _ Ha), drop_ge by lia. simpl. do 2 f_equal. lia.
  - rewrite range_cons by lia. cbn [debug_mip_solutions.add_distances].
    destruct (lookup_lt_is_Some_2 tour k) as [a Ha]; [lia|].
    destruct (lookup_lt_is_Some_2 tour (S k)) as [b Hb]; [lia|].
    unfold list_item. rewrite Nat2Z.id.
    replace (Z.to_nat (Z.of_nat k + 1)) with (S k) by lia.
    rewrite Ha, Hb. simpl.
    pose proof (Hrange a (list_elem_of_lookup_2 _ _ _ Ha)) as Hra.
    pose proof (Hrange b (list_elem_of_lookup_2 _ _ _ Hb)) as Hrb.
    rewrite decide_True by lia.
    destruct (Hget k a b Ha Hb) as [d Hd]. rewrite Hd. simpl.
    replace (Z.of_nat k + 1) with (Z.of_nat (S k)) by lia.
    rewrite IH by lia.
    rewrite (drop_S _ _ _ Ha), (drop_S _ _ _ Hb), edge_total_cons.
    rewrite (np_get_entry _ a b d (proj1 Hra) (proj1 Hrb) Hd). simpl.
    do 2 f_equal. lia.
Qed.

(** [calculate_tour_distance] adds the entries along the tour, when the
    tour has three entries at least and the matrix an entry for each of its
    steps. *)
Lemma calculate_tour_distance_total (tsp_data : TSPData.t) (tour : list Z) :
  (3 ≤ length tour)%nat →
  (∀ z, z ∈ tour
        → 0 ≤ z < Z.of_nat (length (TSPData.distance_matrix tsp_data))) →
  (∀ (k : nat) a b, tour !! k = Some a → tour !! S k = Some b →
     ∃ d, np_get (TSPData.distance_matrix tsp_data) a b = Ok d) →
  debug_mip_solutions.calculate_tour_distance tsp_data tour
  = Ok (debug_mip_solutions.Finite
          (edge_total (TSPData.distance_matrix tsp_data) tour)).
Proof.
  intros Hlen Hrange Hget. unfold debug_mip_solutions.calculate_tour_distance.
  rewrite decide_False by (intros [->|?]; [simpl in Hlen; lia|lia]).
  unfold range0. change 0 with (Z.of_nat 0) at 1.
  by rewrite (add_distances_edge_total _ tour Hrange Hget (length tour - 1) 0)
    by lia.
Qed.

(** ** The objective and the length of the tour *)

Lemma sum_permutation (h : Z → Z) (l1 l2 : list Z) :
  l1 ≡ₚ l2 → foldr Z.add 0 (h <$> l1) = foldr Z.add 0 (h <$> l2).
Proof. induction 1; csimpl; lia. Qed.

(** A weighted sum of values that are 1 at [a] and 0 elsewhere. *)
Lemma value_at (v : string → Q) (var : Z → pulp.LpVariable) (w : Z → Q)
    (l : list Z) (a : Z) :
  NoDup l → a ∈ l → (v (pulp.name (var a)) == 1)%Q →
  (∀ b, b ∈ l → b ≠ a → (v (pulp.name (var b)) == 0)%Q) →
  (pulp.value v ((λ b, (w b, var b)) <$> l) == w a)%Q.
Proof.
  induction l as [|c l IH]; intros Hnodup Ha Hva Hzero;
    [by apply elem_of_nil in Ha|].
  apply NoDup_cons in Hnodup as [Hc Hnodup].
  rewrite fmap_cons, value_cons.
  apply elem_of_cons in Ha as [->|Ha].
  - rewrite Hva.
    assert (Hrest : (pulp.value v ((λ b, (w b, var b)) <$> l) == 0)%Q).
    { clear IH. induction l as [|b l IH]; [done|].
      rewrite fmap_cons, value_cons.
      rewrite (Hzero b); [|right; left|intros ->; apply Hc; left].
      rewrite IH; [Lqa.lra| |by apply NoDup_cons in Hnodup as [_ ?]|].
      - intros Hin. apply Hc. by right.
      - intros d Hd Hne. apply Hzero; [|done].
        apply elem_of_cons in Hd as [->|Hd]; [left|right; by right]. }
    rewrite Hrest. Lqa.lra.
  - rewrite (Hzero c ltac:(left)) by (by intros ->).
    rewrite IH; [Lqa.lra|done..|].
    intros b Hb. apply Hzero. by right.
Qed.

Lemma value_bind (v : string → Q) (rows : list Z)
    (f : Z → pulp.LpAffineExpression) (h : Z → Z) :
  (∀ i, i ∈ rows → (pulp.value v (f i) == inject_Z (h i))%Q) →
  (pulp.value v (rows ≫= f) == inject_Z (foldr Z.add 0%Z (h <$> rows)))%Q.
Proof.
  induction rows as [|i rows IH]; intros Hrows; [done|].
  cbn [mbind list_bind fmap list_fmap foldr].
  change (list_bind _ _ f rows) with (rows ≫= f).
  rewrite value_app, inject_Z_plus, (Hrows i ltac:(left)), IH; [done|].
  intros j Hj. apply Hrows. by right.
Qed.

Section objective.
Context (self : MIPTSPSolver.t).

Local Abbreviation n := (MIPTSPSolver.n self).
Local Abbreviation m := (MIPTSPSolver.distance_matrix self).
Local Abbreviation get := (λ i j : Z,
  match np_get m i j with Ok d => d | Raise _ => 0 end).
Local Abbreviation term := (λ i j : Z, (inject_Z (get i j), solve.x_variable i j)).
Local Abbreviation cell := (λ (i j : Z) (terms : pulp.LpAffineExpression),
  if decide (i ≠ j) then
    d ← np_get m i j; Ok (terms ++ [(inject_Z d, solve.x_variable i j)])
  else Ok terms).

Lemma objective_row (i : Z) (js : list Z) :
  ∀ terms0 terms,
    for_each js (cell i) terms0 = Ok terms →
    terms = terms0 ++ (term i <$> filter (λ j, i ≠ j) js)
    ∧ ∀ j, j ∈ js → i ≠ j → ∃ d, np_get m i j = Ok d.
Proof.
  induction js as [|j js IH]; intros terms0 terms Hrow.
  - simpl in Hrow. injection Hrow as <-. rewrite filter_nil, app_nil_r.
    split; [done|]. by intros j Hj%elem_of_nil.
  - cbn [for_each] in Hrow. apply bind_Ok in Hrow as (terms1 & Hcell & Hrow).
    destruct (IH _ _ Hrow) as [-> Hget]. cbv beta in Hcell.
    destruct (decide (i ≠ j)) as [Hne|Heq].
    + apply bind_Ok in Hcell as (d & Hd & [= <-]).
      rewrite filter_cons_True by done. rewrite fmap_cons, Hd.
      rewrite <- app_assoc. split; [done|].
      intros j' [->|Hj']%elem_of_cons Hne'; [by exists d|by apply Hget].
    + injection Hcell as <-. rewrite filter_cons_False by done.
      split; [done|].
      intros j' [->|Hj']%elem_of_cons Hne'; [done|by apply Hget].
Qed.

Lemma objective_rows (rows js : list Z) :
  ∀ terms0 terms,
    for_each rows (λ i, for_each js (cell i)) terms0 = Ok terms →
    terms = terms0 ++ (rows ≫= λ i, term i <$> filter (λ j, i ≠ j) js)
    ∧ ∀ i j, i ∈ rows → j ∈ js → i ≠ j → ∃ d, np_get m i j = Ok d.
Proof.
  induction rows as [|i rows IH]; intros terms0 terms Hrows.
  - simpl in Hrows. injection Hrows as <-. rewrite app_nil_r.
    split; [done|]. by intros i j Hi%elem_of_nil.
  - cbn [for_each] in Hrows. apply bind_Ok in Hrows as (terms1 & Hrow & Hrows).
    destruct (IH _ _ Hrows) as [-> Hget].
    destruct (objective_row i js _ _ Hrow) as [-> Hget'].
    rewrite <- app_assoc. split; [done|].
    intros i' j [->|Hi']%elem_of_cons Hj Hne; [by apply Hget'|by apply Hget].
Qed.

(** The terms of the objective, and the entries that it takes from the
    matrix. *)
Lemma objective_terms (terms : pulp.LpAffineExpression) :
  solve.objective self = Ok terms →
  terms = (range0 n ≫= λ i, term i <$> filter (λ j, i ≠ j) (range0 n))
  ∧ ∀ i j, 0 ≤ i < n → 0 ≤ j < n → i ≠ j →
      ∃ d, np_get m i j = Ok d ∧ entry m i j = Some d
           ∧ i < Z.of_nat (length m).
Proof.
  intros Hobjective. apply objective_rows in Hobjective as [-> Hget].
  split; [done|]. intros i j Hi Hj Hne.
  destruct (Hget i j) as [d Hd]; [by apply elem_of_range..|done|].
  exists d. split; [done|]. split; [apply np_get_entry; [lia..|done]|].
  unfold np_get, np_index in Hd.
  destruct (decide (0 ≤ i < Z.of_nat (length m))) as [?|?]; [lia|].
  by rewrite decide_False in Hd by lia.
Qed.

End objective.

(** The entries along a walk that follows the successor map. *)
Lemma edge_total_follows (m : matrix) (edges : gmap Z Z) (path : list Z)
    (c : Z) :
  path ≠ [] → follows edges (path ++ [c]) →
  edge_total m (path ++ [c])
  = foldr Z.add 0
      ((λ a, default 0 (entry m a (default 0 (edges !! a)))) <$> path).
Proof.
  induction path as [|a path IH]; intros Hne Hfollows; [done|].
  destruct path as [|b path].
  - simpl. rewrite (Hfollows 0%nat a c eq_refl eq_refl). simpl. lia.
  - cbn [app] in *. rewrite edge_total_cons, IH; [|done|].
    + rewrite (fmap_cons _ a), (foldr_cons _ _ _ _).
      rewrite (Hfollows 0%nat a b eq_refl eq_refl). done.
    + intros k a' b' Ha' Hb'. by apply (Hfollows (S k)).
Qed.

Lemma cycle_follows (edges : gmap Z Z) (cycle : list Z) (c : Z) :
  cycle !! 0%nat = Some c →
  (∀ (k : nat) i, cycle !! k = Some i →
     edges !! i = cycle !! (S k `mod` length cycle)%nat) →
  follows edges (cycle ++ [c]).
Proof.
  intros Hfirst Hedges k a b Ha Hb.
  pose proof (lookup_lt_Some _ _ _ Hb) as Hlt. rewrite length_app in Hlt.
  simpl in Hlt. rewrite lookup_app_l in Ha by lia.
  rewrite (Hedges k a Ha).
  destruct (decide (S k = length cycle)) as [Hlast|Hmore].
  - rewrite Hlast, Nat.Div0.mod_same, Hfirst.
    rewrite lookup_app_r, Hlast, Nat.sub_diag in Hb by lia. done.
  - rewrite Nat.mod_small by lia. by rewrite lookup_app_l in Hb by lia.
Qed.

(** ** Decimal text *)

Lemma append_assoc (s1 s2 s3 : string) :
  (s1 +:+ s2) +:+ s3 = s1 +:+ (s2 +:+ s3).
Proof. induction s1 as [|c s1 IH]; [done|]. by rewrite !append_cons, IH. Qed.

Lemma append_empty_r (s : string) : s +:+ "" = s.
Proof. induction s as [|c s IH]; [done|]. by rewrite append_cons, IH. Qed.

Lemma all_of_append (p : ascii → bool) (s1 s2 : string) :
  all_of p (s1 +:+ s2) = all_of p s1 && all_of p s2.
Proof.
  induction s1 as [|c s1 IH]; [done|].
  rewrite append_cons. simpl. by rewrite IH, andb_assoc.
Qed.

Lemma pretty_N_char_digit (x : N) :
  (x < 10)%N →
  isdecimal (pretty_N_char x) = true
  ∧ digit_value (pretty_N_char x) = Z.of_N x.
Proof.
  intros Hx.
  assert (x = 0 ∨ x = 1 ∨ x = 2 ∨ x = 3 ∨ x = 4 ∨ x = 5 ∨ x = 6 ∨ x = 7
          ∨ x = 8 ∨ x = 9)%N as Hcases by lia.
  repeat (destruct Hcases as [->|Hcases]; [done|]). by subst.
Qed.

Lemma digits_value_append (ds s : string) (acc : Z) :
  all_of isdecimal ds = true →
  ∃ acc', digits_value acc (ds +:+ s) = digits_value acc' s
          ∧ digits_value acc ds = Some acc'.
Proof.
  revert acc. induction ds as [|c ds IH]; intros acc Hds; [by exists acc|].
  apply andb_true_iff in Hds as [Hc Hds].
  rewrite append_cons. simpl. rewrite Hc. by apply IH.
Qed.

(** The digits that [pretty] puts before [s] are decimal digits and read
    back as the number. *)
Lemma pretty_N_go_digits (x : N) :
  ∀ s, ∃ ds,
    pretty_N_go x s = ds +:+ s
    ∧ all_of isdecimal ds = true
    ∧ ((0 < x)%N → ds ≠ "")
    ∧ ∀ acc, digits_value acc ds
             = Some (acc * 10 ^ Z.of_nat (String.length ds) + Z.of_N x).
Proof.
  induction (N.lt_wf_0 x) as [x _ IH]. intros s.
  destruct (decide (x = 0)%N) as [->|Hx].
  { exists "". rewrite pretty_N_go_0. split; [done|]. split; [done|].
    split; [lia|]. intros acc. simpl. f_equal. lia. }
  rewrite pretty_N_go_step by lia.
  destruct (IH (x `div` 10)%N ltac:(apply N.div_lt; lia)
              (String (pretty_N_char (x `mod` 10)) s))
    as (ds & -> & Hds & _ & Hvalue).
  destruct (pretty_N_char_digit (x `mod` 10)%N) as [Hdigit Hchar];
    [apply N.mod_lt; lia|].
  exists (ds +:+ String (pretty_N_char (x `mod` 10)) "").
  split; [by rewrite append_assoc|]. split.
  { rewrite all_of_append, Hds. simpl. by rewrite Hdigit. }
  split; [by destruct ds|].
  intros acc.
  destruct (digits_value_append ds (String (pretty_N_char (x `mod` 10)) "")
              acc Hds) as (acc' & -> & Hacc').
  rewrite Hvalue in Hacc'. injection Hacc' as <-.
  simpl. rewrite Hdigit, Hchar. f_equal.
  assert (Hlen : String.length (ds +:+ String (pretty_N_char (x `mod` 10)) "")
                 = S (String.length ds)).
  { clear. induction ds as [|c ds IH]; [done|].
    rewrite append_cons. simpl. by rewrite IH. }
  rewrite Hlen, Nat2Z.inj_succ, Z.pow_succ_r by lia.
  pose proof (N.div_mod x 10 ltac:(lia)) as Hdiv.
  rewrite N2Z.inj_div, N2Z.inj_mod. change (Z.of_N 10) with 10.
  pose proof (Z.div_mod (Z.of_N x) 10 ltac:(lia)). lia.
Qed.

Lemma pretty_N_digits (x : N) :
  all_of isdecimal (pretty x) = true ∧ pretty x ≠ ""
  ∧ digits_value 0 (pretty x) = Some (Z.of_N x).
Proof.
  unfold pretty, pretty_N. case_decide as Hx; [by subst|].
  destruct (pretty_N_go_digits x "") as (ds & -> & Hds & Hne & Hvalue).
  rewrite append_empty_r. split; [done|]. split; [apply Hne; lia|].
  rewrite Hvalue; f_equal; lia.
Qed.

(** The text of an integer that is not negative is made of decimal digits,
    one at least. *)
Lemma pretty_Z_digits (z : Z) :
  0 ≤ z → all_of isdecimal (pretty z) = true ∧ pretty z ≠ "".
Proof.
  intros Hz. destruct z as [|p|p]; [done| |lia].
  destruct (pretty_N_digits (N.pos p)) as (? & ? & _). done.
Qed.

(** The plain decimal reading of the text of an integer is that integer. *)
Lemma decimal_int_pretty (z : Z) : decimal_int (pretty z) = Some z.
Proof.
  assert (Hpos : ∀ p, unsigned_int (pretty (N.pos p)) = Some (Z.pos p)
                      ∧ ∃ c s, pretty (N.pos p) = String c s
                               ∧ isdecimal c = true).
  { intros p. destruct (pretty_N_digits (N.pos p)) as (Hds & Hne & Hvalue).
    destruct (pretty (N.pos p)) as [|c s] eqn:Hp; [done|].
    split; [exact Hvalue|]. exists c, s. split; [done|].
    by apply andb_true_iff in Hds as [? _]. }
  destruct z as [|p|p]; [done| |].
  - destruct (Hpos p) as (Hvalue & c & s & Hp & Hc).
    change (pretty (Z.pos p)) with (pretty (N.pos p)).
    unfold decimal_int. rewrite Hp in *.
    destruct (decide (c = "-"%char)) as [->|Hdash]; [done|].
    destruct c as [[] [] [] [] [] [] [] []]; try done.
  - change (pretty (Z.neg p)) with ("-" +:+ pretty (N.pos p)).
    rewrite append_cons, append_nil. unfold decimal_int.
    destruct (Hpos p) as (-> & _). done.
Qed.

(** Two texts that begin with digits up to the same separator are equal
    part by part. *)
Lemma digits_separator_inj (a a' b b' : string) (sep : ascii) :
  all_of isdecimal a = true → all_of isdecimal a' = true →
  isdecimal sep = false →
  a +:+ String sep b = a' +:+ String sep b' → a = a' ∧ b = b'.
Proof.
  intros Ha Ha' Hsep. revert a' Ha'.
  induction a as [|c a IH]; intros [|c' a'] Ha' Heq.
  - rewrite !append_nil in Heq. by injection Heq as ->.
  - rewrite append_nil, append_cons in Heq. injection Heq as <- _.
    apply andb_true_iff in Ha' as [? _]. congruence.
  - rewrite append_nil, append_cons in Heq. injection Heq as -> _.
    apply andb_true_iff in Ha as [? _]. congruence.
  - rewrite !append_cons in Heq. injection Heq as -> Heq.
    apply andb_true_iff in Ha as [_ Ha].
    apply andb_true_iff in Ha' as [_ Ha'].
    destruct (IH Ha a' Ha' Heq) as [-> ->]. done.
Qed.

(** ** The names of the variables *)

Lemma x_variable_name (i j : Z) :
  pulp.name (solve.x_variable i j) = "x_" +:+ pretty i +:+ "_" +:+ pretty j.
Proof. reflexivity. Qed.

Lemma u_variable_name (self : MIPTSPSolver.t) (i : Z) :
  pulp.name (solve.u_variable self i) = "u_" +:+ pretty i.
Proof. reflexivity. Qed.

Lemma x_variable_name_inj (i j i' j' : Z) :
  0 ≤ i → 0 ≤ i' →
  pulp.name (solve.x_variable i j) = pulp.name (solve.x_variable i' j') →
  i = i' ∧ j = j'.
Proof.
  intros Hi Hi'. rewrite !x_variable_name, !append_cons, !append_nil.
  intros [= Heq].
  destruct (pretty_Z_digits i Hi) as [Hd _].
  destruct (pretty_Z_digits i' Hi') as [Hd' _].
  apply (digits_separator_inj _ _ _ _ "_" Hd Hd' eq_refl) in Heq as [Ha Hb].
  by apply (inj pretty) in Ha, Hb.
Qed.

Lemma u_variable_name_inj (self self' : MIPTSPSolver.t) (i i' : Z) :
  pulp.name (solve.u_variable self i) = pulp.name (solve.u_variable self' i') →
  i = i'.
Proof.
  rewrite !u_variable_name, !append_cons, !append_nil. intros [= Heq].
  by apply (inj pretty) in Heq.
Qed.

Lemma x_u_variable_name (self : MIPTSPSolver.t) (i j i' : Z) :
  pulp.name (solve.x_variable i j) ≠ pulp.name (solve.u_variable self i').
Proof. by rewrite x_variable_name, u_variable_name, !append_cons. Qed.

(** ** The assignment of a round trip *)

Lemma succ_mod_inj (a b len : nat) :
  (a < len)%nat → (b < len)%nat →
  (S a `mod` len = S b `mod` len)%nat → a = b.
Proof.
  intros Ha Hb.
  destruct (decide (S a = len)) as [<-|]; destruct (decide (S b = S a)) as [Heq|];
    rewrite ?Heq, ?Nat.Div0.mod_same; try lia.
  - rewrite (Nat.mod_small (S b)) by lia. lia.
  - destruct (decide (S b = len)) as [<-|].
    + rewrite Nat.Div0.mod_same, Nat.mod_small by lia. lia.
    + rewrite !Nat.mod_small by lia. lia.
Qed.

Section cycle_model.
Context (self : MIPTSPSolver.t) (cycle : list Z).
Context (Hperm : cycle ≡ₚ range0 (MIPTSPSolver.n self)).
Context (Hfirst : cycle !! 0%nat = Some 0) (Hn : 2 ≤ MIPTSPSolver.n self).

Local Abbreviation n := (MIPTSPSolver.n self).
Local Abbreviation v := (cycle_assignment self cycle).
Local Abbreviation after k :=
  (default 0 (cycle !! (S k `mod` length cycle)%nat)).
Local Abbreviation xv i j := (v (pulp.name (solve.x_variable i j))).
Local Abbreviation uv i := (v (pulp.name (solve.u_variable self i))).

Lemma cycle_NoDup : NoDup cycle.
Proof. rewrite Hperm. apply NoDup_range. Qed.

Lemma cycle_length : length cycle = Z.to_nat n.
Proof. rewrite Hperm. unfold range0. rewrite length_range. f_equal. lia. Qed.

Lemma cycle_nodes (i : Z) : i ∈ cycle ↔ 0 ≤ i < n.
Proof. rewrite Hperm. apply elem_of_range. Qed.

Lemma cycle_place (i : Z) :
  0 ≤ i < n → ∃ k, cycle !! k = Some i ∧ (k < length cycle)%nat.
Proof.
  intros [k Hk]%cycle_nodes%list_elem_of_lookup_1. exists k.
  split; [done|]. by apply lookup_lt_Some in Hk.
Qed.

Lemma after_lookup (k : nat) :
  cycle !! (S k `mod` length cycle)%nat = Some (after k).
Proof.
  pose proof cycle_length.
  destruct (lookup_lt_is_Some_2 cycle (S k `mod` length cycle)%nat) as [j Hj];
    [apply Nat.mod_upper_bound; lia|]. by rewrite Hj.
Qed.

Lemma after_other (k : nat) (i : Z) : cycle !! k = Some i → after k ≠ i.
Proof.
  intros Hk Heq. pose proof (after_lookup k) as Hafter.
  rewrite Heq in Hafter.
  pose proof (lookup_lt_Some _ _ _ Hk) as Hlt. pose proof cycle_length.
  pose proof (NoDup_lookup _ _ _ _ cycle_NoDup Hafter Hk) as Hsame.
  destruct (decide (S k = length cycle)) as [Hlast|].
  - rewrite Hlast, Nat.Div0.mod_same in Hsame. lia.
  - rewrite Nat.mod_small in Hsame by lia. lia.
Qed.

Lemma after_range (k : nat) : 0 ≤ after k < n.
Proof. apply cycle_nodes. eapply list_elem_of_lookup_2, after_lookup. Qed.

Lemma assignment_edge (k : nat) (i : Z) :
  cycle !! k = Some i → xv i (after k) = 1%Q.
Proof.
  intros Hk. unfold cycle_assignment.
  erewrite elem_of_list_to_map_1'; [done| |].
  - intros y [Hy|Hy]%elem_of_app.
    + by apply elem_of_lookup_imap_1 in Hy as (? & ? & [= _ <-] & _).
    + by apply elem_of_lookup_imap_1 in Hy as (? & ? & [=] & _).
  - apply elem_of_app. left.
    by apply (elem_of_lookup_imap_2 (λ k i, (_, 1%Q)) cycle i k).
Qed.

Lemma assignment_other (i j : Z) :
  0 ≤ i → (∀ k, cycle !! k = Some i → after k ≠ j) → xv i j = 0%Q.
Proof.
  intros Hi Hother. unfold cycle_assignment.
  erewrite not_elem_of_list_to_map_1; [done|].
  intros ([name y] & Heq & [Hy|Hy]%elem_of_app)%list_elem_of_fmap;
    cbn [fst] in Heq.
  - apply elem_of_lookup_imap_1 in Hy as (k & i' & Hpair & Hk).
    apply (f_equal fst) in Hpair. cbn [fst] in Hpair.
    rewrite Hpair in Heq.
    pose proof (proj1 (cycle_nodes i') (list_elem_of_lookup_2 _ _ _ Hk)).
    apply x_variable_name_inj in Heq as [? ?]; [|lia..]. subst i' j.
    by apply (Hother k).
  - apply elem_of_lookup_imap_1 in Hy as (k & i' & Hpair & Hk).
    apply (f_equal fst) in Hpair. cbn [fst] in Hpair.
    rewrite Hpair in Heq. by apply x_u_variable_name in Heq.
Qed.

Lemma assignment_place (k : nat) (i : Z) :
  cycle !! k = Some i → uv i = inject_Z (Z.of_nat k).
Proof.
  intros Hk. unfold cycle_assignment.
  erewrite elem_of_list_to_map_1'; [done| |].
  - intros y [Hy|Hy]%elem_of_app.
    + by apply elem_of_lookup_imap_1 in Hy as (? & ? & [=] & _).
    + apply elem_of_lookup_imap_1 in Hy as (k' & i' & Hpair & Hk').
      pose proof (f_equal fst Hpair) as Hname. cbn [fst] in Hname.
      apply (f_equal snd) in Hpair. cbn [snd] in Hpair. subst y.
      apply u_variable_name_inj in Hname as <-.
      by rewrite (NoDup_lookup _ _ _ _ cycle_NoDup Hk Hk').
  - apply elem_of_app. right.
    by apply (elem_of_lookup_imap_2
                (λ k i, (pulp.name (solve.u_variable self i),
                         inject_Z (Z.of_nat k))) cycle i k).
Qed.

(** The value of the variable of an edge: 1 on the round trip, 0 off it. *)
Lemma assignment_value (k : nat) (i j : Z) :
  cycle !! k = Some i →
  xv i j = if decide (after k = j) then 1%Q else 0%Q.
Proof.
  intros Hk. case_decide as Hj; [subst j; by apply assignment_edge|].
  apply assignment_other.
  - apply list_elem_of_lookup_2, cycle_nodes in Hk. lia.
  - intros k' Hk'. by rewrite (NoDup_lookup _ _ _ _ cycle_NoDup Hk' Hk).
Qed.

Lemma cycle_left_once (i : Z) :
  0 ≤ i < n → pulp.holds v (solve.left_once self i).
Proof.
  intros Hi. destruct (cycle_place i Hi) as (k & Hk & Hlt).
  unfold pulp.holds, solve.left_once.
  cbn [pulp.relation pulp.expression pulp.bound].
  apply (total_at v (solve.x_variable i) _ (after k)).
  - apply NoDup_filter, NoDup_range.
  - apply list_elem_of_filter. split; [|apply elem_of_range, after_range].
    apply not_eq_sym. by apply after_other.
  - by rewrite (assignment_edge k i Hk).
  - intros j _ Hne. rewrite (assignment_value k i j Hk).
    by rewrite decide_False by by apply not_eq_sym.
Qed.

Lemma cycle_entered_once (j : Z) :
  0 ≤ j < n → pulp.holds v (solve.entered_once self j).
Proof.
  intros Hj. destruct (cycle_place j Hj) as (kj & Hkj & Hlt).
  pose proof cycle_length as Hlen.
  set (k := ((kj + length cycle - 1) `mod` length cycle)%nat).
  assert (Hk : (k < length cycle)%nat)
    by (apply Nat.mod_upper_bound; lia).
  assert (Hsucc : (S k `mod` length cycle = kj)%nat).
  { unfold k. destruct (decide (kj = 0%nat)) as [->|].
    - rewrite (Nat.mod_small (0 + length cycle - 1)) by lia.
      replace (S (0 + length cycle - 1)) with (length cycle) by lia.
      apply Nat.Div0.mod_same.
    - replace (kj + length cycle - 1)%nat
        with ((kj - 1) + 1 * length cycle)%nat by lia.
      rewrite Nat.Div0.mod_add, (Nat.mod_small (kj - 1)) by lia.
      rewrite Nat.mod_small by lia. lia. }
  destruct (lookup_lt_is_Some_2 cycle k Hk) as [i Hi].
  assert (Hafter : after k = j) by (by rewrite Hsucc, Hkj).
  unfold pulp.holds, solve.entered_once.
  cbn [pulp.relation pulp.expression pulp.bound].
  apply (total_at v (λ i, solve.x_variable i j) _ i).
  - apply NoDup_filter, NoDup_range.
  - apply list_elem_of_filter. split.
    + rewrite <- Hafter. apply not_eq_sym. by apply after_other.
    + by apply elem_of_range, cycle_nodes, list_elem_of_lookup_2 with k.
  - cbv beta. rewrite <- Hafter. by rewrite (assignment_edge k i Hi).
  - intros b [_ Hb%elem_of_range]%list_elem_of_filter Hne.
    destruct (cycle_place b Hb) as (kb & Hkb & Hltb).
    cbv beta. rewrite (assignment_value kb b j Hkb).
    rewrite decide_False; [done|]. intros Hab.
    pose proof (after_lookup kb) as Hl. rewrite Hab in Hl.
    pose proof (NoDup_lookup _ _ _ _ cycle_NoDup Hl Hkj) as Hsame.
    rewrite <- Hsucc in Hsame. apply succ_mod_inj in Hsame; [|done..].
    subst kb. congruence.
Qed.

Lemma place_positive (k : nat) (i : Z) :
  cycle !! k = Some i → i ≠ 0 → (0 < k)%nat.
Proof.
  intros Hk Hi. destruct k; [|lia]. congruence.
Qed.

Lemma cycle_ordered (i j : Z) :
  1 ≤ i < n → 1 ≤ j < n → i ≠ j → pulp.holds v (solve.ordered self i j).
Proof.
  intros Hi Hj Hne.
  destruct (cycle_place i ltac:(lia)) as (ki & Hki & Hlti).
  destruct (cycle_place j ltac:(lia)) as (kj & Hkj & Hltj).
  pose proof (place_positive ki i Hki ltac:(lia)).
  pose proof (place_positive kj j Hkj ltac:(lia)).
  pose proof cycle_length as Hlen.
  unfold pulp.holds, solve.ordered.
  cbn [pulp.relation pulp.expression pulp.bound].
  rewrite !value_cons. change (pulp.value v []) with 0%Q.
  rewrite (assignment_place ki i Hki), (assignment_place kj j Hkj).
  rewrite (assignment_value ki i j Hki).
  assert (Hn1 : (inject_Z (n - 1) == inject_Z n - 1)%Q).
  { unfold Qminus. change 1%Q with (inject_Z 1).
    by rewrite <- inject_Z_opp, <- inject_Z_plus. }
  assert (Hq : ∀ a b c : Z, a - b + c ≤ 0 →
            (inject_Z a - inject_Z b + inject_Z c <= 0)%Q).
  { intros a b c Hab. change 0%Q with (inject_Z 0). unfold Qminus.
    rewrite <- inject_Z_opp, <- !inject_Z_plus, <- Zle_Qle. lia. }
  rewrite Hn1.
  case_decide as Hafter.
  - pose proof (after_lookup ki) as Hl. rewrite Hafter in Hl.
    pose proof (NoDup_lookup _ _ _ _ cycle_NoDup Hl Hkj) as Hsame.
    assert (Z.of_nat ki - Z.of_nat kj + 1 ≤ 0) as Hle%Hq.
    { destruct (decide (S ki = length cycle)) as [Hlast|].
      - rewrite Hlast, Nat.Div0.mod_same in Hsame. lia.
      - rewrite Nat.mod_small in Hsame by lia. lia. }
    change (inject_Z 1) with 1%Q in Hle. Lqa.lra.
  - assert (Z.of_nat ki - Z.of_nat kj + (1 - n) ≤ 0) as Hle%Hq by lia.
    assert (Hn2 : (inject_Z (1 - n) == 1 - inject_Z n)%Q).
    { unfold Qminus. change 1%Q with (inject_Z 1).
      by rewrite <- inject_Z_opp, <- inject_Z_plus. }
    rewrite Hn2 in Hle. Lqa.lra.
Qed.

Lemma cycle_constraints (c : pulp.LpConstraint) :
  c ∈ solve.constraints self → pulp.holds v c.
Proof.
  unfold solve.constraints.
  intros [Hc|[Hc|Hc]%elem_of_app]%elem_of_app.
  - apply list_elem_of_fmap in Hc as (i & -> & Hi%elem_of_range).
    by apply cycle_left_once.
  - apply list_elem_of_fmap in Hc as (j & -> & Hj%elem_of_range).
    by apply cycle_entered_once.
  - apply list_elem_of_bind in Hc as (i & Hc & Hi%elem_of_range).
    apply list_elem_of_bind in Hc as (j & Hc & Hj%elem_of_range).
    case_decide as Hne; [|by apply elem_of_nil in Hc].
    apply list_elem_of_singleton in Hc as ->. by apply cycle_ordered.
Qed.

Lemma cycle_x_within (i j : Z) :
  0 ≤ i < n → pulp.within v (solve.x_variable i j).
Proof.
  intros Hi. destruct (cycle_place i Hi) as (k & Hk & _).
  unfold pulp.within. cbn [pulp.lowBound pulp.upBound pulp.cat
    solve.x_variable pulp.LpVariable_].
  change (pulp.name _) with (pulp.name (solve.x_variable i j)).
  rewrite (assignment_value k i j Hk).
  split; [intros low [= <-]; by case_decide|].
  split; [intros up [= <-]; by case_decide|].
  intros _. case_decide; [by exists 1|by exists 0].
Qed.

Lemma cycle_u_within (i : Z) :
  1 ≤ i < n → pulp.within v (solve.u_variable self i).
Proof.
  intros Hi. destruct (cycle_place i ltac:(lia)) as (k & Hk & Hlt).
  pose proof (place_positive k i Hk ltac:(lia)).
  pose proof cycle_length as Hlen.
  unfold pulp.within. cbn [pulp.lowBound pulp.upBound pulp.cat
    solve.u_variable pulp.LpVariable_].
  change (pulp.name _) with (pulp.name (solve.u_variable self i)).
  rewrite (assignment_place k i Hk).
  split; [intros low [= <-]|split; [intros up [= <-]|done]].
  - change 1%Q with (inject_Z 1). rewrite <- Zle_Qle. lia.
  - rewrite <- Zle_Qle. lia.
Qed.

Lemma cycle_variables (p : pulp.LpProblem) (var : pulp.LpVariable) :
  solve.model self = Ok p → var ∈ pulp.variables p → pulp.within v var.
Proof.
  unfold solve.model. intros (terms & Hterms & [= <-])%bind_Ok.
  apply objective_terms in Hterms as [-> _].
  unfold pulp.variables. cbn [pulp.objective pulp.constraints].
  intros [Hvar|Hvar]%elem_of_app.
  - apply list_elem_of_fmap in Hvar as ([q var'] & -> & Hvar).
    apply list_elem_of_bind in Hvar as (i & Hvar & Hi%elem_of_range).
    apply list_elem_of_fmap in Hvar as (j & [= -> ->] & _).
    by apply cycle_x_within.
  - apply list_elem_of_bind in Hvar as (c & Hvar & Hc).
    apply list_elem_of_fmap in Hvar as ([q var'] & -> & Hvar).
    unfold solve.constraints in Hc.
    apply elem_of_app in Hc as [Hc|[Hc|Hc]%elem_of_app].
    + apply list_elem_of_fmap in Hc as (i & -> & Hi%elem_of_range).
      apply list_elem_of_fmap in Hvar as (j & [= -> ->] & _).
      by apply cycle_x_within.
    + apply list_elem_of_fmap in Hc as (j & -> & Hj%elem_of_range).
      apply list_elem_of_fmap in Hvar
        as (i & [= -> ->] & [_ Hi%elem_of_range]%list_elem_of_filter).
      by apply cycle_x_within.
    + apply list_elem_of_bind in Hc as (i & Hc & Hi%elem_of_range).
      apply list_elem_of_bind in Hc as (j & Hc & Hj%elem_of_range).
      case_decide as Hne; [|by apply elem_of_nil in Hc].
      apply list_elem_of_singleton in Hc as ->.
      cbn [solve.ordered pulp.expression] in Hvar.
      apply elem_of_cons in Hvar as [[= _ ->]|Hvar];
        [by apply cycle_u_within|].
      apply elem_of_cons in Hvar as [[= _ ->]|Hvar];
        [by apply cycle_u_within|].
      apply list_elem_of_singleton in Hvar as [= _ ->].
      apply cycle_x_within. lia.
Qed.

(** The assignment of a round trip is feasible. *)
Lemma cycle_assignment_feasible (p : pulp.LpProblem) :
  solve.model self = Ok p → pulp.feasible v p.
Proof.
  intros Hmodel. split.
  - apply Forall_forall. intros c Hc. apply cycle_constraints.
    unfold solve.model in Hmodel.
    apply bind_Ok in Hmodel as (terms & _ & [= <-]). done.
  - apply Forall_forall. intros var. by apply cycle_variables.
Qed.

(** The assignment of a round trip encodes it. *)
Lemma cycle_assignment_encodes :
  encodes_cycle n (solve.values self v) cycle.
Proof.
  split; [done|]. split; [apply cycle_NoDup|].
  split; [by destruct cycle; simplify_eq/=|].
  split; [intros i; apply cycle_nodes|].
  intros k i j Hk Hj. rewrite after_lookup in Hj. injection Hj as <-.
  pose proof (proj1 (cycle_nodes i) (list_elem_of_lookup_2 _ _ _ Hk)) as Hi.
  split.
  - split; [apply after_range|]. split; [apply not_eq_sym; by apply after_other|].
    apply chosen_values. split; [split; [done|apply after_range]|].
    split; [apply not_eq_sym; by apply after_other|].
    rewrite (assignment_edge k i Hk). Lqa.lra.
  - intros j' (_ & _ & (_ & _ & Hhalf)%chosen_values).
    rewrite (assignment_value k i j' Hk) in Hhalf.
    case_decide; [done|]. exfalso. Lqa.lra.
Qed.

End cycle_model.

(** ** The model admits the round trips and nothing else *)

Lemma u_lookup (self : MIPTSPSolver.t) (i : Z) :
  solve.u self !! i
  = if decide (1 ≤ i < MIPTSPSolver.n self)
    then Some (solve.u_variable self i) else None.
Proof.
  unfold solve.u.
  assert (Hfold : ∀ (l : list Z) (u0 : gmap Z pulp.LpVariable),
            foldl (λ (u : gmap Z pulp.LpVariable) i,
                     <[i := solve.u_variable self i]> u) u0 l !! i
            = if decide (i ∈ l) then Some (solve.u_variable self i)
              else u0 !! i).
  { induction l as [|a l IH] using rev_ind; intros u0.
    - cbn [foldl]. by destruct (decide (i ∈ [])) as [?%elem_of_nil|].
    - rewrite foldl_app. cbn [foldl].
      destruct (decide (i = a)) as [->|Hne].
      + rewrite lookup_insert_eq. rewrite decide_True; [done|].
        apply elem_of_app. right. left.
      + rewrite lookup_insert_ne by done. rewrite IH.
        destruct (decide (i ∈ l)) as [Hin|Hout].
        * rewrite decide_True; [done|]. apply elem_of_app. by left.
        * rewrite decide_False; [done|].
          intros [?|?%list_elem_of_singleton]%elem_of_app; done. }
  rewrite Hfold, lookup_empty.
  destruct (decide (i ∈ range 1 (MIPTSPSolver.n self)))
    as [Hi%elem_of_range|Hi].
  - by rewrite decide_True.
  - rewrite decide_False; [done|]. by rewrite <- elem_of_range.
Qed.










(** ** The tour read off any assignment, and its checks *)

(** A node from which an edge is used has a successor. *)
Lemma solution_edges_is_Some (self : MIPTSPSolver.t)
    (x : MIPTSPSolver.solution) (i j : Z) :
  0 ≤ i < MIPTSPSolver.n self → uses (MIPTSPSolver.n self) x i j →
  is_Some (MIPTSPSolver.solution_edges self x !! i).
Proof.
  intros Hi (Hj & Hne & Hch).
  rewrite solution_edges_lookup, decide_True by done.
  destruct (last _) as [j'|] eqn:Hlast; [done|].
  apply last_None in Hlast.
  assert (Hin : j ∈ filter (λ j, i ≠ j ∧ MIPTSPSolver.chosen x i j = true)
                      (range0 (MIPTSPSolver.n self))).
  { apply list_elem_of_filter. split; [done|]. by apply elem_of_range. }
  rewrite Hlast in Hin. by apply elem_of_nil in Hin.
Qed.






(** Distinct nodes of the instance are all of them when there are as many. *)
Lemma NoDup_cover (n : Z) (path : list Z) :
  NoDup path → (∀ z, z ∈ path → 0 ≤ z < n) →
  (length path = Z.to_nat n ↔ ∀ i, i ∈ path ↔ 0 ≤ i < n).
Proof.
  intros Hnodup Hrange. split.
  - intros Hlen.
    assert (Hsub : path ⊆+ range0 n).
    { apply NoDup_submseteq; [done|]. intros z Hz. by apply elem_of_range, Hrange. }
    assert (Hperm : path ≡ₚ range0 n).
    { apply submseteq_length_Permutation; [done|].
      unfold range0. rewrite length_range. lia. }
    intros i. rewrite Hperm. unfold range0. by rewrite elem_of_range.
  - intros Hnodes. by apply cover_length.
Qed.

(** [all_cities_visited] on a tour with its last entry set apart. *)
Lemma all_cities_visited_snoc (tsp_data : TSPData.t) (path : list Z) (c : Z) :
  solution_quality.all_cities_visited (solution_quality tsp_data (path ++ [c]))
  = bool_decide (Z.of_nat (size (list_to_set path : gset Z))
                 = TSPData.dimension tsp_data).
Proof.
  unfold solution_quality. cbn [solution_quality.all_cities_visited].
  rewrite take_snoc. by destruct path.
Qed.


(** A matrix built from coordinates has as many rows and columns as the
    instance has nodes. *)
Lemma builds_distances_square `{Builtins} (n : Z) (m : matrix) :
  builds_distances n m → square n m.
Proof.
  intros [self Hdim Hm|coordinates Hm].
  - apply compute_distance_matrix_entries in Hm as (n' & Hdim' & Hsq & _).
    congruence.
  - by apply load_tsp_matrix_entries in Hm as [Hsq _].
Qed.



(** ** The distances of a sub-instance *)


